(** * cpcache2go: the cache table and its self-adjusting expiration check

    A shallow embedding of [cachetable.go], [cacheitem.go] and [errors.go].

    Modelling choices.
    - Items live behind pointers ([*CacheItem]); the table maps keys to
      pointers.  The embedding keeps an explicit heap of items, so that two
      pointers to distinct items are distinct cells and a pointer handed to a
      caller aliases the cell the table holds.
    - [time.Duration] and [int64] are [Z] with the 64-bit wrap-around written
      out; [time.Time] is a [Z] count of nanoseconds and [Time.Sub] saturates,
      as the Go [time] package documents.
    - Every call of [time.Now()] made by an operation is an explicit argument
      of the operation ([now1] is the first reading, [now2] the second).
    - Go iterates over a map in an unspecified order: every [range] over
      [table.items] takes the order in which the keys are produced as an
      argument.
    - Callbacks are opaque closures.  A callback is identified by a number
      and a call is recorded in the trace of the world, together with the
      lock operations, the lookups of a key in the map and the writes to the
      map, in program order.  A callback does not call back into the table.  The
      data-loader is a function from the key and the arguments to the item it
      builds ([None] for a nil result).
    - The logger only prints: it is left out, but the accessor calls made to
      build its arguments are kept where they take a lock.
    - The closure given to [Foreach] gets the variables it captures as a
      state of its own, passed in and out.
    - The registry of [cache.go] is a map from names to pointers into a heap
      of tables; its mutex is left out.
    - Left out: [SetLogger] and [log], and the goroutine that the timer
      starts; the check it would run is the operation [expirationCheck],
      called with the time at which it runs. *)

From Stdlib Require Import ZArith Lia.
From stdpp Require Import gmap strings list fin_maps sorting.

Local Open Scope Z_scope.

(** ** 64-bit integers *)

Module Int64.

Definition min_int64 : Z := - 2 ^ 63.
Definition max_int64 : Z := 2 ^ 63 - 1.

(** Two's complement wrap-around of a mathematical integer. *)
Definition wrap (z : Z) : Z := (z + 2 ^ 63) mod 2 ^ 64 - 2 ^ 63.

Definition add (a b : Z) : Z := wrap (a + b).
Definition sub (a b : Z) : Z := wrap (a - b).

Definition in_range (z : Z) : Prop := min_int64 <= z <= max_int64.

End Int64.

(** ** The part of Go's [time] package the cache uses *)

Module Time.

(** Nanoseconds on the monotonic clock. *)
Abbreviation Time := Z (only parsing).
(** [time.Duration] is an [int64] count of nanoseconds. *)
Abbreviation Duration := Z (only parsing).

(** [t.Sub(u)]: the duration [t - u], saturated to the range of
    [Duration]. *)
Definition Sub (t u : Time) : Duration :=
  Z.max Int64.min_int64 (Z.min Int64.max_int64 (t - u)).

(** A timer made by [time.AfterFunc d f]: it runs [f] once, [d] after it
    was made, unless it is stopped first. *)
Record Timer : Type := mkTimer { timer_d : Duration; timer_running : bool }.

Definition AfterFunc (d : Duration) : Timer := mkTimer d true.
Definition Stop (t : Timer) : Timer := mkTimer (timer_d t) false.

End Time.

Module cpcache2go.

Import Time.

(** A pointer to a [CacheItem]: its index in the heap. *)
Abbreviation Ptr := nat (only parsing).
(** The identity of a callback closure. *)
Abbreviation Callback := nat (only parsing).

(** errors.go *)
Inductive Error : Type :=
| ErrKeyNotFound
| ErrKeyNotFoundOrLoadable.

Section cache.

(** Keys, data and loader arguments are [interface{}] values; keys are
    used as map keys, so they are comparable and hashable. *)
Context {K : Type} `{Countable K} {D : Type} {A : Type}.

(** *** cacheitem.go *)

Record CacheItem : Type := mkCacheItem {
  key : K;
  data : D;
  lifeSpan : Duration;
  createdOn : Time;
  accessedOn : Time;
  accessCount : Z;
  aboutToExpire : option Callback
}.

(** *** cachetable.go *)

Record CacheTable : Type := mkCacheTable {
  name : string;
  items : gmap K Ptr;
  cleanupTimer : option Timer;
  cleanupInterval : Duration;
  loadData : option (K -> list A -> option CacheItem);
  addedItem : option Callback;
  aboutToDeleteItem : option Callback
}.

(** What an operation does to its environment, in program order. *)
Inductive Event : Type :=
| TableLock | TableUnlock | TableRLock | TableRUnlock
| ItemLock (p : Ptr) | ItemUnlock (p : Ptr)
| ItemRLock (p : Ptr) | ItemRUnlock (p : Ptr)
| MapGet (k : K) | MapSet (k : K) (p : Ptr) | MapDelete (k : K) | MapReset
| CallLoadData (k : K) (args : list A)
| CallAddedItem (f : Callback) (item : Ptr)
| CallAboutToDeleteItem (f : Callback) (item : Ptr)
| CallAboutToExpire (f : Callback) (k : K).

Definition is_callback (e : Event) : bool :=
  match e with
  | CallLoadData _ _ | CallAddedItem _ _
  | CallAboutToDeleteItem _ _ | CallAboutToExpire _ _ => true
  | _ => false
  end.

Record World : Type := mkWorld {
  heap : list CacheItem;
  table : CacheTable;
  trace : list Event
}.

(** *** A state monad with failure

    [None] is a read through a pointer that is not in the heap, which a Go
    program cannot do. *)

Definition M (R : Type) : Type := World -> option (R * World).

Definition ret {R : Type} (r : R) : M R := fun w => Some (r, w).

Definition bind {R S : Type} (m : M R) (f : R -> M S) : M S :=
  fun w => match m w with
           | Some (r, w') => f r w'
           | None => None
           end.

Notation "x <- m ;; k" := (bind m (fun x => k))
  (at level 100, m at next level, right associativity).
Notation "m ;;; k" := (bind m (fun _ => k))
  (at level 100, right associativity).

Definition emit (e : Event) : M unit :=
  fun w => Some (tt, mkWorld (heap w) (table w) (trace w ++ [e])).

Definition get_table : M CacheTable := fun w => Some (table w, w).

Definition put_table (t : CacheTable) : M unit :=
  fun w => Some (tt, mkWorld (heap w) t (trace w)).

(** [*p] *)
Definition deref (p : Ptr) : M CacheItem :=
  fun w => match heap w !! p with
           | Some it => Some (it, w)
           | None => None
           end.

(** [*p = it] *)
Definition store (p : Ptr) (it : CacheItem) : M unit :=
  fun w => Some (tt, mkWorld (<[p := it]> (heap w)) (table w) (trace w)).

(** [&CacheItem{...}] *)
Definition alloc (it : CacheItem) : M Ptr :=
  fun w => Some (length (heap w), mkWorld (heap w ++ [it]) (table w) (trace w)).

(** [if f != nil { f(...) }] *)
Definition call (f : option Callback) (e : Callback -> Event) : M unit :=
  match f with
  | Some c => emit (e c)
  | None => ret tt
  end.

Definition set_items (m : gmap K Ptr) (t : CacheTable) : CacheTable :=
  mkCacheTable (name t) m (cleanupTimer t) (cleanupInterval t)
               (loadData t) (addedItem t) (aboutToDeleteItem t).

Definition set_cleanupTimer (c : option Timer) (t : CacheTable) : CacheTable :=
  mkCacheTable (name t) (items t) c (cleanupInterval t)
               (loadData t) (addedItem t) (aboutToDeleteItem t).

Definition set_cleanupInterval (d : Duration) (t : CacheTable) : CacheTable :=
  mkCacheTable (name t) (items t) (cleanupTimer t) d
               (loadData t) (addedItem t) (aboutToDeleteItem t).

(** [if table.cleanupTimer != nil { table.cleanupTimer.Stop() }] *)
Definition stop_cleanupTimer (t : CacheTable) : CacheTable :=
  set_cleanupTimer (Stop <$> cleanupTimer t) t.

(** *** cacheitem.go, operations *)

(** The record [NewCacheItem] builds; [t] is its reading of the clock. *)
Definition new_item (t : Time) (k : K) (l : Duration) (d : D) : CacheItem :=
  {| key := k; data := d; lifeSpan := l;
     createdOn := t; accessedOn := t;
     accessCount := 0; aboutToExpire := None |}.

Definition NewCacheItem (t : Time) (k : K) (l : Duration) (d : D) : M Ptr :=
  alloc (new_item t k l d).

Definition KeepAlive (now : Time) (item : Ptr) : M unit :=
  emit (ItemLock item) ;;;
  it <- deref item ;;
  store item (mkCacheItem (key it) (data it) (lifeSpan it) (createdOn it)
                          now (Int64.add (accessCount it) 1)
                          (aboutToExpire it)) ;;;
  emit (ItemUnlock item).

Definition CacheItem_AccessCount (item : Ptr) : M Z :=
  emit (ItemRLock item) ;;;
  it <- deref item ;;
  emit (ItemRUnlock item) ;;;
  ret (accessCount it).

Definition SetAboutToExpireCallback (item : Ptr) (f : option Callback) : M unit :=
  emit (ItemLock item) ;;;
  it <- deref item ;;
  store item (mkCacheItem (key it) (data it) (lifeSpan it) (createdOn it)
                          (accessedOn it) (accessCount it) f) ;;;
  emit (ItemUnlock item).

(** *** cachetable.go, operations *)

Definition Count : M Z :=
  emit TableRLock ;;;
  t <- get_table ;;
  emit TableRUnlock ;;;
  ret (Z.of_nat (size (items t))).

Definition SetDataLoader (f : option (K -> list A -> option CacheItem)) : M unit :=
  emit TableLock ;;;
  t <- get_table ;;
  put_table (mkCacheTable (name t) (items t) (cleanupTimer t) (cleanupInterval t)
                          f (addedItem t) (aboutToDeleteItem t)) ;;;
  emit TableUnlock.

Definition SetAddedItemCallback (f : option Callback) : M unit :=
  emit TableLock ;;;
  t <- get_table ;;
  put_table (mkCacheTable (name t) (items t) (cleanupTimer t) (cleanupInterval t)
                          (loadData t) f (aboutToDeleteItem t)) ;;;
  emit TableUnlock.

Definition SetAboutToDeleteItemCallback (f : option Callback) : M unit :=
  emit TableLock ;;;
  t <- get_table ;;
  put_table (mkCacheTable (name t) (items t) (cleanupTimer t) (cleanupInterval t)
                          (loadData t) (addedItem t) f) ;;;
  emit TableUnlock.

(** The result of a lookup or a deletion: the item and the
    error that Go returns side by side. *)
Definition Result : Type := (option Ptr * option Error)%type.

(** Called with the table lock held; returns with the table lock held. *)
Definition deleteInternal (k : K) : M Result :=
  emit (MapGet k) ;;;
  t <- get_table ;;
  match items t !! k with
  | None => ret (None, Some ErrKeyNotFound)
  | Some r =>
      emit TableUnlock ;;;
      call (aboutToDeleteItem t) (fun f => CallAboutToDeleteItem f r) ;;;
      emit (ItemRLock r) ;;;
      it <- deref r ;;
      call (aboutToExpire it) (fun f => CallAboutToExpire f k) ;;;
      emit TableLock ;;;
      (* arguments of the log line: r.CreatedOn(), r.AccessCount() *)
      _ <- CacheItem_AccessCount r ;;
      t' <- get_table ;;
      put_table (set_items (delete k (items t')) t') ;;;
      emit (MapDelete k) ;;;
      emit (ItemRUnlock r) ;;;
      ret (Some r, None)
  end.

Definition Delete (k : K) : M Result :=
  emit TableLock ;;;
  res <- deleteInternal k ;;
  emit TableUnlock ;;;
  ret res.

Definition Exists (k : K) : M bool :=
  emit TableRLock ;;;
  emit (MapGet k) ;;;
  t <- get_table ;;
  emit TableRUnlock ;;;
  ret (bool_decide (is_Some (items t !! k))).

(** An item is due when its lifespan is not zero and it has not been
    accessed for at least that long. *)
Definition expired (now : Time) (it : CacheItem) : bool :=
  negb (lifeSpan it =? 0) && (lifeSpan it <=? Sub now (accessedOn it)).

(** [lifeSpan - now.Sub(accessedOn)] *)
Definition remaining (now : Time) (it : CacheItem) : Duration :=
  Int64.sub (lifeSpan it) (Sub now (accessedOn it)).

(** One turn of the loop of [expirationCheck]; [k] is the key the
    iteration produces.  A key that is no longer in the map is not
    produced. *)
Definition expirationCheck_item (now : Time) (k : K) (smallestDuration : Duration)
  : M Duration :=
  t <- get_table ;;
  match items t !! k with
  | None => ret smallestDuration
  | Some item =>
      emit (ItemRLock item) ;;;
      it <- deref item ;;
      emit (ItemRUnlock item) ;;;
      if lifeSpan it =? 0 then ret smallestDuration
      else if lifeSpan it <=? Sub now (accessedOn it) then
        _ <- deleteInternal k ;; ret smallestDuration
      else if (smallestDuration =? 0) || (remaining now it <? smallestDuration)
        then ret (remaining now it)
        else ret smallestDuration
  end.

Fixpoint expirationCheck_loop (now : Time) (order : list K)
  (smallestDuration : Duration) : M Duration :=
  match order with
  | [] => ret smallestDuration
  | k :: rest =>
      d <- expirationCheck_item now k smallestDuration ;;
      expirationCheck_loop now rest d
  end.

Definition expirationCheck (now : Time) (order : list K) : M unit :=
  emit TableLock ;;;
  t <- get_table ;;
  put_table (stop_cleanupTimer t) ;;;
  smallestDuration <- expirationCheck_loop now order 0 ;;
  t <- get_table ;;
  put_table (set_cleanupInterval smallestDuration t) ;;;
  (if smallestDuration >? 0 then
     t <- get_table ;;
     put_table (set_cleanupTimer (Some (AfterFunc smallestDuration)) t)
   else ret tt) ;;;
  emit TableUnlock.

(** Called with the table lock held; releases it. *)
Definition addInternal (now : Time) (order : list K) (item : Ptr) : M unit :=
  it <- deref item ;;
  t <- get_table ;;
  put_table (set_items (<[key it := item]> (items t)) t) ;;;
  emit (MapSet (key it) item) ;;;
  let expDur := cleanupInterval t in
  let addedItem := addedItem t in
  emit TableUnlock ;;;
  call addedItem (fun f => CallAddedItem f item) ;;;
  it <- deref item ;;
  if (lifeSpan it >? 0) && ((expDur =? 0) || (lifeSpan it <? expDur))
  then expirationCheck now order
  else ret tt.

Definition Add (now1 now2 : Time) (order : list K)
  (k : K) (l : Duration) (d : D) : M Ptr :=
  item <- NewCacheItem now1 k l d ;;
  emit TableLock ;;;
  addInternal now2 order item ;;;
  ret item.

Definition NotFoundAdd (now1 now2 : Time) (order : list K)
  (k : K) (l : Duration) (d : D) : M bool :=
  emit TableLock ;;;
  emit (MapGet k) ;;;
  t <- get_table ;;
  match items t !! k with
  | Some _ => emit TableUnlock ;;; ret false
  | None =>
      item <- NewCacheItem now1 k l d ;;
      addInternal now2 order item ;;;
      ret true
  end.

Definition Value (now1 now2 : Time) (order : list K)
  (k : K) (args : list A) : M Result :=
  emit TableRLock ;;;
  emit (MapGet k) ;;;
  t <- get_table ;;
  emit TableRUnlock ;;;
  match items t !! k with
  | Some r =>
      KeepAlive now1 r ;;;
      ret (Some r, None)
  | None =>
      match loadData t with
      | Some load =>
          emit (CallLoadData k args) ;;;
          match load k args with
          | Some loaded =>
              item <- alloc loaded ;;
              it <- deref item ;;
              _ <- Add now1 now2 order k (lifeSpan it) (data it) ;;
              ret (Some item, None)
          | None => ret (None, Some ErrKeyNotFoundOrLoadable)
          end
      | None => ret (None, Some ErrKeyNotFound)
      end
  end.

Definition Flush : M unit :=
  emit TableLock ;;;
  t <- get_table ;;
  put_table (set_items ∅ t) ;;;
  emit MapReset ;;;
  t <- get_table ;;
  put_table (set_cleanupInterval 0 t) ;;;
  t <- get_table ;;
  put_table (stop_cleanupTimer t) ;;;
  emit TableUnlock.

Record CacheItemPair : Type := mkCacheItemPair {
  Key : K;
  AccessCount : Z
}.

(** [p.Less(i, j)], on the elements at [i] and [j]. *)
Definition Less (a b : CacheItemPair) : bool :=
  AccessCount a >? AccessCount b.

(** [a] may stand before [b] in a sorted list: [b] is not [Less] than [a]. *)
Definition sorted_before (a b : CacheItemPair) : Prop := Less b a = false.

#[local] Instance sorted_before_dec a b : Decision (sorted_before a b).
Proof. unfold sorted_before. apply _. Defined.

(** [sort.Sort(p)]: afterwards no element is [Less] than one before it.
    Go's sort is not stable; the order of the elements that compare equal
    varies with the order of the input, which is the iteration order of the
    map and is arbitrary already. *)
Definition sort_Sort (p : list CacheItemPair) : list CacheItemPair :=
  merge_sort sorted_before p.

(** The first loop of [MostAccessed]. *)
Fixpoint MostAccessed_pairs (order : list K) : M (list CacheItemPair) :=
  match order with
  | [] => ret []
  | k :: rest =>
      t <- get_table ;;
      match items t !! k with
      | None => MostAccessed_pairs rest
      | Some v =>
          it <- deref v ;;
          p <- MostAccessed_pairs rest ;;
          ret (mkCacheItemPair k (accessCount it) :: p)
      end
  end.

(** The second loop of [MostAccessed]; [c] counts the turns. *)
Fixpoint MostAccessed_top (p : list CacheItemPair) (c count : Z) (r : list Ptr)
  : M (list Ptr) :=
  match p with
  | [] => ret r
  | v :: rest =>
      if c >=? count then ret r
      else
        emit (MapGet (Key v)) ;;;
        t <- get_table ;;
        let r' := match items t !! Key v with
                  | Some item => r ++ [item]
                  | None => r
                  end in
        MostAccessed_top rest (Int64.add c 1) count r'
  end.

Definition MostAccessed (order : list K) (count : Z) : M (list Ptr) :=
  emit TableRLock ;;;
  p <- MostAccessed_pairs order ;;
  r <- MostAccessed_top (sort_Sort p) 0 count [] ;;
  emit TableRUnlock ;;;
  ret r.

(** *** cacheitem.go, the accessors

    [LifeSpan], [CreatedOn], [Key] and [Data] read a field that is never
    written once the item is made, and take no lock; [AccessedOn] and
    [AccessCount] read under the read lock of the item. *)

Definition CacheItem_LifeSpan (item : Ptr) : M Duration :=
  it <- deref item ;;
  ret (lifeSpan it).

Definition CacheItem_AccessedOn (item : Ptr) : M Time :=
  emit (ItemRLock item) ;;;
  it <- deref item ;;
  emit (ItemRUnlock item) ;;;
  ret (accessedOn it).

Definition CacheItem_CreatedOn (item : Ptr) : M Time :=
  it <- deref item ;;
  ret (createdOn it).

Definition CacheItem_Key (item : Ptr) : M K :=
  it <- deref item ;;
  ret (key it).

Definition CacheItem_Data (item : Ptr) : M D :=
  it <- deref item ;;
  ret (data it).

(** *** cachetable.go, [Foreach]

    [trans] is a closure of the caller.  The variables it captures are the
    state [S], passed in and out; it may read and write the world as well.
    A key that is no longer in the map is not produced. *)

Fixpoint Foreach_loop {S : Type} (trans : K -> Ptr -> S -> M S)
  (order : list K) (s : S) : M S :=
  match order with
  | [] => ret s
  | k :: rest =>
      t <- get_table ;;
      match items t !! k with
      | None => Foreach_loop trans rest s
      | Some v =>
          s' <- trans k v s ;;
          Foreach_loop trans rest s'
      end
  end.

Definition Foreach {S : Type} (trans : K -> Ptr -> S -> M S)
  (order : list K) (s : S) : M S :=
  emit TableRLock ;;;
  s' <- Foreach_loop trans order s ;;
  emit TableRUnlock ;;;
  ret s'.

(** *** cachetable.go, [CacheItemPairList]

    The three methods with which the list implements [sort.Interface].  An
    index out of range panics: there is no result. *)

(** [p[i]] *)
Definition index (p : list CacheItemPair) (i : Z) : option CacheItemPair :=
  if 0 <=? i then p !! Z.to_nat i else None.

Definition CacheItemPairList_Swap (p : list CacheItemPair) (i j : Z)
  : option (list CacheItemPair) :=
  match index p j, index p i with
  | Some b, Some a => Some (<[Z.to_nat j := a]> (<[Z.to_nat i := b]> p))
  | _, _ => None
  end.

Definition CacheItemPairList_Len (p : list CacheItemPair) : Z :=
  Z.of_nat (length p).

Definition CacheItemPairList_Less (p : list CacheItemPair) (i j : Z)
  : option bool :=
  match index p i, index p j with
  | Some a, Some b => Some (Less a b)
  | _, _ => None
  end.

(** *** cache.go

    The registry of the tables: the package variable [cache], a map from
    names to pointers to tables.  A pointer to a table is its index in the
    heap of tables. *)

Record Registry : Type := mkRegistry {
  tables : list CacheTable;
  cache : gmap string Ptr
}.

(** [&CacheTable{name: table, items: make(map[interface{}]*CacheItem)}];
    every other field has its zero value. *)
Definition new_table (table : string) : CacheTable :=
  {| name := table; items := ∅;
     cleanupTimer := None; cleanupInterval := 0;
     loadData := None; addedItem := None; aboutToDeleteItem := None |}.

(** [Cache(table)]: the lookup under the read lock, and under the write
    lock the second lookup and the insertion. *)
Definition Cache (table : string) (r : Registry) : Ptr * Registry :=
  match cache r !! table with
  | Some t => (t, r)
  | None =>
      match cache r !! table with
      | Some t => (t, r)
      | None =>
          let t := length (tables r) in
          (t, mkRegistry (tables r ++ [new_table table])
                         (<[table := t]> (cache r)))
      end
  end.

(** ** The vocabulary of the statements *)

(** *** Worlds *)

(** Every pointer of the map points into the heap. *)
Definition heap_covers (h : list CacheItem) (m : gmap K Ptr) : Prop :=
  map_Forall (fun _ p => is_Some (h !! p)) m.

(** Every pointer the table holds points into the heap. *)
Definition ptrs_valid (w : World) : Prop :=
  heap_covers (heap w) (items (table w)).

(** The item stored under a key. *)
Definition stored (w : World) (k : K) (it : CacheItem) : Prop :=
  exists p, items (table w) !! k = Some p /\ heap w !! p = Some it.

(** [order] is an order in which a [range] over the map may produce its
    keys: every key of the map, once. *)
Definition range_order (m : gmap K Ptr) (order : list K) : Prop :=
  NoDup order /\ forall k, k ∈ order <-> is_Some (m !! k).

(** The clock does not run backwards: no item of the map was accessed after
    [now]; and a lifespan is an [int64]. *)
Definition clock_ok (now : Time) (h : list CacheItem) (m : gmap K Ptr) : Prop :=
  forall k p it, m !! k = Some p -> h !! p = Some it ->
    Int64.in_range (lifeSpan it) /\ accessedOn it <= now.

(** The same, for the items stored in a world. *)
Definition timestamps_ok (now : Time) (w : World) : Prop :=
  forall k it, stored w k it ->
    Int64.in_range (lifeSpan it) /\ accessedOn it <= now.

(** *** Events *)

(** The events an operation adds to the trace. *)
Definition new_events {R : Type} (m : M R) (w : World) : list Event :=
  match m w with
  | Some (_, w') => drop (length (trace w)) (trace w')
  | None => []
  end.

(** The event of [if f != nil { f(...) }]. *)
Definition opt_call (f : option Callback) (e : Callback -> Event) : list Event :=
  match f with
  | Some c => [e c]
  | None => []
  end.

(** The events of [deleteInternal] on a key that is present. *)
Definition deleteInternal_events (aboutToDeleteItem : option Callback)
  (k : K) (r : Ptr) (it : CacheItem) : list Event :=
  [MapGet k; TableUnlock]
  ++ opt_call aboutToDeleteItem (fun f => CallAboutToDeleteItem f r)
  ++ [ItemRLock r]
  ++ opt_call (aboutToExpire it) (fun f => CallAboutToExpire f k)
  ++ [TableLock; ItemRLock r; ItemRUnlock r; MapDelete k; ItemRUnlock r].

(** The callbacks of the deletion of [k]. *)
Definition delete_callbacks (f : option Callback) (h : list CacheItem)
  (m : gmap K Ptr) (k : K) : list Event :=
  match m !! k with
  | Some p => match h !! p with
              | Some it =>
                  opt_call f (fun c => CallAboutToDeleteItem c p)
                  ++ opt_call (aboutToExpire it) (fun c => CallAboutToExpire c k)
              | None => []
              end
  | None => []
  end.

Definition is_MapSet (e : Event) : bool :=
  match e with
  | MapSet _ _ => true
  | _ => false
  end.

(** The map after the writes that [evs] records, in their order: the trace
    as a log of the map. *)
Fixpoint replay (evs : list Event) (m : gmap K Ptr) : gmap K Ptr :=
  match evs with
  | [] => m
  | MapSet k p :: rest => replay rest (<[k := p]> m)
  | MapDelete k :: rest => replay rest (delete k m)
  | MapReset :: rest => replay rest ∅
  | _ :: rest => replay rest m
  end.

(** *** Items and the scheduler *)

(** The item under [k] is due at [now]. *)
Definition is_expired (now : Time) (h : list CacheItem) (m : gmap K Ptr) (k : K)
  : bool :=
  match m !! k with
  | Some p => match h !! p with
              | Some it => expired now it
              | None => false
              end
  | None => false
  end.

(** The item under [k] has a lifespan and is not due at [now]. *)
Definition pending (now : Time) (h : list CacheItem) (m : gmap K Ptr)
  (k : K) (it : CacheItem) : Prop :=
  exists p, m !! k = Some p /\ h !! p = Some it /\
            lifeSpan it <> 0 /\ expired now it = false.

(** The remaining lifespan of an item at [now]. *)
Definition ttl (now : Time) (it : CacheItem) : Z :=
  lifeSpan it - (now - accessedOn it).

(** The item after [KeepAlive] at [now]. *)
Definition kept_alive (now : Time) (it : CacheItem) : CacheItem :=
  {| key := key it; data := data it; lifeSpan := lifeSpan it;
     createdOn := createdOn it; accessedOn := now;
     accessCount := Int64.add (accessCount it) 1;
     aboutToExpire := aboutToExpire it |}.

(** The scheduler is disarmed: the interval is zero and no timer runs. *)
Definition disarmed (t : CacheTable) : Prop :=
  cleanupInterval t = 0 /\
  match cleanupTimer t with
  | Some tm => timer_running tm = false
  | None => True
  end.

(** The scheduler is armed: a timer runs and fires after [d]. *)
Definition armed (t : CacheTable) (d : Duration) : Prop :=
  cleanupInterval t = d /\ cleanupTimer t = Some (AfterFunc d).

(** The scheduler waits for the least remaining lifespan of the items with a
    positive lifespan, or is disarmed when there is none. *)
Definition scheduler_minimal (now : Time) (w : World) : Prop :=
  (~ (exists k it, stored w k it /\ 0 < lifeSpan it) /\ disarmed (table w))
  \/ (exists k it, stored w k it /\ 0 < lifeSpan it /\
                   armed (table w) (ttl now it) /\
                   forall k' it', stored w k' it' -> 0 < lifeSpan it' ->
                                  ttl now it <= ttl now it').

(** *** The operations, read as functions

    What an operation returns is stated in closed form: the table and the
    events it leaves, as functions of the heap and the table it starts
    from.  The lemmas [expirationCheck_run], [addInternal_run] and
    [MostAccessed_run] below show that the operations compute them.

    [scan] is what the loop of [expirationCheck] computes from the map and
    the smallest duration so far: the map after the deletions, the smallest
    duration, and the events. *)

Definition scan_step (now : Time) (h : list CacheItem) (f : option Callback)
  (k : K) (m : gmap K Ptr) (d : Duration) : gmap K Ptr * Duration * list Event :=
  match m !! k with
  | None => (m, d, [])
  | Some p =>
      match h !! p with
      | None => (m, d, [])
      | Some it =>
          if lifeSpan it =? 0 then (m, d, [ItemRLock p; ItemRUnlock p])
          else if lifeSpan it <=? Sub now (accessedOn it) then
            (delete k m, d,
             [ItemRLock p; ItemRUnlock p] ++ deleteInternal_events f k p it)
          else
            (m,
             if (d =? 0) || (remaining now it <? d) then remaining now it else d,
             [ItemRLock p; ItemRUnlock p])
      end
  end.

Fixpoint scan (now : Time) (h : list CacheItem) (f : option Callback)
  (order : list K) (m : gmap K Ptr) (d : Duration)
  : gmap K Ptr * Duration * list Event :=
  match order with
  | [] => (m, d, [])
  | k :: rest =>
      let '(m1, d1, e1) := scan_step now h f k m d in
      let '(m2, d2, e2) := scan now h f rest m1 d1 in
      (m2, d2, e1 ++ e2)
  end.

(** The table after [expirationCheck]. *)
Definition expirationCheck_table (now : Time) (h : list CacheItem)
  (order : list K) (t : CacheTable) : CacheTable :=
  let '(m, d, _) := scan now h (aboutToDeleteItem t) order (items t) 0 in
  let t' := set_cleanupInterval d (set_items m (stop_cleanupTimer t)) in
  if d >? 0 then set_cleanupTimer (Some (AfterFunc d)) t' else t'.

(** The events of [expirationCheck]. *)
Definition expirationCheck_events (now : Time) (h : list CacheItem)
  (order : list K) (t : CacheTable) : list Event :=
  [TableLock] ++ (scan now h (aboutToDeleteItem t) order (items t) 0).2
  ++ [TableUnlock].

(** The test of [addInternal]: the new item has a lifespan, and no check is
    scheduled or the item is due before the scheduled one. *)
Definition check_needed (l expDur : Duration) : bool :=
  (l >? 0) && ((expDur =? 0) || (l <? expDur)).

(** The table after [addInternal]. *)
Definition addInternal_table (now : Time) (h : list CacheItem) (order : list K)
  (item : Ptr) (it : CacheItem) (t : CacheTable) : CacheTable :=
  let t1 := set_items (<[key it := item]> (items t)) t in
  if check_needed (lifeSpan it) (cleanupInterval t)
  then expirationCheck_table now h order t1 else t1.

(** The events of [addInternal]. *)
Definition addInternal_events (now : Time) (h : list CacheItem) (order : list K)
  (item : Ptr) (it : CacheItem) (t : CacheTable) : list Event :=
  [MapSet (key it) item; TableUnlock]
  ++ opt_call (addedItem t) (fun f => CallAddedItem f item)
  ++ (if check_needed (lifeSpan it) (cleanupInterval t)
      then expirationCheck_events now h order
             (set_items (<[key it := item]> (items t)) t)
      else []).

(** The pair that the first loop of [MostAccessed] makes for a key. *)
Definition pair_of (h : list CacheItem) (m : gmap K Ptr) (k : K)
  : option CacheItemPair :=
  match m !! k with
  | Some v => match h !! v with
              | Some it => Some (mkCacheItemPair k (accessCount it))
              | None => None
              end
  | None => None
  end.

(** *** Locks

    A [sync.RWMutex], as one thread of control sees it: free, held by a
    writer, or held by [S n] readers.  An operation that would block for
    ever ([Lock] or [RLock] of a mutex this thread holds for writing, [Lock]
    of one it holds for reading) or that panics ([Unlock] or [RUnlock] of a
    mutex that is not held so) has no next state. *)

Inductive Mutex : Type :=
| Free
| Writer
| Readers (n : nat).

Definition mutex_Lock (s : Mutex) : option Mutex :=
  match s with
  | Free => Some Writer
  | _ => None
  end.

Definition mutex_Unlock (s : Mutex) : option Mutex :=
  match s with
  | Writer => Some Free
  | _ => None
  end.

Definition mutex_RLock (s : Mutex) : option Mutex :=
  match s with
  | Free => Some (Readers 0)
  | Readers n => Some (Readers (S n))
  | Writer => None
  end.

Definition mutex_RUnlock (s : Mutex) : option Mutex :=
  match s with
  | Readers 0 => Some Free
  | Readers (S n) => Some (Readers n)
  | _ => None
  end.

(** [ok] or nothing. *)
Definition require (b : bool) (s : Mutex) : option Mutex :=
  if b then Some s else None.

Definition is_Free (s : Mutex) : bool :=
  match s with
  | Free => true
  | _ => false
  end.

Definition is_Writer (s : Mutex) : bool :=
  match s with
  | Writer => true
  | _ => false
  end.

(** The mutex of the table after an event.  The map is read with the mutex
    held, and written with the mutex held for writing; a callback is called
    with the mutex free. *)
Definition table_step (s : Mutex) (e : Event) : option Mutex :=
  match e with
  | TableLock => mutex_Lock s
  | TableUnlock => mutex_Unlock s
  | TableRLock => mutex_RLock s
  | TableRUnlock => mutex_RUnlock s
  | MapGet _ => require (negb (is_Free s)) s
  | MapSet _ _ | MapDelete _ | MapReset => require (is_Writer s) s
  | CallLoadData _ _ | CallAddedItem _ _
  | CallAboutToDeleteItem _ _ | CallAboutToExpire _ _ => require (is_Free s) s
  | ItemLock _ | ItemUnlock _ | ItemRLock _ | ItemRUnlock _ => Some s
  end.

(** The mutex of the item [p] after an event. *)
Definition item_step (p : Ptr) (s : Mutex) (e : Event) : option Mutex :=
  match e with
  | ItemLock q => if decide (q = p) then mutex_Lock s else Some s
  | ItemUnlock q => if decide (q = p) then mutex_Unlock s else Some s
  | ItemRLock q => if decide (q = p) then mutex_RLock s else Some s
  | ItemRUnlock q => if decide (q = p) then mutex_RUnlock s else Some s
  | _ => Some s
  end.

(** A mutex after a list of events, when every step has a next state. *)
Fixpoint mutex_run (step : Mutex -> Event -> option Mutex) (s : Mutex)
  (evs : list Event) : option Mutex :=
  match evs with
  | [] => Some s
  | e :: rest =>
      match step s e with
      | Some s' => mutex_run step s' rest
      | None => None
      end
  end.

(** The events take every mutex from free to free: the mutex of the table,
    with the map accessed and the callbacks called as [table_step] has it,
    and the mutex of every item. *)
Definition lock_discipline (evs : list Event) : Prop :=
  mutex_run table_step Free evs = Some Free /\
  forall p, mutex_run (item_step p) Free evs = Some Free.

(** *** What the operations keep *)

(** The fields of an item that the accessors read without a lock. *)
Definition same_fixed_fields (it it' : CacheItem) : Prop :=
  key it' = key it /\ data it' = data it /\
  lifeSpan it' = lifeSpan it /\ createdOn it' = createdOn it.

(** Every item of [h] is still there in [h'], with its fixed fields. *)
Definition heap_kept (h h' : list CacheItem) : Prop :=
  forall p it, h !! p = Some it ->
    exists it', h' !! p = Some it' /\ same_fixed_fields it it'.

(** The entries a [range] over the map produces in the order [order]. *)
Definition entries (m : gmap K Ptr) (order : list K) : list (K * Ptr) :=
  omap (fun k => (fun v => (k, v)) <$> m !! k) order.

(** Every table of the registry is in the heap of tables, under its own
    name. *)
Definition registry_ok (r : Registry) : Prop :=
  forall n p, cache r !! n = Some p ->
    exists t, tables r !! p = Some t /\ name t = n.

(** *** Checking the side conditions on a given world *)

Definition ptrs_validb (w : World) : bool :=
  bool_decide (map_Forall (fun _ p => is_Some (heap w !! p)) (items (table w))).

Definition range_orderb (m : gmap K Ptr) (order : list K) : bool :=
  bool_decide (NoDup order)
  && bool_decide (Forall (fun k => is_Some (m !! k)) order)
  && bool_decide (length order = size m).

Definition item_times_okb (now : Time) (h : list CacheItem) (p : Ptr) : bool :=
  match h !! p with
  | Some it => (Int64.min_int64 <=? lifeSpan it)
               && (lifeSpan it <=? Int64.max_int64)
               && (accessedOn it <=? now)
  | None => true
  end.

Definition timestamps_okb (now : Time) (w : World) : bool :=
  bool_decide (map_Forall (fun _ p => item_times_okb now (heap w) p = true)
                          (items (table w))).

End cache.

(** *** Tactics *)

(** Bring a trace built one event at a time to the form [tr ++ events]. *)
Ltac trace_norm := repeat (rewrite <- app_assoc; simpl).

(** Run the straight-line part of an operation. *)
Ltac run_M :=
  unfold bind, emit, get_table, put_table, ret, store, alloc; simpl.

(** ** Tables for the worked examples

    A table named ["myCache"] with three items, both table-level callbacks
    and a data-loader that knows the key ["x"]; and the tables on which the
    code and the claims part ways. *)

Section example_data.

Local Open Scope string_scope.

Definition ex_loaded : @CacheItem string string :=
  {| key := "x"; data := "loaded"; lifeSpan := 3;
     createdOn := 0; accessedOn := 0; accessCount := 0; aboutToExpire := None |}.

Definition ex_loader (k : string) (args : list string)
  : option (@CacheItem string string) :=
  if String.eqb k "x" then Some ex_loaded else None.

Definition ex_a : @CacheItem string string :=
  {| key := "a"; data := "alpha"; lifeSpan := 5;
     createdOn := 0; accessedOn := 0; accessCount := 5;
     aboutToExpire := Some 2%nat |}.

Definition ex_b : @CacheItem string string :=
  {| key := "b"; data := "beta"; lifeSpan := 0;
     createdOn := 0; accessedOn := 0; accessCount := 1;
     aboutToExpire := None |}.

Definition ex_c : @CacheItem string string :=
  {| key := "c"; data := "gamma"; lifeSpan := 8;
     createdOn := 1; accessedOn := 1; accessCount := 3;
     aboutToExpire := None |}.

Definition ex_table : @CacheTable string _ _ string string :=
  {| name := "myCache";
     items := <["a" := 0%nat]> (<["b" := 1%nat]> (<["c" := 2%nat]> ∅));
     cleanupTimer := Some (AfterFunc 5);
     cleanupInterval := 5;
     loadData := Some ex_loader;
     addedItem := Some 0%nat;
     aboutToDeleteItem := Some 1%nat |}.

Definition ex_world : World := mkWorld [ex_a; ex_b; ex_c] ex_table [].

(** The order in which the iteration of the examples produces the keys. *)
Definition ex_order : list string := ["c"; "a"; "b"].

(** A table that was just made by [Cache]. *)
Definition empty_world : World (K:=string) (D:=string) (A:=string) :=
  mkWorld [] (mkCacheTable "myCache" ∅ None 0 None None None) [].

(** The table after [Add("n", -1, "d")] at time 0: the lifespan is
    negative, so [addInternal] runs no check. *)
Definition negative_world : World (K:=string) (D:=string) (A:=string) :=
  {| heap := [new_item 0 "n" (-1) "d"];
     table := mkCacheTable "myCache" (<["n" := 0%nat]> ∅) None 0 None None None;
     trace := [TableLock; MapSet "n" 0%nat; TableUnlock] |}.

(** The table after [Add("a", 5, "d")] at time 0: the check has armed the
    timer for 5. *)
Definition armed_world : World (K:=string) (D:=string) (A:=string) :=
  {| heap := [new_item 0 "a" 5 "d"];
     table := mkCacheTable "myCache" (<["a" := 0%nat]> ∅)
                           (Some (AfterFunc 5)) 5 None None None;
     trace := [TableLock; MapSet "a" 0%nat; TableUnlock;
               TableLock; ItemRLock 0%nat; ItemRUnlock 0%nat; TableUnlock] |}.

(** A data-loader that answers with an item made for another key. *)
Definition other_loaded : @CacheItem string string :=
  {| key := "other"; data := "loaded"; lifeSpan := 0;
     createdOn := 0; accessedOn := 0; accessCount := 0; aboutToExpire := None |}.

Definition other_loader (k : string) (args : list string)
  : option (@CacheItem string string) := Some other_loaded.

Definition other_world : World (K:=string) (D:=string) (A:=string) :=
  mkWorld [] (mkCacheTable "myCache" ∅ None 0 (Some other_loader) None None) [].

(** Two items that have been accessed equally often. *)
Definition tie_world : World (K:=string) (D:=string) (A:=string) :=
  mkWorld [new_item 0 "a" 0 "d"; new_item 0 "b" 0 "d"]
          (mkCacheTable "myCache" (<["a" := 0%nat]> (<["b" := 1%nat]> ∅))
                        None 0 None None None) [].

(** The registry before the first call of [Cache]. *)
Definition empty_registry : Registry (K:=string) (D:=string) (A:=string) :=
  mkRegistry [] ∅.

(** The list that [MostAccessed] makes of the three items, in the order
    [ex_order]. *)
Definition ex_pairs : list (CacheItemPair (K:=string)) :=
  [mkCacheItemPair "c" 3; mkCacheItemPair "a" 5; mkCacheItemPair "b" 1].

End example_data.

(** ** Properties *)

(** *** Integers and durations *)

Lemma wrap_in_range z : Int64.in_range z -> Int64.wrap z = z.
Proof.
  unfold Int64.in_range, Int64.wrap, Int64.min_int64, Int64.max_int64. intros Hz.
  rewrite Z.mod_small; lia.
Qed.

Lemma Sub_exact t u : Int64.in_range (t - u) -> Sub t u = t - u.
Proof. unfold Sub, Int64.in_range. lia. Qed.

Section properties.

Context {K : Type} `{Countable K} {D : Type} {A : Type}.

Local Abbreviation CacheItem := (CacheItem (K:=K) (D:=D)).
Local Abbreviation CacheTable := (CacheTable (K:=K) (D:=D) (A:=A)).
Local Abbreviation CacheItemPair := (CacheItemPair (K:=K)).
Local Abbreviation Event := (Event (K:=K) (A:=A)).
Local Abbreviation World := (World (K:=K) (D:=D) (A:=A)).
Local Abbreviation M := (M (K:=K) (D:=D) (A:=A)).

Implicit Types (k : K) (order : list K) (args : list A) (m : gmap K Ptr).
Implicit Types (it loaded : CacheItem) (h : list CacheItem) (t : CacheTable).
Implicit Types (w : World) (tr evs : list Event) (e : Callback -> Event).

Local Abbreviation scan_step := (scan_step (D:=D) (A:=A)).
Local Abbreviation scan := (scan (D:=D) (A:=A)).
Local Abbreviation is_callback := (is_callback (K:=K) (A:=A)).
Local Abbreviation is_MapSet := (is_MapSet (K:=K) (A:=A)).
Local Abbreviation delete_callbacks := (delete_callbacks (D:=D) (A:=A)).
Local Abbreviation opt_call := (opt_call (K:=K) (A:=A)).
Local Abbreviation deleteInternal_events := (deleteInternal_events (D:=D) (A:=A)).

Lemma new_events_run {R : Type} (m : M R) (w : World) r h t evs :
  m w = Some (r, mkWorld h t (trace w ++ evs)) -> new_events m w = evs.
Proof.
  intros Hm. unfold new_events. rewrite Hm. simpl.
  by rewrite drop_app_length.
Qed.

Lemma call_run f e h t tr :
  call f e (mkWorld h t tr) = Some (tt, mkWorld h t (tr ++ opt_call f e)).
Proof. destruct f; simpl; [done|]. by rewrite app_nil_r. Qed.

Lemma deleteInternal_absent k h t tr :
  items t !! k = None ->
  deleteInternal k (mkWorld h t tr)
  = Some ((None, Some ErrKeyNotFound), mkWorld h t (tr ++ [MapGet k])).
Proof.
  intros Hk. unfold deleteInternal, bind, emit, get_table. simpl.
  by rewrite Hk.
Qed.

Lemma deleteInternal_present k r it h t tr :
  items t !! k = Some r -> h !! r = Some it ->
  deleteInternal k (mkWorld h t tr)
  = Some ((Some r, None),
          mkWorld h (set_items (delete k (items t)) t)
                  (tr ++ deleteInternal_events (aboutToDeleteItem t) k r it)).
Proof.
  intros Hk Hr. unfold deleteInternal, deleteInternal_events.
  unfold bind at 1. unfold emit at 1. simpl.
  unfold bind at 1. unfold get_table at 1. simpl. rewrite Hk.
  unfold bind at 1. unfold emit at 1. simpl.
  unfold bind at 1. rewrite call_run.
  unfold bind at 1. unfold emit at 1. simpl.
  unfold bind at 1. unfold deref at 1. simpl. rewrite Hr.
  unfold bind at 1. rewrite call_run.
  unfold CacheItem_AccessCount, bind, emit, deref, get_table, put_table, ret.
  simpl. rewrite Hr. simpl.
  by trace_norm.
Qed.

Lemma Delete_absent k h t tr :
  items t !! k = None ->
  Delete k (mkWorld h t tr)
  = Some ((None, Some ErrKeyNotFound),
          mkWorld h t (tr ++ [TableLock; MapGet k; TableUnlock])).
Proof.
  intros Hk. unfold Delete.
  unfold bind at 1. unfold emit at 1. simpl.
  unfold bind at 1. rewrite (deleteInternal_absent _ _ _ _ Hk).
  run_M. by trace_norm.
Qed.

Lemma Delete_present k r it h t tr :
  items t !! k = Some r -> h !! r = Some it ->
  Delete k (mkWorld h t tr)
  = Some ((Some r, None),
          mkWorld h (set_items (delete k (items t)) t)
                  (tr ++ [TableLock]
                      ++ deleteInternal_events (aboutToDeleteItem t) k r it
                      ++ [TableUnlock])).
Proof.
  intros Hk Hr. unfold Delete.
  unfold bind at 1. unfold emit at 1. simpl.
  unfold bind at 1. rewrite (deleteInternal_present _ _ _ _ _ _ Hk Hr).
  run_M. by trace_norm.
Qed.

Lemma KeepAlive_run now r it h t tr :
  h !! r = Some it ->
  KeepAlive now r (mkWorld h t tr)
  = Some (tt, mkWorld (<[r := mkCacheItem (key it) (data it) (lifeSpan it)
                                 (createdOn it) now
                                 (Int64.add (accessCount it) 1)
                                 (aboutToExpire it)]> h)
                      t (tr ++ [ItemLock r; ItemUnlock r])).
Proof.
  intros Hr. unfold KeepAlive, deref. run_M. rewrite Hr. simpl.
  by trace_norm.
Qed.

Lemma Flush_run h t tr :
  Flush (mkWorld h t tr)
  = Some (tt, mkWorld h (stop_cleanupTimer (set_cleanupInterval 0 (set_items ∅ t)))
                      (tr ++ [TableLock; MapReset; TableUnlock])).
Proof. unfold Flush. run_M. by trace_norm. Qed.

Lemma Exists_run k h t tr :
  Exists k (mkWorld h t tr)
  = Some (bool_decide (is_Some (items t !! k)),
          mkWorld h t (tr ++ [TableRLock; MapGet k; TableRUnlock])).
Proof. unfold Exists. run_M. by trace_norm. Qed.

Lemma Count_run h t tr :
  Count (mkWorld h t tr)
  = Some (Z.of_nat (size (items t)), mkWorld h t (tr ++ [TableRLock; TableRUnlock])).
Proof. unfold Count. run_M. by trace_norm. Qed.

(** *** The expiration check *)

Lemma heap_covers_delete h m k : heap_covers h m -> heap_covers h (delete k m).
Proof. apply map_Forall_delete. Qed.

Lemma heap_covers_insert h m k p :
  heap_covers h m -> is_Some (h !! p) -> heap_covers h (<[k := p]> m).
Proof. intros Hm Hp. by apply map_Forall_insert_2. Qed.

Lemma scan_step_covers now h f k m d :
  heap_covers h m -> heap_covers h (scan_step now h f k m d).1.1.
Proof.
  intros Hm. unfold scan_step.
  destruct (m !! k) as [p|]; [|done].
  destruct (h !! p) as [it|]; [|done].
  destruct (lifeSpan it =? 0); [done|].
  destruct (lifeSpan it <=? Sub now (accessedOn it)); [|done].
  by apply heap_covers_delete.
Qed.

Lemma expirationCheck_item_run now k m d h t tr :
  heap_covers h m ->
  expirationCheck_item now k d (mkWorld h (set_items m t) tr)
  = Some ((scan_step now h (aboutToDeleteItem t) k m d).1.2,
          mkWorld h (set_items (scan_step now h (aboutToDeleteItem t) k m d).1.1 t)
                  (tr ++ (scan_step now h (aboutToDeleteItem t) k m d).2)).
Proof.
  intros Hm. unfold expirationCheck_item, scan_step.
  unfold bind at 1. unfold get_table at 1. simpl.
  destruct (m !! k) as [p|] eqn:Hk; simpl.
  2:{ unfold ret. by rewrite app_nil_r. }
  destruct (Hm k p Hk) as [it Hp]. rewrite Hp.
  unfold bind at 1. unfold emit at 1. simpl.
  unfold bind at 1. unfold deref at 1. simpl. rewrite Hp.
  unfold bind at 1. unfold emit at 1. simpl.
  destruct (lifeSpan it =? 0); simpl.
  { unfold ret. by trace_norm. }
  destruct (lifeSpan it <=? Sub now (accessedOn it)); simpl.
  - unfold bind at 1.
    rewrite (deleteInternal_present k p it); [|done..].
    unfold ret. simpl. by trace_norm.
  - destruct ((d =? 0) || (remaining now it <? d)); unfold ret; by trace_norm.
Qed.

Lemma expirationCheck_loop_run now order : forall m d h t tr,
  heap_covers h m ->
  expirationCheck_loop now order d (mkWorld h (set_items m t) tr)
  = Some ((scan now h (aboutToDeleteItem t) order m d).1.2,
          mkWorld h (set_items (scan now h (aboutToDeleteItem t) order m d).1.1 t)
                  (tr ++ (scan now h (aboutToDeleteItem t) order m d).2)).
Proof.
  induction order as [|k rest IH]; intros m d h t tr Hm; simpl.
  - unfold ret. by rewrite app_nil_r.
  - unfold bind. rewrite expirationCheck_item_run; [|done].
    pose proof (scan_step_covers now h (aboutToDeleteItem t) k m d Hm) as Hm1.
    destruct (scan_step now h (aboutToDeleteItem t) k m d) as [[m1 d1] e1].
    simpl in *.
    rewrite IH; [|done].
    destruct (scan now h (aboutToDeleteItem t) rest m1 d1) as [[m2 d2] e2]. simpl.
    by trace_norm.
Qed.

Lemma set_items_id t : set_items (items t) t = t.
Proof. by destruct t. Qed.

Lemma expirationCheck_run now order h t tr :
  heap_covers h (items t) ->
  expirationCheck now order (mkWorld h t tr)
  = Some (tt, mkWorld h (expirationCheck_table now h order t)
                      (tr ++ expirationCheck_events now h order t)).
Proof.
  intros Hm. unfold expirationCheck, expirationCheck_table, expirationCheck_events.
  unfold bind at 1. unfold emit at 1. simpl.
  unfold bind at 1. unfold get_table at 1. simpl.
  unfold bind at 1. unfold put_table at 1. simpl.
  unfold bind at 1.
  rewrite <- (set_items_id (stop_cleanupTimer t)).
  rewrite expirationCheck_loop_run; [|done].
  change (aboutToDeleteItem (stop_cleanupTimer t)) with (aboutToDeleteItem t).
  change (items (stop_cleanupTimer t)) with (items t).
  destruct (scan now h (aboutToDeleteItem t) order (items t) 0) as [[m d] evs].
  simpl. run_M.
  destruct (d >? 0); simpl; by trace_norm.
Qed.

Lemma flat_map_ext_elem {X Y : Type} (f g : X -> list Y) (l : list X) :
  (forall x, x ∈ l -> f x = g x) -> flat_map f l = flat_map g l.
Proof.
  induction l as [|x l IH]; intros Hfg; simpl; [done|].
  rewrite Hfg by (apply elem_of_cons; by left).
  rewrite IH; [done|]. intros y Hy. apply Hfg. apply elem_of_cons. by right.
Qed.

Lemma filter_opt_call f e :
  (forall c, is_callback (e c) = true) ->
  filter is_callback (opt_call f e) = opt_call f e.
Proof.
  intros He. destruct f as [c|]; [|done]. simpl.
  rewrite filter_cons_True; [done|]. by rewrite He.
Qed.

Lemma filter_deleteInternal_events f k p it :
  filter is_callback (deleteInternal_events f k p it)
  = opt_call f (fun c => CallAboutToDeleteItem c p)
    ++ opt_call (aboutToExpire it) (fun c => CallAboutToExpire c k).
Proof.
  unfold deleteInternal_events.
  repeat first [ rewrite filter_app | rewrite filter_opt_call by done
               | rewrite filter_cons; simpl | rewrite filter_nil ].
  by rewrite app_nil_r.
Qed.

Lemma scan_step_map now h f k m d :
  (scan_step now h f k m d).1.1
  = if is_expired now h m k then delete k m else m.
Proof.
  unfold scan_step, is_expired, expired.
  destruct (m !! k) as [p|]; [|done].
  destruct (h !! p) as [it|]; [|done].
  destruct (lifeSpan it =? 0); [done|]. simpl.
  by destruct (lifeSpan it <=? Sub now (accessedOn it)).
Qed.

Lemma scan_step_callbacks now h f k m d :
  filter is_callback (scan_step now h f k m d).2
  = if is_expired now h m k then delete_callbacks f h m k else [].
Proof.
  unfold scan_step, is_expired, expired, delete_callbacks.
  destruct (m !! k) as [p|]; [|done].
  destruct (h !! p) as [it|]; [|done].
  destruct (lifeSpan it =? 0); [done|]. simpl.
  destruct (lifeSpan it <=? Sub now (accessedOn it)); [|done].
  simpl. rewrite !filter_cons. simpl. apply filter_deleteInternal_events.
Qed.

Lemma is_expired_delete now h m k0 k :
  is_expired now h (delete k0 m) k
  = if decide (k0 = k) then false else is_expired now h m k.
Proof.
  unfold is_expired. rewrite lookup_delete. by case_decide.
Qed.

Lemma delete_callbacks_delete f h m k0 k :
  k0 <> k -> delete_callbacks f h (delete k0 m) k = delete_callbacks f h m k.
Proof.
  intros Hne. unfold delete_callbacks. by rewrite lookup_delete_ne.
Qed.

(** The map after the loop: the due items the loop has reached are gone, and
    nothing else. *)
Lemma scan_lookup now h f order : forall m d k,
  (scan now h f order m d).1.1 !! k
  = if bool_decide (k ∈ order) && is_expired now h m k then None else m !! k.
Proof.
  induction order as [|k0 rest IH]; intros m d k; simpl.
  - done.
  - pose proof (scan_step_map now h f k0 m d) as Hmap.
    destruct (scan_step now h f k0 m d) as [[m1 d1] e1]. simpl in Hmap.
    specialize (IH m1 d1 k).
    destruct (scan now h f rest m1 d1) as [[m2 d2] e2]. simpl in *.
    rewrite IH, Hmap. clear IH Hmap.
    destruct (decide (k = k0)) as [->|Hne].
    + rewrite (bool_decide_eq_true_2 (k0 ∈ k0 :: rest))
        by (apply elem_of_cons; by left).
      simpl. destruct (is_expired now h m k0) eqn:He.
      * rewrite is_expired_delete.
        destruct (decide (k0 = k0)); [|done].
        rewrite andb_false_r. apply lookup_delete_eq.
      * rewrite He. by rewrite andb_false_r.
    + assert (bool_decide (k ∈ k0 :: rest) = bool_decide (k ∈ rest)) as ->.
      { apply bool_decide_ext. rewrite elem_of_cons. intuition. }
      destruct (is_expired now h m k0).
      * rewrite is_expired_delete.
        destruct (decide (k0 = k)) as [?|_]; [by subst|].
        by rewrite lookup_delete_ne.
      * done.
Qed.

(** The callbacks of the loop: those of the deletion of each due item, in
    the order of the iteration. *)
Lemma scan_callbacks now h f order : forall m d,
  NoDup order ->
  filter is_callback (scan now h f order m d).2
  = flat_map (delete_callbacks f h m)
             (filter (fun k => is_expired now h m k) order).
Proof.
  induction order as [|k0 rest IH]; intros m d Hnd; simpl; [done|].
  apply NoDup_cons in Hnd as [Hk0 Hnd].
  pose proof (scan_step_map now h f k0 m d) as Hmap.
  pose proof (scan_step_callbacks now h f k0 m d) as Hcb.
  destruct (scan_step now h f k0 m d) as [[m1 d1] e1]. simpl in Hmap, Hcb.
  specialize (IH m1 d1 Hnd).
  destruct (scan now h f rest m1 d1) as [[m2 d2] e2]. simpl in *.
  rewrite filter_app, Hcb, IH, Hmap. clear IH Hcb Hmap.
  destruct (is_expired now h m k0) eqn:He.
  - rewrite filter_cons_True by (by rewrite He). simpl. f_equal.
    assert (filter (fun k => is_expired now h (delete k0 m) k) rest
            = filter (fun k => is_expired now h m k) rest) as ->.
    { clear -Hk0. induction rest as [|k rest IH]; [done|].
      apply not_elem_of_cons in Hk0 as [Hne Hk0].
      rewrite !filter_cons, is_expired_delete.
      destruct (decide (k0 = k)) as [?|_]; [done|]. by rewrite IH. }
    apply flat_map_ext_elem. intros k Hk.
    apply delete_callbacks_delete. intros ->.
    apply list_elem_of_filter in Hk as [_ Hk]. done.
  - rewrite filter_cons_False by (rewrite He; intros []). done.
Qed.

Lemma expired_spec now it :
  Int64.in_range (lifeSpan it) -> accessedOn it <= now ->
  expired now it = true <-> lifeSpan it <> 0 /\ lifeSpan it <= now - accessedOn it.
Proof.
  unfold expired, Sub, Int64.in_range, Int64.min_int64, Int64.max_int64.
  intros Hl Ha. rewrite andb_true_iff, negb_true_iff. lia.
Qed.

Lemma remaining_spec now it :
  Int64.in_range (lifeSpan it) -> accessedOn it <= now ->
  lifeSpan it <> 0 -> expired now it = false ->
  0 < lifeSpan it /\
  remaining now it = lifeSpan it - (now - accessedOn it) /\
  0 < remaining now it.
Proof.
  intros Hl Ha Hz He.
  assert (now - accessedOn it < lifeSpan it) as Hlt.
  { destruct (Z.lt_ge_cases (now - accessedOn it) (lifeSpan it)) as [|Hge]; [done|].
    assert (expired now it = true) as Ht by (apply expired_spec; auto).
    congruence. }
  assert (Sub now (accessedOn it) = now - accessedOn it) as Hsub.
  { apply Sub_exact. revert Hl.
    unfold Int64.in_range, Int64.min_int64, Int64.max_int64. lia. }
  unfold remaining, Int64.sub. rewrite Hsub.
  rewrite wrap_in_range.
  - lia.
  - revert Hl. unfold Int64.in_range, Int64.min_int64, Int64.max_int64. lia.
Qed.

Lemma clock_ok_delete now h m k : clock_ok now h m -> clock_ok now h (delete k m).
Proof.
  intros Hok k' p it Hk'. apply lookup_delete_Some in Hk' as [_ Hk']. eauto.
Qed.

Lemma scan_step_clock_ok now h f k m d :
  clock_ok now h m -> clock_ok now h (scan_step now h f k m d).1.1.
Proof.
  intros Hok. rewrite scan_step_map.
  destruct (is_expired now h m k); [by apply clock_ok_delete|done].
Qed.

Lemma is_expired_pending now h m k it :
  pending now h m k it -> is_expired now h m k = false.
Proof.
  intros (p & Hk & Hp & _ & He). unfold is_expired. by rewrite Hk, Hp.
Qed.

Lemma scan_step_smallest now h f k m d :
  clock_ok now h m -> 0 <= d ->
  0 <= (scan_step now h f k m d).1.2 /\
  (0 < d -> 0 < (scan_step now h f k m d).1.2 <= d) /\
  ((scan_step now h f k m d).1.2 = d \/
   exists it, pending now h m k it /\
              (scan_step now h f k m d).1.2 = remaining now it) /\
  (forall it, pending now h m k it ->
              0 < (scan_step now h f k m d).1.2 <= remaining now it).
Proof.
  intros Hok Hd. unfold scan_step, pending.
  destruct (m !! k) as [p|] eqn:Hk; simpl.
  2:{ split; [done|]. split; [lia|]. split; [by left|].
      intros it (? & ? & _); congruence. }
  destruct (h !! p) as [it|] eqn:Hp; simpl.
  2:{ split; [done|]. split; [lia|]. split; [by left|].
      intros it (q & Hq & Hit & _). congruence. }
  destruct (Hok k p it Hk Hp) as [Hl Ha].
  destruct (lifeSpan it =? 0) eqn:Hz; simpl.
  { apply Z.eqb_eq in Hz. split; [done|]. split; [lia|]. split; [by left|].
    intros it' (q & Hq & Hit & Hnz & _). congruence. }
  apply Z.eqb_neq in Hz.
  destruct (lifeSpan it <=? Sub now (accessedOn it)) eqn:Hdue; simpl.
  { split; [done|]. split; [lia|]. split; [by left|].
    intros it' (q & Hq & Hit & _ & He).
    assert (it' = it) as -> by congruence.
    unfold expired in He. rewrite Hdue in He.
    apply andb_false_iff in He as [He|He]; [|done].
    apply negb_false_iff, Z.eqb_eq in He. done. }
  assert (expired now it = false) as He.
  { unfold expired. by rewrite Hdue, andb_false_r. }
  destruct (remaining_spec now it Hl Ha Hz He) as (Hpos & _ & Hrem).
  assert (forall it', (exists q, Some p = Some q /\ h !! q = Some it' /\
                       lifeSpan it' <> 0 /\ expired now it' = false) -> it' = it)
    as Hsame.
  { intros it' (q & Hq & Hit & _). congruence. }
  destruct ((d =? 0) || (remaining now it <? d)) eqn:Hc.
  - apply orb_true_iff in Hc. rewrite Z.eqb_eq, Z.ltb_lt in Hc.
    split; [lia|]. split; [lia|]. split.
    + right. exists it. eauto 10.
    + intros it' Hit'. rewrite (Hsame it' Hit'). lia.
  - apply orb_false_iff in Hc. rewrite Z.eqb_neq, Z.ltb_ge in Hc.
    split; [lia|]. split; [lia|]. split.
    + by left.
    + intros it' Hit'. rewrite (Hsame it' Hit'). lia.
Qed.

(** After the loop the smallest duration is the least remaining lifespan of
    the items the loop has reached and left in the map, when it started
    from zero. *)
Lemma scan_smallest now h f order : forall m d,
  clock_ok now h m -> 0 <= d ->
  0 <= (scan now h f order m d).1.2 /\
  (0 < d -> 0 < (scan now h f order m d).1.2 <= d) /\
  ((scan now h f order m d).1.2 = d \/
   exists k it, k ∈ order /\ pending now h m k it /\
                (scan now h f order m d).1.2 = remaining now it) /\
  (forall k it, k ∈ order -> pending now h m k it ->
                0 < (scan now h f order m d).1.2 <= remaining now it).
Proof.
  induction order as [|k0 rest IH]; intros m d Hok Hd; simpl.
  { split; [done|]. split; [lia|]. split; [by left|].
    intros k it Hk. by apply elem_of_nil in Hk. }
  pose proof (scan_step_smallest now h f k0 m d Hok Hd) as (S1 & S2 & S3 & S4).
  pose proof (scan_step_clock_ok now h f k0 m d Hok) as Hok1.
  pose proof (scan_step_map now h f k0 m d) as Hmap.
  destruct (scan_step now h f k0 m d) as [[m1 d1] e1]. simpl in *.
  destruct (IH m1 d1 Hok1 S1) as (I1 & I2 & I3 & I4).
  destruct (scan now h f rest m1 d1) as [[m2 d2] e2]. simpl in *.
  assert (forall k it, pending now h m1 k it -> pending now h m k it) as Hsub.
  { intros k it (p & Hk & Hrest). exists p. split; [|done].
    rewrite Hmap in Hk. destruct (is_expired now h m k0); [|done].
    by apply lookup_delete_Some in Hk as [_ Hk]. }
  assert (forall k it, k <> k0 -> pending now h m k it -> pending now h m1 k it)
    as Hsup.
  { intros k it Hne (p & Hk & Hrest). exists p. split; [|done].
    rewrite Hmap. destruct (is_expired now h m k0); [|done].
    by rewrite lookup_delete_ne. }
  split; [done|]. split; [|split].
  - intros Hpos. specialize (S2 Hpos). specialize (I2 ltac:(lia)). lia.
  - destruct I3 as [->|(k & it & Hk & Hp & ->)].
    + destruct S3 as [->|(it & Hp & ->)]; [by left|].
      right. exists k0, it. split; [apply elem_of_cons; by left|done].
    + right. exists k, it. split; [apply elem_of_cons; by right|]. eauto.
  - intros k it Hin Hp. destruct (decide (k = k0)) as [->|Hne].
    + destruct (S4 it Hp) as [Hpos Hle]. specialize (I2 Hpos). lia.
    + apply elem_of_cons in Hin as [?|Hin]; [done|].
      apply (I4 k it Hin). by apply Hsup.
Qed.

(** *** The scheduler after the check *)

Lemma expirationCheck_table_lookup now h order t k :
  items (expirationCheck_table now h order t) !! k
  = if bool_decide (k ∈ order) && is_expired now h (items t) k
    then None else items t !! k.
Proof.
  unfold expirationCheck_table.
  pose proof (scan_lookup now h (aboutToDeleteItem t) order (items t) 0 k) as Hl.
  destruct (scan now h (aboutToDeleteItem t) order (items t) 0) as [[m d] evs].
  simpl in Hl. by destruct (d >? 0).
Qed.

Lemma expirationCheck_table_fields now h order t :
  name (expirationCheck_table now h order t) = name t /\
  loadData (expirationCheck_table now h order t) = loadData t /\
  addedItem (expirationCheck_table now h order t) = addedItem t /\
  aboutToDeleteItem (expirationCheck_table now h order t) = aboutToDeleteItem t.
Proof.
  unfold expirationCheck_table.
  destruct (scan now h (aboutToDeleteItem t) order (items t) 0) as [[m d] evs].
  by destruct (d >? 0).
Qed.

Lemma expirationCheck_table_covers now h order t :
  heap_covers h (items t) ->
  heap_covers h (items (expirationCheck_table now h order t)).
Proof.
  intros Hm k p Hk. rewrite expirationCheck_table_lookup in Hk.
  destruct (bool_decide (k ∈ order) && is_expired now h (items t) k); [done|].
  by apply (Hm k).
Qed.

Lemma expirationCheck_table_scheduler now h order t tr :
  clock_ok now h (items t) ->
  (forall k, is_Some (items t !! k) -> k ∈ order) ->
  scheduler_minimal now (mkWorld h (expirationCheck_table now h order t) tr).
Proof.
  intros Hok Hcover.
  assert (forall k it,
            stored (mkWorld h (expirationCheck_table now h order t) tr) k it ->
            0 < lifeSpan it -> k ∈ order /\ pending now h (items t) k it) as Hst.
  { intros k it (p & Hk & Hp) Hpos. simpl in Hk, Hp.
    rewrite expirationCheck_table_lookup in Hk.
    destruct (bool_decide (k ∈ order) && is_expired now h (items t) k) eqn:Hc;
      [done|].
    assert (k ∈ order) as Hin by (apply Hcover; eauto).
    rewrite (bool_decide_eq_true_2 _ Hin) in Hc. simpl in Hc.
    split; [done|]. exists p. split; [done|]. split; [done|].
    split; [lia|]. unfold is_expired in Hc. by rewrite Hk, Hp in Hc. }
  assert (forall k it, pending now h (items t) k it ->
            stored (mkWorld h (expirationCheck_table now h order t) tr) k it /\
            0 < lifeSpan it /\ remaining now it = ttl now it) as Hpe.
  { intros k it Hp. pose proof (is_expired_pending _ _ _ _ _ Hp) as He.
    destruct Hp as (p & Hk & Hp & Hnz & Hne).
    destruct (Hok k p it Hk Hp) as [Hl Ha].
    destruct (remaining_spec now it Hl Ha Hnz Hne) as (Hpos & Hrem & _).
    split; [|done]. exists p. simpl. split; [|done].
    rewrite expirationCheck_table_lookup, He. by rewrite andb_false_r. }
  unfold scheduler_minimal, disarmed, armed.
  revert Hst Hpe. unfold expirationCheck_table.
  pose proof (scan_smallest now h (aboutToDeleteItem t) order (items t) 0
                Hok ltac:(lia)) as (S1 & _ & S3 & S4).
  destruct (scan now h (aboutToDeleteItem t) order (items t) 0) as [[m d] evs].
  simpl in S1, S3, S4.
  destruct (d >? 0) eqn:Hd; intros Hst Hpe.
  - apply Z.gtb_lt in Hd. right.
    destruct S3 as [->|(k & it & Hin & Hp & Hrem)]; [lia|].
    destruct (Hpe k it Hp) as (Hs & Hpos & Httl).
    exists k, it. split; [done|]. split; [done|]. split.
    + simpl. rewrite <- Httl, <- Hrem. done.
    + intros k' it' Hs' Hpos'. destruct (Hst k' it' Hs' Hpos') as [Hin' Hp'].
      destruct (Hpe k' it' Hp') as (_ & _ & Httl').
      destruct (S4 k' it' Hin' Hp') as [_ Hle]. lia.
  - left. assert (d = 0) as -> by (rewrite Z.gtb_ltb in Hd; apply Z.ltb_ge in Hd; lia).
    split.
    + intros (k & it & Hs & Hpos). destruct (Hst k it Hs Hpos) as [Hin Hp].
      destruct (S4 k it Hin Hp). lia.
    + simpl. split; [done|]. by destruct (cleanupTimer t).
Qed.

Lemma Delete_callbacks k h t tr :
  heap_covers h (items t) ->
  filter is_callback (new_events (Delete k) (mkWorld h t tr))
  = delete_callbacks (aboutToDeleteItem t) h (items t) k.
Proof.
  intros Hm. unfold delete_callbacks.
  destruct (items t !! k) as [p|] eqn:Hk.
  - destruct (Hm k p Hk) as [it Hp]. rewrite Hp.
    rewrite (new_events_run _ _ _ _ _ _ (Delete_present k p it h t tr Hk Hp)).
    rewrite !filter_app, filter_deleteInternal_events.
    by rewrite !filter_cons, !filter_nil, app_nil_r.
  - by rewrite (new_events_run _ _ _ _ _ _ (Delete_absent k h t tr Hk)).
Qed.

(** What [expirationCheck] does, all in one place. *)
Lemma expirationCheck_post now order h t tr :
  heap_covers h (items t) ->
  exists t' evs,
    expirationCheck now order (mkWorld h t tr)
    = Some (tt, mkWorld h t' (tr ++ evs)) /\
    heap_covers h (items t') /\
    (forall k, items t' !! k
               = if bool_decide (k ∈ order) && is_expired now h (items t) k
                 then None else items t !! k) /\
    (name t' = name t /\ loadData t' = loadData t /\
     addedItem t' = addedItem t /\ aboutToDeleteItem t' = aboutToDeleteItem t) /\
    (NoDup order ->
     filter is_callback evs
     = flat_map (fun k => filter is_callback (new_events (Delete k) (mkWorld h t tr)))
                (filter (fun k => is_expired now h (items t) k) order)) /\
    (clock_ok now h (items t) ->
     (forall k, is_Some (items t !! k) -> k ∈ order) ->
     scheduler_minimal now (mkWorld h t' (tr ++ evs))).
Proof.
  intros Hm.
  exists (expirationCheck_table now h order t), (expirationCheck_events now h order t).
  split; [by apply expirationCheck_run|].
  split; [by apply expirationCheck_table_covers|].
  split; [intros k; apply expirationCheck_table_lookup|].
  split; [apply expirationCheck_table_fields|].
  split.
  - intros Hnd. unfold expirationCheck_events.
    rewrite !filter_app, (scan_callbacks _ _ _ _ _ _ Hnd).
    rewrite !filter_cons, !filter_nil, app_nil_r. simpl.
    apply flat_map_ext_elem. intros k _. symmetry. by apply Delete_callbacks.
  - intros Hok Hcover. by apply expirationCheck_table_scheduler.
Qed.

(** X1. An item without a lifespan survives every check, whatever the clock
    says. *)
Lemma expirationCheck_keeps_zero_lifespan now order w k it :
  ptrs_valid w -> stored w k it -> lifeSpan it = 0 ->
  exists w', expirationCheck now order w = Some (tt, w') /\ stored w' k it.
Proof.
  destruct w as [h t tr]. unfold ptrs_valid. simpl.
  intros Hm (p & Hk & Hp) Hz. simpl in Hk, Hp.
  destruct (expirationCheck_post now order h t tr Hm)
    as (t' & evs & Hrun & _ & Hlook & _).
  eexists. split; [exact Hrun|]. exists p. simpl. split; [|done].
  rewrite Hlook. unfold is_expired, expired. rewrite Hk, Hp, Hz. simpl.
  by rewrite andb_false_r.
Qed.

(** *** Adding an item *)

Lemma addInternal_run now order item it h t tr :
  h !! item = Some it -> heap_covers h (items t) ->
  addInternal now order item (mkWorld h t tr)
  = Some (tt, mkWorld h (addInternal_table now h order item it t)
                      (tr ++ addInternal_events now h order item it t)).
Proof.
  intros Hit Hm. unfold addInternal, addInternal_table, addInternal_events.
  unfold bind at 1. unfold deref at 1. simpl. rewrite Hit.
  unfold bind at 1. unfold get_table at 1. simpl.
  unfold bind at 1. unfold put_table at 1. simpl.
  unfold bind at 1. unfold emit at 1. simpl.
  unfold bind at 1. unfold emit at 1. simpl.
  unfold bind at 1. rewrite call_run.
  unfold bind at 1. unfold deref at 1. simpl. rewrite Hit.
  fold (check_needed (lifeSpan it) (cleanupInterval t)).
  destruct (check_needed (lifeSpan it) (cleanupInterval t)).
  - rewrite expirationCheck_run.
    + by trace_norm.
    + simpl. apply heap_covers_insert; [done|eauto].
  - unfold ret. trace_norm. by rewrite app_nil_r.
Qed.

Lemma heap_covers_app h m it : heap_covers h m -> heap_covers (h ++ [it]) m.
Proof.
  intros Hm k p Hk. destruct (Hm k p Hk) as [x Hx].
  exists x. by apply lookup_app_l_Some.
Qed.

Lemma lookup_new h (it : CacheItem) : (h ++ [it]) !! length h = Some it.
Proof. by rewrite list_lookup_middle. Qed.

Lemma Add_run now1 now2 order k l d h t tr :
  heap_covers h (items t) ->
  Add now1 now2 order k l d (mkWorld h t tr)
  = Some (length h,
          mkWorld (h ++ [new_item now1 k l d])
                  (addInternal_table now2 (h ++ [new_item now1 k l d])
                     order (length h) (new_item now1 k l d) t)
                  (tr ++ [TableLock]
                      ++ addInternal_events now2
                           (h ++ [new_item now1 k l d])
                           order (length h) (new_item now1 k l d) t)).
Proof.
  intros Hm. unfold Add, NewCacheItem.
  unfold bind at 1. unfold alloc at 1. simpl.
  unfold bind at 1. unfold emit at 1. simpl.
  unfold bind at 1.
  rewrite (addInternal_run _ _ _ (new_item now1 k l d)).
  - unfold ret. by trace_norm.
  - apply lookup_new.
  - by apply heap_covers_app.
Qed.

Lemma NotFoundAdd_present now1 now2 order k l d p h t tr :
  items t !! k = Some p ->
  NotFoundAdd now1 now2 order k l d (mkWorld h t tr)
  = Some (false, mkWorld h t (tr ++ [TableLock; MapGet k; TableUnlock])).
Proof.
  intros Hk. unfold NotFoundAdd. run_M. rewrite Hk. by trace_norm.
Qed.

Lemma NotFoundAdd_absent now1 now2 order k l d h t tr :
  items t !! k = None -> heap_covers h (items t) ->
  NotFoundAdd now1 now2 order k l d (mkWorld h t tr)
  = Some (true,
          mkWorld (h ++ [new_item now1 k l d])
                  (addInternal_table now2 (h ++ [new_item now1 k l d])
                     order (length h) (new_item now1 k l d) t)
                  (tr ++ [TableLock; MapGet k]
                      ++ addInternal_events now2
                           (h ++ [new_item now1 k l d])
                           order (length h) (new_item now1 k l d) t)).
Proof.
  intros Hk Hm. unfold NotFoundAdd, NewCacheItem.
  unfold bind at 1. unfold emit at 1. simpl.
  unfold bind at 1. unfold emit at 1. simpl.
  unfold bind at 1. unfold get_table at 1. simpl. rewrite Hk.
  unfold bind at 1. unfold alloc at 1. simpl.
  unfold bind at 1.
  rewrite (addInternal_run _ _ _ (new_item now1 k l d)).
  - unfold ret. by trace_norm.
  - apply lookup_new.
  - by apply heap_covers_app.
Qed.

(** *** Looking an item up *)

Lemma Value_hit now1 now2 order k args r it h t tr :
  items t !! k = Some r -> h !! r = Some it ->
  Value now1 now2 order k args (mkWorld h t tr)
  = Some ((Some r, None),
          mkWorld (<[r := kept_alive now1 it]> h) t
                  (tr ++ [TableRLock; MapGet k; TableRUnlock;
                          ItemLock r; ItemUnlock r])).
Proof.
  intros Hk Hr. unfold Value.
  unfold bind at 1. unfold emit at 1. simpl.
  unfold bind at 1. unfold emit at 1. simpl.
  unfold bind at 1. unfold get_table at 1. simpl.
  unfold bind at 1. unfold emit at 1. simpl. rewrite Hk.
  unfold bind at 1. rewrite (KeepAlive_run _ _ it); [|done].
  unfold ret. by trace_norm.
Qed.

Lemma Value_miss_no_loader now1 now2 order k args h t tr :
  items t !! k = None -> loadData t = None ->
  Value now1 now2 order k args (mkWorld h t tr)
  = Some ((None, Some ErrKeyNotFound),
          mkWorld h t (tr ++ [TableRLock; MapGet k; TableRUnlock])).
Proof.
  intros Hk Hl. unfold Value. run_M. rewrite Hk, Hl. by trace_norm.
Qed.

Lemma Value_miss_not_loadable now1 now2 order k args load h t tr :
  items t !! k = None -> loadData t = Some load -> load k args = None ->
  Value now1 now2 order k args (mkWorld h t tr)
  = Some ((None, Some ErrKeyNotFoundOrLoadable),
          mkWorld h t (tr ++ [TableRLock; MapGet k; TableRUnlock;
                              CallLoadData k args])).
Proof.
  intros Hk Hl Hn. unfold Value. run_M. rewrite Hk, Hl. simpl. rewrite Hn.
  by trace_norm.
Qed.

Lemma Value_miss_loaded now1 now2 order k args load loaded h t tr :
  items t !! k = None -> loadData t = Some load -> load k args = Some loaded ->
  heap_covers h (items t) ->
  Value now1 now2 order k args (mkWorld h t tr)
  = Some ((Some (length h), None),
          mkWorld ((h ++ [loaded])
                     ++ [new_item now1 k (lifeSpan loaded) (data loaded)])
                  (addInternal_table now2
                     ((h ++ [loaded])
                        ++ [new_item now1 k (lifeSpan loaded) (data loaded)])
                     order (S (length h))
                     (new_item now1 k (lifeSpan loaded) (data loaded)) t)
                  (tr ++ [TableRLock; MapGet k; TableRUnlock;
                          CallLoadData k args; TableLock]
                      ++ addInternal_events now2
                           ((h ++ [loaded])
                              ++ [new_item now1 k (lifeSpan loaded) (data loaded)])
                           order (S (length h))
                           (new_item now1 k (lifeSpan loaded) (data loaded)) t)).
Proof.
  intros Hk Hl Hload Hm. unfold Value.
  unfold bind at 1. unfold emit at 1. simpl.
  unfold bind at 1. unfold emit at 1. simpl.
  unfold bind at 1. unfold get_table at 1. simpl.
  unfold bind at 1. unfold emit at 1. simpl. rewrite Hk, Hl.
  unfold bind at 1. unfold emit at 1. simpl. rewrite Hload.
  unfold bind at 1. unfold alloc at 1. simpl.
  unfold bind at 1. unfold deref at 1. simpl. rewrite lookup_new.
  unfold bind at 1. rewrite Add_run; [|by apply heap_covers_app].
  unfold ret. rewrite length_app. simpl.
  replace (length h + 1)%nat with (S (length h)) by lia.
  by trace_norm.
Qed.

(** ** The operations of the table *)

(** C4. [Delete] of a key that is absent fails with [ErrKeyNotFound] and
    leaves the heap and the table as they were.  [Delete] of a key that is
    present calls the table's [aboutToDeleteItem] callback (when set) with
    the item, then the item's own [aboutToExpire] callback (when set) with
    the key, then removes the key from the map, and returns the item that
    was removed.  In the table that [Delete] leaves the key is not in the map
    any more, every other key is where it was, and nothing else of the table
    or of the heap has changed.  The trace holds the two calls and the
    removal in this order; it is a true log of the map, as replaying it on
    the map before gives the map after, and at each of the two calls the
    map so far still holds the item under the key. *)
Theorem Delete_callbacks_then_removal (k : K) (w : World) :
  ptrs_valid w ->
  (items (table w) !! k = None ->
   Delete k w
   = Some ((None, Some ErrKeyNotFound),
           mkWorld (heap w) (table w)
                   (trace w ++ [TableLock; MapGet k; TableUnlock])))
  /\
  (forall r, items (table w) !! k = Some r ->
   exists it w',
     heap w !! r = Some it /\
     Delete k w = Some ((Some r, None), w') /\
     w' = mkWorld (heap w)
                  (set_items (delete k (items (table w))) (table w))
                  (trace w
                   ++ [TableLock; MapGet k; TableUnlock]
                   ++ opt_call (aboutToDeleteItem (table w))
                               (fun f => CallAboutToDeleteItem f r)
                   ++ [ItemRLock r]
                   ++ opt_call (aboutToExpire it)
                               (fun f => CallAboutToExpire f k)
                   ++ [TableLock; ItemRLock r; ItemRUnlock r;
                       MapDelete k; ItemRUnlock r; TableUnlock]) /\
     items (table w') !! k = None /\
     (forall k', k' <> k -> items (table w') !! k' = items (table w) !! k') /\
     size (items (table w')) = pred (size (items (table w))) /\
     name (table w') = name (table w) /\
     cleanupTimer (table w') = cleanupTimer (table w) /\
     cleanupInterval (table w') = cleanupInterval (table w) /\
     loadData (table w') = loadData (table w) /\
     addedItem (table w') = addedItem (table w) /\
     aboutToDeleteItem (table w') = aboutToDeleteItem (table w) /\
     heap w' = heap w /\
     items (table w') = replay (new_events (Delete k) w) (items (table w)) /\
     (forall (pre post : list Event) (c : Event),
        new_events (Delete k) w = pre ++ c :: post ->
        is_callback c = true ->
        replay pre (items (table w)) !! k = Some r)).
Proof.
  destruct w as [h t tr]. unfold ptrs_valid. simpl. intros Hm. split.
  - apply Delete_absent.
  - intros r Hk. destruct (Hm k r Hk) as [it Hr].
    pose proof (Delete_present k r it h t tr Hk Hr) as Hrun.
    exists it. eexists. split; [done|]. split; [exact Hrun|].
    rewrite (new_events_run _ _ _ _ _ _ Hrun).
    split; [unfold deleteInternal_events; by trace_norm|]. simpl.
    split; [apply lookup_delete_eq|].
    split; [by intros k' Hk'; apply lookup_delete_ne|].
    split; [by apply map_size_delete_Some|].
    do 7 (split; [done|]).
    unfold deleteInternal_events.
    destruct (aboutToDeleteItem t) as [f|], (aboutToExpire it) as [g|]; simpl;
      (split; [done|]); intros pre post c Heq Hcb;
      repeat (destruct pre as [|? pre]; simpl in Heq;
              [injection Heq as <- <-; first [discriminate Hcb | exact Hk]
              |injection Heq as <- Heq]);
      by destruct pre.
Qed.

(** C7. After [Flush] the map is empty and [Count] returns 0, the cleanup
    interval is zero and no timer runs, and neither the table's
    [aboutToDeleteItem] callback nor the [aboutToExpire] callback of any
    item was called, whatever the table held. *)
Theorem Flush_clears_without_callbacks (w : World) :
  exists w',
    Flush w = Some (tt, w') /\
    items (table w') = ∅ /\
    (exists w'', Count w' = Some (0, w'')) /\
    disarmed (table w') /\
    heap w' = heap w /\
    new_events Flush w = [TableLock; MapReset; TableUnlock] /\
    filter is_callback (new_events Flush w) = [].
Proof.
  destruct w as [h t tr]. eexists. split; [apply Flush_run|].
  rewrite (new_events_run _ _ _ _ _ _ (Flush_run h t tr)). simpl.
  split; [done|]. split.
  - eexists. rewrite Count_run. simpl. by rewrite map_size_empty.
  - split; [|done]. split; [done|]. simpl. by destruct (cleanupTimer t).
Qed.

(** C6. [Value] of a key that is present returns no error: it returns the
    stored item, after [KeepAlive] has set the item's [accessedOn] to the
    current time and added one to its [accessCount] (in [int64]), both
    between one [Lock] and [Unlock] of the item.  An item with a lifespan is
    then due exactly when a full lifespan has passed since this access. *)
Theorem Value_hit_keeps_alive (now1 now2 : Time) (order : list K) (k : K)
  (args : list A) (w : World) (r : Ptr) (it : CacheItem) :
  items (table w) !! k = Some r ->
  heap w !! r = Some it ->
  exists w',
    Value now1 now2 order k args w = Some ((Some r, None), w') /\
    table w' = table w /\
    heap w' = <[r := kept_alive now1 it]> (heap w) /\
    heap w' !! r = Some (kept_alive now1 it) /\
    accessedOn (kept_alive now1 it) = now1 /\
    accessCount (kept_alive now1 it) = Int64.add (accessCount it) 1 /\
    (Int64.in_range (accessCount it) -> accessCount it < Int64.max_int64 ->
     accessCount (kept_alive now1 it) = accessCount it + 1) /\
    new_events (Value now1 now2 order k args) w
    = [TableRLock; MapGet k; TableRUnlock; ItemLock r; ItemUnlock r] /\
    (0 < lifeSpan it <= Int64.max_int64 ->
     forall now, expired now (kept_alive now1 it) = true
                 <-> now1 + lifeSpan it <= now).
Proof.
  destruct w as [h t tr]. simpl. intros Hk Hr. eexists.
  split; [by apply (Value_hit _ _ _ _ _ r it)|].
  rewrite (new_events_run _ _ _ _ _ _
             (Value_hit now1 now2 order k args r it h t tr Hk Hr)). simpl.
  split; [done|]. split; [done|]. split.
  { apply list_lookup_insert_eq. by apply lookup_lt_Some in Hr. }
  split; [done|]. split; [done|]. split.
  { intros Hc Hlt. unfold Int64.add. apply wrap_in_range.
    revert Hc. unfold Int64.in_range. lia. }
  split; [done|].
  intros Hl now. unfold expired, Sub. simpl.
  rewrite andb_true_iff, negb_true_iff, Z.eqb_neq, Z.leb_le.
  revert Hl. unfold Int64.min_int64, Int64.max_int64. lia.
Qed.

(** C2. [Value] succeeds when the key is present.  When the key is absent it
    fails with [ErrKeyNotFound] if no data-loader is set, fails with
    [ErrKeyNotFoundOrLoadable] if the data-loader returns nil, and succeeds
    with an item if the data-loader returns one.  There is no other
    outcome. *)
Theorem Value_outcomes (now1 now2 : Time) (order : list K) (k : K)
  (args : list A) (w : World) :
  ptrs_valid w ->
  exists res w',
    Value now1 now2 order k args w = Some (res, w') /\
    match items (table w) !! k with
    | Some r => res = (Some r, None)
    | None =>
        match loadData (table w) with
        | None => res = (None, Some ErrKeyNotFound)
        | Some load =>
            match load k args with
            | None => res = (None, Some ErrKeyNotFoundOrLoadable)
            | Some _ => exists item, res = (Some item, None)
            end
        end
    end.
Proof.
  destruct w as [h t tr]. unfold ptrs_valid. simpl. intros Hm.
  destruct (items t !! k) as [r|] eqn:Hk.
  { destruct (Hm k r Hk) as [it Hr]. do 2 eexists.
    split; [by apply (Value_hit _ _ _ _ _ r it)|done]. }
  destruct (loadData t) as [load|] eqn:Hl.
  2:{ do 2 eexists. split; [by apply Value_miss_no_loader|done]. }
  destruct (load k args) as [loaded|] eqn:Hload.
  2:{ do 2 eexists. split; [by apply (Value_miss_not_loadable _ _ _ _ _ load)|done]. }
  do 2 eexists. split; [by apply (Value_miss_loaded _ _ _ _ _ load loaded)|].
  by eexists.
Qed.

Lemma timestamps_ok_clock_ok now h t tr :
  timestamps_ok now (mkWorld h t tr) -> clock_ok now h (items t).
Proof. intros Hok k p it Hk Hp. apply (Hok k). by exists p. Qed.

(** C1, as the code has it.  When [expirationCheck] runs at [now], the items
    that are deleted are exactly those whose lifespan is not zero and that
    have not been accessed for at least their lifespan (an item with a
    negative lifespan is one of them); every other item stays.  The
    callbacks called are those [Delete] calls for each deleted key, in the
    order of the iteration.  Afterwards the cleanup interval is the least
    remaining lifespan of the items with a positive lifespan and a timer
    runs for it, or the interval is zero and no timer runs when there is no
    such item. *)
Theorem expirationCheck_deletes_due_items (now : Time) (order : list K)
  (w : World) :
  ptrs_valid w ->
  range_order (items (table w)) order ->
  timestamps_ok now w ->
  exists w',
    expirationCheck now order w = Some (tt, w') /\
    heap w' = heap w /\
    (forall k it, stored w k it ->
       lifeSpan it <> 0 -> lifeSpan it <= now - accessedOn it ->
       items (table w') !! k = None) /\
    (forall k it, stored w k it ->
       lifeSpan it = 0 \/ now - accessedOn it < lifeSpan it ->
       items (table w') !! k = items (table w) !! k) /\
    (forall k, items (table w) !! k = None -> items (table w') !! k = None) /\
    filter is_callback (new_events (expirationCheck now order) w)
    = flat_map (fun k => filter is_callback (new_events (Delete k) w))
               (filter (fun k => is_expired now (heap w) (items (table w)) k)
                       order) /\
    scheduler_minimal now w'.
Proof.
  destruct w as [h t tr]. unfold ptrs_valid. simpl.
  intros Hm [Hnd Hcover] Hok.
  pose proof (timestamps_ok_clock_ok _ _ _ _ Hok) as Hclock.
  destruct (expirationCheck_post now order h t tr Hm)
    as (t' & evs & Hrun & _ & Hlook & _ & Hcb & Hsched).
  exists (mkWorld h t' (tr ++ evs)). split; [done|].
  rewrite (new_events_run _ _ _ _ _ _ Hrun). simpl.
  split; [done|]. split; [|split; [|split; [|split]]].
  - intros k it (p & Hk & Hp) Hnz Hdue. simpl in Hk, Hp.
    destruct (Hclock k p it Hk Hp) as [Hl Ha].
    rewrite Hlook. rewrite bool_decide_eq_true_2 by (apply Hcover; eauto).
    unfold is_expired. rewrite Hk, Hp. simpl.
    assert (expired now it = true) as -> by (by apply expired_spec). done.
  - intros k it (p & Hk & Hp) Hkeep. simpl in Hk, Hp.
    destruct (Hclock k p it Hk Hp) as [Hl Ha].
    rewrite Hlook. unfold is_expired. rewrite Hk, Hp.
    destruct (expired now it) eqn:He; [|by rewrite andb_false_r].
    apply expired_spec in He; [|done..]. lia.
  - intros k Hk. rewrite Hlook, Hk.
    by destruct (bool_decide (k ∈ order) && is_expired now h (items t) k).
  - by apply Hcb.
  - apply Hsched; [done|]. intros k. apply Hcover.
Qed.

Lemma addInternal_table_lookup now h order item it t k :
  items (addInternal_table now h order item it t) !! k
  = if check_needed (lifeSpan it) (cleanupInterval t)
       && (bool_decide (k ∈ order)
           && is_expired now h (<[key it := item]> (items t)) k)
    then None else <[key it := item]> (items t) !! k.
Proof.
  unfold addInternal_table.
  destruct (check_needed (lifeSpan it) (cleanupInterval t)); [|done].
  by rewrite expirationCheck_table_lookup.
Qed.

Lemma is_expired_new now h m k item it :
  h !! item = Some it ->
  is_expired now h (<[k := item]> m) k = expired now it.
Proof.
  intros Hit. unfold is_expired. rewrite lookup_insert_eq. simpl. by rewrite Hit.
Qed.

(** C8. [NotFoundAdd] of a key that is present returns false and leaves the
    heap and the table as they were, so the item keeps its data, its
    timestamps and its access count.  [NotFoundAdd] of a key that is absent
    returns true and puts a newly built item into the map.  The lookup and
    the insertion happen between one [Lock] of the table and the next
    [Unlock].  (The check that [addInternal] may run afterwards removes the
    new item at once if it is already due.) *)
Theorem NotFoundAdd_check_then_insert (now1 now2 : Time) (order : list K)
  (k : K) (l : Duration) (d : D) (w : World) :
  ptrs_valid w ->
  (forall p, items (table w) !! k = Some p ->
     NotFoundAdd now1 now2 order k l d w
     = Some (false, mkWorld (heap w) (table w)
                            (trace w ++ [TableLock; MapGet k; TableUnlock])))
  /\
  (items (table w) !! k = None ->
     exists w' evs,
       NotFoundAdd now1 now2 order k l d w = Some (true, w') /\
       heap w' = heap w ++ [new_item now1 k l d] /\
       trace w' = trace w ++ [TableLock; MapGet k;
                              MapSet k (length (heap w)); TableUnlock] ++ evs /\
       (expired now2 (new_item now1 k l d) = false ->
        items (table w') !! k = Some (length (heap w))) /\
       (check_needed l (cleanupInterval (table w)) = false ->
        table w' = set_items (<[k := length (heap w)]> (items (table w)))
                             (table w))).
Proof.
  destruct w as [h t tr]. unfold ptrs_valid. simpl. intros Hm. split.
  - intros p Hk. by apply (NotFoundAdd_present _ _ _ _ _ _ p).
  - intros Hk. do 2 eexists.
    split; [by apply NotFoundAdd_absent|]. simpl.
    split; [done|]. split.
    { unfold addInternal_events. trace_norm. reflexivity. }
    split.
    + intros He. rewrite addInternal_table_lookup. simpl.
      rewrite (is_expired_new _ _ _ _ _ (new_item now1 k l d))
        by apply lookup_new.
      rewrite He, !andb_false_r. apply lookup_insert_eq.
    + intros Hc. unfold addInternal_table. simpl. by rewrite Hc.
Qed.

Lemma SetAboutToExpireCallback_run item f it h t tr :
  h !! item = Some it ->
  SetAboutToExpireCallback item f (mkWorld h t tr)
  = Some (tt, mkWorld (<[item := mkCacheItem (key it) (data it) (lifeSpan it)
                                    (createdOn it) (accessedOn it)
                                    (accessCount it) f]> h)
                      t (tr ++ [ItemLock item; ItemUnlock item])).
Proof.
  intros Hr. unfold SetAboutToExpireCallback, deref. run_M. rewrite Hr. simpl.
  by trace_norm.
Qed.

(** C5, as the code has it.  When the key is absent and the data-loader
    returns an item, [Value] succeeds and adds a new item under the key that
    was asked for, with the lifespan and the data of the loaded item; the
    key of the loaded item is not used.  Unless [Add] runs its check and
    that entry is already due then, the key is present afterwards: the next
    [Value] of the key returns the stored item and does not call the
    data-loader. *)
Theorem Value_loaded_is_cached (now1 now2 : Time) (order : list K) (k : K)
  (args : list A) (w : World) (load : K -> list A -> option CacheItem)
  (loaded : CacheItem) :
  ptrs_valid w ->
  items (table w) !! k = None ->
  loadData (table w) = Some load ->
  load k args = Some loaded ->
  check_needed (lifeSpan loaded) (cleanupInterval (table w)) = false
  \/ expired now2 (new_item now1 k (lifeSpan loaded) (data loaded)) = false ->
  exists w',
    Value now1 now2 order k args w = Some ((Some (length (heap w)), None), w') /\
    heap w' !! length (heap w) = Some loaded /\
    stored w' k (new_item now1 k (lifeSpan loaded) (data loaded)) /\
    forall now3 now4 order' args',
      exists w'',
        Value now3 now4 order' k args' w'
        = Some ((Some (S (length (heap w))), None), w'') /\
        filter is_callback (new_events (Value now3 now4 order' k args') w') = [].
Proof.
  destruct w as [h t tr]. unfold ptrs_valid. simpl.
  intros Hm Hk Hl Hload He.
  eexists. split; [by apply (Value_miss_loaded _ _ _ _ _ load loaded)|].
  set (it := new_item now1 k (lifeSpan loaded) (data loaded)) in *.
  assert (((h ++ [loaded]) ++ [it]) !! S (length h) = Some it) as Hnew.
  { replace (S (length h)) with (length (h ++ [loaded]))
      by (rewrite length_app; simpl; lia).
    apply lookup_new. }
  assert (items (addInternal_table now2 ((h ++ [loaded]) ++ [it]) order
                   (S (length h)) it t) !! k = Some (S (length h))) as Hst.
  { rewrite addInternal_table_lookup. simpl.
    rewrite (is_expired_new _ _ _ _ _ it) by done.
    destruct He as [-> | ->]; [|rewrite !andb_false_r]; apply lookup_insert_eq. }
  simpl. split.
  { rewrite lookup_app_l by (rewrite length_app; simpl; lia). apply lookup_new. }
  split.
  { exists (S (length h)). simpl. done. }
  intros now3 now4 order' args'. eexists.
  split; [by apply (Value_hit _ _ _ _ _ (S (length h)) it)|].
  erewrite new_events_run; [|by apply (Value_hit _ _ _ _ _ (S (length h)) it)].
  by rewrite !filter_cons, filter_nil.
Qed.

Lemma filter_MapSet_opt_call f e :
  (forall c, is_MapSet (e c) = false) ->
  filter is_MapSet (opt_call f e) = [].
Proof.
  intros He. destruct f as [c|]; [|done]. simpl.
  rewrite filter_cons_False; [done|]. rewrite He. intros [].
Qed.

Lemma scan_step_no_MapSet now h f k m d :
  filter is_MapSet (scan_step now h f k m d).2 = [].
Proof.
  unfold scan_step.
  destruct (m !! k) as [p|]; [|done].
  destruct (h !! p) as [it|]; [|done].
  destruct (lifeSpan it =? 0); [done|].
  destruct (lifeSpan it <=? Sub now (accessedOn it)); [|done].
  simpl. unfold deleteInternal_events.
  repeat first [ rewrite filter_app | rewrite filter_MapSet_opt_call by done
               | rewrite filter_cons; simpl | rewrite filter_nil ].
  done.
Qed.

Lemma scan_no_MapSet now h f order : forall m d,
  filter is_MapSet (scan now h f order m d).2 = [].
Proof.
  induction order as [|k0 rest IH]; intros m d; simpl; [done|].
  pose proof (scan_step_no_MapSet now h f k0 m d) as Hs.
  destruct (scan_step now h f k0 m d) as [[m1 d1] e1]. simpl in Hs.
  specialize (IH m1 d1).
  destruct (scan now h f rest m1 d1) as [[m2 d2] e2]. simpl in *.
  by rewrite filter_app, Hs, IH.
Qed.

Lemma addInternal_events_MapSet now h order item it t :
  filter is_MapSet (addInternal_events now h order item it t)
  = [MapSet (key it) item].
Proof.
  unfold addInternal_events.
  rewrite !filter_app, filter_MapSet_opt_call by done.
  rewrite !filter_cons, filter_nil. simpl.
  destruct (check_needed (lifeSpan it) (cleanupInterval t)); [|done].
  unfold expirationCheck_events.
  rewrite !filter_app, scan_no_MapSet.
  by rewrite !filter_cons, !filter_nil.
Qed.

(** C10, as the code has it.  When [Value] is served by the data-loader,
    the pointer it returns is the loader's item, and no key of the table
    maps to it, before or after; the one insertion into the map is that of
    another, newly built item: it has the key that was asked for (not the
    key of the loaded item), the lifespan and the data of the loaded item, the current time as [createdOn] and [accessedOn], an
    [accessCount] of 0 and no [aboutToExpire] callback.  [KeepAlive] and
    [SetAboutToExpireCallback] on the returned item change neither the
    table nor any other item of the heap. *)
Theorem Value_returns_the_loaders_item (now1 now2 : Time) (order : list K)
  (k : K) (args : list A) (w : World)
  (load : K -> list A -> option CacheItem) (loaded : CacheItem) :
  ptrs_valid w ->
  items (table w) !! k = None ->
  loadData (table w) = Some load ->
  load k args = Some loaded ->
  exists w',
    Value now1 now2 order k args w = Some ((Some (length (heap w)), None), w') /\
    heap w'
    = heap w ++ [loaded;
                 {| key := k; data := data loaded; lifeSpan := lifeSpan loaded;
                    createdOn := now1; accessedOn := now1;
                    accessCount := 0; aboutToExpire := None |}] /\
    filter is_MapSet (new_events (Value now1 now2 order k args) w)
    = [MapSet k (S (length (heap w)))] /\
    (forall k', items (table w) !! k' <> Some (length (heap w))) /\
    (forall k', items (table w') !! k' <> Some (length (heap w))) /\
    (items (table w') !! k = Some (S (length (heap w))) \/
     (items (table w') !! k = None /\
      expired now2 (new_item now1 k (lifeSpan loaded) (data loaded)) = true)) /\
    (forall now, exists w'',
        KeepAlive now (length (heap w)) w' = Some (tt, w'') /\
        table w'' = table w' /\
        forall q, q <> length (heap w) -> heap w'' !! q = heap w' !! q) /\
    (forall f, exists w'',
        SetAboutToExpireCallback (length (heap w)) f w' = Some (tt, w'') /\
        table w'' = table w' /\
        forall q, q <> length (heap w) -> heap w'' !! q = heap w' !! q).
Proof.
  destruct w as [h t tr]. unfold ptrs_valid. simpl.
  intros Hm Hk Hl Hload.
  pose proof (Value_miss_loaded now1 now2 order k args load loaded h t tr
                Hk Hl Hload Hm) as Hrun.
  fold (new_item now1 k (lifeSpan loaded) (data loaded)).
  set (it := new_item now1 k (lifeSpan loaded) (data loaded)) in *.
  assert (((h ++ [loaded]) ++ [it]) !! S (length h) = Some it) as Hnew.
  { replace (S (length h)) with (length (h ++ [loaded]))
      by (rewrite length_app; simpl; lia).
    apply lookup_new. }
  assert (((h ++ [loaded]) ++ [it]) !! length h = Some loaded) as Hold.
  { rewrite lookup_app_l by (rewrite length_app; simpl; lia). apply lookup_new. }
  assert (forall k', items t !! k' <> Some (length h)) as Hfresh.
  { intros k' Hk'. destruct (Hm k' _ Hk') as [x Hx].
    apply lookup_lt_Some in Hx. lia. }
  eexists. split; [exact Hrun|].
  rewrite (new_events_run _ _ _ _ _ _ Hrun). simpl.
  split; [by rewrite <- app_assoc|]. split.
  { rewrite !filter_cons. simpl. apply addInternal_events_MapSet. }
  split; [done|]. split.
  { intros k'. rewrite addInternal_table_lookup. simpl.
    destruct (check_needed (lifeSpan loaded) (cleanupInterval t)
              && (bool_decide (k' ∈ order)
                  && is_expired now2 ((h ++ [loaded]) ++ [it])
                       (<[k:=S (length h)]> (items t)) k')); [done|].
    destruct (decide (k = k')) as [<-|Hne].
    - rewrite lookup_insert_eq. intros [=]. lia.
    - rewrite lookup_insert_ne by done. apply Hfresh. }
  split.
  { rewrite addInternal_table_lookup. simpl.
    rewrite (is_expired_new _ _ _ _ _ it) by done.
    rewrite lookup_insert_eq.
    destruct (check_needed (lifeSpan loaded) (cleanupInterval t)
              && (bool_decide (k ∈ order) && expired now2 it)) eqn:Hc.
    - right. split; [done|].
      apply andb_true_iff in Hc as [_ Hc]. by apply andb_true_iff in Hc as [_ Hc].
    - by left. }
  split.
  - intros now. eexists. split; [by apply (KeepAlive_run _ _ loaded)|].
    simpl. split; [done|]. intros q Hq. by apply list_lookup_insert_ne.
  - intros f. eexists.
    split; [by apply (SetAboutToExpireCallback_run _ _ loaded)|].
    simpl. split; [done|]. intros q Hq. by apply list_lookup_insert_ne.
Qed.

(** *** The most accessed items *)

Lemma MostAccessed_pairs_run order : forall h t tr,
  heap_covers h (items t) ->
  MostAccessed_pairs order (mkWorld h t tr)
  = Some (omap (pair_of h (items t)) order, mkWorld h t tr).
Proof.
  induction order as [|k rest IH]; intros h t tr Hm; simpl; [done|].
  unfold bind at 1. unfold get_table at 1. simpl. unfold pair_of at 1.
  destruct (items t !! k) as [v|] eqn:Hk; [|by apply IH].
  destruct (Hm k v Hk) as [it Hv].
  unfold bind at 1. unfold deref at 1. simpl. rewrite Hv.
  unfold bind at 1. by rewrite IH.
Qed.

Lemma MostAccessed_top_take (p : list CacheItemPair) :
  forall c count r h t tr,
    0 <= c -> c + Z.of_nat (length p) <= Int64.max_int64 ->
    MostAccessed_top p c count r (mkWorld h t tr)
    = Some (r ++ omap (fun v => items t !! Key v)
                      (take (Z.to_nat (count - c)) p),
            mkWorld h t
                    (tr ++ ((fun v => MapGet (Key v))
                              <$> take (Z.to_nat (count - c)) p))).
Proof.
  induction p as [|v rest IH]; intros c count r h t tr Hc Hlen; simpl.
  { unfold ret. by rewrite take_nil, !app_nil_r. }
  simpl in Hlen.
  destruct (c >=? count) eqn:Hge.
  - apply Z.geb_le in Hge.
    replace (Z.to_nat (count - c)) with 0%nat by lia. simpl.
    unfold ret. by rewrite !app_nil_r.
  - rewrite Z.geb_leb in Hge. apply Z.leb_gt in Hge.
    assert (Int64.add c 1 = c + 1) as ->.
    { unfold Int64.add. apply wrap_in_range.
      unfold Int64.in_range, Int64.min_int64. unfold Int64.max_int64 in *. lia. }
    replace (Z.to_nat (count - c)) with (S (Z.to_nat (count - (c + 1)))) by lia.
    unfold bind at 1. unfold emit at 1. simpl.
    unfold bind at 1. unfold get_table at 1. simpl.
    rewrite IH by lia. csimpl.
    destruct (items t !! Key v) as [item|]; by trace_norm.
Qed.

Lemma length_omap_le {X Y : Type} (f : X -> option Y) (l : list X) :
  (length (omap f l) <= length l)%nat.
Proof.
  induction l as [|x l IH]; csimpl; [done|].
  destruct (f x); simpl; lia.
Qed.

Lemma MostAccessed_run order count h t tr :
  heap_covers h (items t) ->
  Z.of_nat (length order) <= Int64.max_int64 ->
  MostAccessed order count (mkWorld h t tr)
  = Some (omap (fun v => items t !! Key v)
               (take (Z.to_nat count)
                     (sort_Sort (omap (pair_of h (items t)) order))),
          mkWorld h t
                  (tr ++ [TableRLock]
                      ++ ((fun v => MapGet (Key v))
                            <$> take (Z.to_nat count)
                                  (sort_Sort (omap (pair_of h (items t)) order)))
                      ++ [TableRUnlock])).
Proof.
  intros Hm Hlen. unfold MostAccessed.
  unfold bind at 1. unfold emit at 1. simpl.
  unfold bind at 1. rewrite MostAccessed_pairs_run by done.
  unfold bind at 1. rewrite MostAccessed_top_take.
  - rewrite Z.sub_0_r. run_M. by trace_norm.
  - done.
  - unfold sort_Sort. rewrite merge_sort_Permutation.
    pose proof (length_omap_le (pair_of h (items t)) order). lia.
Qed.

Lemma range_order_length (m : gmap K Ptr) (order : list K) :
  range_order m order -> length order = size m.
Proof.
  intros [Hnd Hel].
  rewrite <- length_map_to_list, <- (length_fmap fst (map_to_list m)).
  apply Permutation_length, NoDup_Permutation.
  - done.
  - apply NoDup_fst_map_to_list.
  - intros k. rewrite Hel, list_elem_of_fmap. split.
    + intros [p Hp]. exists (k, p). split; [done|]. by apply elem_of_map_to_list.
    + intros ([k' p] & -> & Hp). exists p. by apply elem_of_map_to_list.
Qed.

Lemma sorted_before_total : Total (sorted_before (K:=K)).
Proof.
  intros a b. unfold sorted_before, Less.
  rewrite !Z.gtb_ltb, !Z.ltb_ge. lia.
Qed.

Lemma sort_Sort_Sorted (p : list CacheItemPair) :
  Sorted (fun a b => AccessCount b <= AccessCount a) (sort_Sort p).
Proof.
  rewrite <- (list_fmap_id (sort_Sort p)).
  apply (Sorted_fmap id sorted_before).
  - intros a b. unfold sorted_before, Less. simpl.
    rewrite Z.gtb_ltb, Z.ltb_ge. done.
  - apply Sorted_merge_sort, sorted_before_total.
Qed.

Lemma omap_Forall2 {X Y : Type} (f : X -> option Y) (l : list X) :
  (forall x, x ∈ l -> is_Some (f x)) ->
  Forall2 (fun x y => f x = Some y) l (omap f l).
Proof.
  induction l as [|x l IH]; intros Hl; csimpl; [constructor|].
  destruct (Hl x) as [y Hy]; [apply elem_of_cons; by left|].
  rewrite Hy. constructor; [done|].
  apply IH. intros z Hz. apply Hl, elem_of_cons. by right.
Qed.

Lemma omap_pair_of_Key h (m : gmap K Ptr) (order : list K) :
  (forall k, k ∈ order -> is_Some (pair_of h m k)) ->
  Key <$> omap (pair_of h m) order = order.
Proof.
  induction order as [|k rest IH]; intros Hl; csimpl; [done|].
  destruct (Hl k) as [v Hv]; [apply elem_of_cons; by left|].
  rewrite Hv. csimpl. f_equal.
  - unfold pair_of in Hv. destruct (m !! k) as [q|]; [|done].
    destruct (h !! q); [|done]. by injection Hv as <-.
  - apply IH. intros z Hz. apply Hl, elem_of_cons. by right.
Qed.

Lemma stored_functional w k it1 it2 :
  stored w k it1 -> stored w k it2 -> it1 = it2.
Proof. intros (p & Hk & Hp) (q & Hk' & Hq). congruence. Qed.

(** C9. [MostAccessed count] returns the stored items of the first [count]
    entries of a list that holds every key of the table once, each with the
    access count of its item, sorted by descending access count: its length
    is the smaller of [count] and the number of items, and it is empty when
    [count <= 0].  For a table of three items accessed 5, 1 and 3 times,
    [MostAccessed 2] is the item accessed 5 times and then the item accessed
    3 times, in whatever order the map is iterated. *)
Theorem MostAccessed_sorted_top (order : list K) (count : Z) (w : World) :
  ptrs_valid w ->
  range_order (items (table w)) order ->
  Z.of_nat (size (items (table w))) <= Int64.max_int64 ->
  exists (r : list Ptr) (sorted : list CacheItemPair),
    MostAccessed order count w
    = Some (r, mkWorld (heap w) (table w)
                       (trace w ++ [TableRLock]
                          ++ ((fun v => MapGet (Key v))
                                <$> take (Z.to_nat count) sorted)
                          ++ [TableRUnlock])) /\
    Key <$> sorted ≡ₚ order /\
    (forall v, v ∈ sorted ->
       exists it, stored w (Key v) it /\ AccessCount v = accessCount it) /\
    Sorted (fun a b => AccessCount b <= AccessCount a) sorted /\
    Forall2 (fun v p => items (table w) !! Key v = Some p)
            (take (Z.to_nat count) sorted) r /\
    length r = Nat.min (Z.to_nat count) (size (items (table w))) /\
    (count <= 0 -> r = []) /\
    (forall k5 k1 k3 it5 it1 it3,
       count = 2 ->
       stored w k5 it5 -> stored w k1 it1 -> stored w k3 it3 ->
       accessCount it5 = 5 -> accessCount it1 = 1 -> accessCount it3 = 3 ->
       (forall k, is_Some (items (table w) !! k) -> k = k5 \/ k = k1 \/ k = k3) ->
       exists p5 p3,
         items (table w) !! k5 = Some p5 /\
         items (table w) !! k3 = Some p3 /\
         r = [p5; p3]).
Proof.
  destruct w as [h t tr]. unfold ptrs_valid. simpl.
  intros Hm Horder Hsize.
  pose proof (range_order_length _ _ Horder) as Hlen.
  destruct Horder as [Hnd Hel].
  assert (forall k, k ∈ order -> is_Some (pair_of h (items t) k)) as Hpairs.
  { intros k Hk. apply Hel in Hk as [q Hq]. destruct (Hm k q Hq) as [it Hit].
    unfold pair_of. rewrite Hq, Hit. eauto. }
  set (pairs := omap (pair_of h (items t)) order).
  set (sorted := sort_Sort pairs).
  assert (sorted ≡ₚ pairs) as Hperm by apply merge_sort_Permutation.
  assert (forall v, v ∈ sorted ->
            exists it, stored (mkWorld h t tr) (Key v) it /\
                       AccessCount v = accessCount it) as Hsrc.
  { intros v Hv. rewrite Hperm in Hv.
    apply list_elem_of_omap in Hv as (k & Hk & Hv).
    unfold pair_of in Hv. destruct (items t !! k) as [q|] eqn:Hq; [|done].
    destruct (h !! q) as [it|] eqn:Hit; [|done]. injection Hv as <-.
    exists it. split; [|done]. exists q. done. }
  assert (forall v, v ∈ take (Z.to_nat count) sorted ->
            is_Some (items t !! Key v)) as Htake.
  { intros v Hv. apply elem_of_take in Hv as (i & Hv & _).
    apply list_elem_of_lookup_2 in Hv.
    destruct (Hsrc v Hv) as (it & (q & Hq & _) & _). eauto. }
  assert (length sorted = size (items t)) as Hlens.
  { rewrite Hperm, <- Hlen.
    rewrite <- (length_fmap Key pairs). unfold pairs.
    by rewrite omap_pair_of_Key. }
  pose proof (omap_Forall2 (fun v => items t !! Key v) _ Htake) as Hr.
  exists (omap (fun v => items t !! Key v) (take (Z.to_nat count) sorted)), sorted.
  split; [apply MostAccessed_run; [done|lia]|].
  split; [by rewrite Hperm; unfold pairs; rewrite omap_pair_of_Key|].
  split; [done|]. split; [apply sort_Sort_Sorted|]. split; [done|].
  split.
  { rewrite <- (Forall2_length _ _ _ Hr), length_take, Hlens. done. }
  split.
  { intros Hc. replace (Z.to_nat count) with 0%nat by lia. done. }
  intros k5 k1 k3 it5 it1 it3 -> H5 H1 H3 Hc5 Hc1 Hc3 Hall.
  assert (forall v, v ∈ sorted ->
            (Key v = k5 /\ AccessCount v = 5) \/
            (Key v = k1 /\ AccessCount v = 1) \/
            (Key v = k3 /\ AccessCount v = 3)) as Hcase.
  { intros v Hv. destruct (Hsrc v Hv) as (it & Hst & Hcount).
    destruct (Hall (Key v)) as [Hk|[Hk|Hk]].
    - destruct Hst as (q & Hq & _). simpl in Hq. eauto.
    - left. rewrite Hk in Hst. rewrite Hcount.
      by rewrite (stored_functional _ _ _ _ Hst H5).
    - right; left. rewrite Hk in Hst. rewrite Hcount.
      by rewrite (stored_functional _ _ _ _ Hst H1).
    - right; right. rewrite Hk in Hst. rewrite Hcount.
      by rewrite (stored_functional _ _ _ _ Hst H3). }
  assert (k5 <> k1 /\ k5 <> k3 /\ k1 <> k3) as (N51 & N53 & N13).
  { repeat split; intros ->.
    - pose proof (stored_functional _ _ _ _ H5 H1). subst. lia.
    - pose proof (stored_functional _ _ _ _ H5 H3). subst. lia.
    - pose proof (stored_functional _ _ _ _ H1 H3). subst. lia. }
  assert (order ≡ₚ [k5; k1; k3]) as Hord.
  { apply NoDup_Permutation; [done| |].
    - repeat constructor; rewrite ?elem_of_cons, ?elem_of_nil; intuition.
    - intros k. rewrite Hel, !elem_of_cons, elem_of_nil. split.
      + intros Hk. destruct (Hall k Hk) as [?|[?|?]]; auto.
      + destruct H5 as (q5 & Hq5 & _), H1 as (q1 & Hq1 & _), H3 as (q3 & Hq3 & _).
        simpl in *. intros [->|[->|[->|[]]]]; eauto. }
  assert (Key <$> sorted ≡ₚ [k5; k1; k3]) as Hkeys.
  { rewrite Hperm. unfold pairs. by rewrite omap_pair_of_Key. }
  pose proof (Permutation_length Hkeys) as Hl3.
  rewrite length_fmap in Hl3. simpl in Hl3.
  pose proof (sort_Sort_Sorted pairs) as Hsorted. fold sorted in Hsorted.
  assert (NoDup (Key <$> sorted)) as Hndk.
  { rewrite Hkeys. repeat constructor; rewrite ?elem_of_cons, ?elem_of_nil; intuition. }
  clearbody sorted. clear Hperm Htake Hlens Hkeys.
  destruct sorted as [|a [|b [|c [|]]]]; simpl in Hl3; try lia.
  apply Sorted_inv in Hsorted as [Hsorted Hab]. apply HdRel_inv in Hab.
  apply Sorted_inv in Hsorted as [_ Hbc]. apply HdRel_inv in Hbc.
  csimpl in Hndk.
  apply NoDup_cons in Hndk as [Nab Hndk]. apply NoDup_cons in Hndk as [Nbc _].
  rewrite !elem_of_cons, elem_of_nil in Nab.
  rewrite !elem_of_cons, elem_of_nil in Nbc.
  destruct (Hcase a) as [[Ka Ca]|[[Ka Ca]|[Ka Ca]]];
    [rewrite !elem_of_cons; auto|..];
  destruct (Hcase b) as [[Kb Cb]|[[Kb Cb]|[Kb Cb]]];
    try (rewrite !elem_of_cons; auto; fail);
  destruct (Hcase c) as [[Kc Cc]|[[Kc Cc]|[Kc Cc]]];
    try (rewrite !elem_of_cons; auto; fail);
  try lia; try (exfalso; apply Nab; left; congruence);
  try (exfalso; apply Nab; right; left; congruence);
  try (exfalso; apply Nbc; left; congruence).
  replace (Z.to_nat 2) with 2%nat in * by lia. csimpl in Hr. csimpl.
  destruct H5 as (p5 & Hp5 & _), H3 as (p3 & Hp3 & _). simpl in Hp5, Hp3.
  exists p5, p3. split; [done|]. split; [done|].
  by rewrite Ka, Kb, Hp5, Hp3.
Qed.

(** *** The scheduler across the operations *)

Lemma clock_ok_new now1 now2 h (m : gmap K Ptr) k l d :
  heap_covers h m -> clock_ok now2 h m ->
  Int64.in_range l -> now1 <= now2 ->
  clock_ok now2 (h ++ [new_item now1 k l d]) (<[k := length h]> m).
Proof.
  intros Hm Hok Hl Hnow k' q it Hk' Hq.
  destruct (decide (k = k')) as [<-|Hne].
  - rewrite lookup_insert_eq in Hk'. injection Hk' as <-.
    rewrite lookup_new in Hq. injection Hq as <-. done.
  - rewrite lookup_insert_ne in Hk' by done.
    destruct (Hm k' q Hk') as [it' Hit'].
    rewrite (lookup_app_l_Some _ _ _ _ Hit') in Hq. injection Hq as <-.
    by apply (Hok k' q).
Qed.

Lemma Add_scheduler now1 now2 order k l d h t tr :
  heap_covers h (items t) ->
  exists t' evs,
    Add now1 now2 order k l d (mkWorld h t tr)
    = Some (length h, mkWorld (h ++ [new_item now1 k l d]) t' (tr ++ evs)) /\
    (check_needed l (cleanupInterval t) = true ->
     range_order (<[k := length h]> (items t)) order ->
     clock_ok now2 h (items t) -> Int64.in_range l -> now1 <= now2 ->
     scheduler_minimal now2 (mkWorld (h ++ [new_item now1 k l d]) t' (tr ++ evs))) /\
    (check_needed l (cleanupInterval t) = false ->
     cleanupInterval t' = cleanupInterval t /\ cleanupTimer t' = cleanupTimer t).
Proof.
  intros Hm. do 2 eexists. split; [by apply Add_run|].
  unfold addInternal_table. simpl. split.
  - intros -> [_ Hcover] Hok Hl Hnow.
    apply expirationCheck_table_scheduler.
    + simpl. by apply clock_ok_new.
    + simpl. intros k'. apply Hcover.
  - by intros ->.
Qed.

(** C3, as the code has it.  The cleanup interval is the least remaining
    lifespan of the items with a positive lifespan, with a timer running
    for it (or zero, with no timer running, when there is no such item),
    right after an expiration check at the time of the check, be it run by
    the timer or by [Add] or [NotFoundAdd] for a new item with a positive
    lifespan that is smaller than the interval or that finds no interval
    set, and after [Flush].  An [Add] or [NotFoundAdd] that runs no check, a
    [Value] that finds the key and [Delete] leave the interval and the
    timer as they are, whatever they do to the items. *)
Theorem scheduler_set_by_check_and_Flush (w : World) :
  ptrs_valid w ->
  (forall now order,
     range_order (items (table w)) order -> timestamps_ok now w ->
     exists w', expirationCheck now order w = Some (tt, w') /\
                scheduler_minimal now w')
  /\
  (forall now, exists w', Flush w = Some (tt, w') /\ scheduler_minimal now w')
  /\
  (forall now1 now2 order k l d,
     exists w',
       Add now1 now2 order k l d w = Some (length (heap w), w') /\
       (check_needed l (cleanupInterval (table w)) = true ->
        range_order (<[k := length (heap w)]> (items (table w))) order ->
        timestamps_ok now2 w -> Int64.in_range l -> now1 <= now2 ->
        scheduler_minimal now2 w') /\
       (check_needed l (cleanupInterval (table w)) = false ->
        cleanupInterval (table w') = cleanupInterval (table w) /\
        cleanupTimer (table w') = cleanupTimer (table w)))
  /\
  (forall now1 now2 order k l d,
     exists b w',
       NotFoundAdd now1 now2 order k l d w = Some (b, w') /\
       (items (table w) !! k = None ->
        check_needed l (cleanupInterval (table w)) = true ->
        range_order (<[k := length (heap w)]> (items (table w))) order ->
        timestamps_ok now2 w -> Int64.in_range l -> now1 <= now2 ->
        scheduler_minimal now2 w') /\
       (is_Some (items (table w) !! k)
        \/ check_needed l (cleanupInterval (table w)) = false ->
        cleanupInterval (table w') = cleanupInterval (table w) /\
        cleanupTimer (table w') = cleanupTimer (table w)))
  /\
  (forall now1 now2 order k args r,
     items (table w) !! k = Some r ->
     exists w',
       Value now1 now2 order k args w = Some ((Some r, None), w') /\
       cleanupInterval (table w') = cleanupInterval (table w) /\
       cleanupTimer (table w') = cleanupTimer (table w))
  /\
  (forall k,
     exists res w',
       Delete k w = Some (res, w') /\
       cleanupInterval (table w') = cleanupInterval (table w) /\
       cleanupTimer (table w') = cleanupTimer (table w)).
Proof.
  destruct w as [h t tr]. unfold ptrs_valid. simpl. intros Hm.
  split; [|split; [|split; [|split; [|split]]]].
  - intros now order [_ Hcover] Hok.
    destruct (expirationCheck_post now order h t tr Hm)
      as (t' & evs & Hrun & _ & _ & _ & _ & Hsched).
    eexists. split; [exact Hrun|].
    apply Hsched; [by apply (timestamps_ok_clock_ok _ _ _ tr)|].
    intros k. apply Hcover.
  - intros now. eexists. split; [apply Flush_run|].
    left. split.
    + intros (k & it & (p & Hk & _) & _). simpl in Hk.
      by rewrite lookup_empty in Hk.
    + split; [done|]. simpl. by destruct (cleanupTimer t).
  - intros now1 now2 order k l d.
    destruct (Add_scheduler now1 now2 order k l d h t tr Hm)
      as (t' & evs & Hrun & Hyes & Hno).
    eexists. split; [exact Hrun|]. simpl. split; [|done].
    intros Hc Hord Hok Hl Hnow.
    apply Hyes; [done..|by apply (timestamps_ok_clock_ok _ _ _ tr)|done|done].
  - intros now1 now2 order k l d.
    destruct (items t !! k) as [p|] eqn:Hk.
    + do 2 eexists. split; [by apply (NotFoundAdd_present _ _ _ _ _ _ p)|].
      simpl. split; [done|]. done.
    + do 2 eexists. split; [by apply NotFoundAdd_absent|].
      unfold addInternal_table. simpl. split.
      * intros _ -> [_ Hcover] Hok Hl Hnow.
        apply expirationCheck_table_scheduler.
        -- simpl. apply clock_ok_new; [done| |done|done].
           by apply (timestamps_ok_clock_ok _ _ _ tr).
        -- simpl. intros k'. apply Hcover.
      * intros [[? [=]]| ->]. done.
  - intros now1 now2 order k args r Hk.
    destruct (Hm k r Hk) as [it Hr].
    eexists. split; [by apply (Value_hit _ _ _ _ _ r it)|]. done.
  - intros k. destruct (items t !! k) as [r|] eqn:Hk.
    + destruct (Hm k r Hk) as [it Hr].
      do 2 eexists. split; [by apply (Delete_present k r it)|]. done.
    + do 2 eexists. split; [by apply Delete_absent|]. done.
Qed.

(** ** What every operation keeps *)

Lemma addInternal_table_covers now h order item it t :
  heap_covers h (items t) -> is_Some (h !! item) ->
  heap_covers h (items (addInternal_table now h order item it t)).
Proof.
  intros Hm Hit. unfold addInternal_table.
  destruct (check_needed (lifeSpan it) (cleanupInterval t)).
  - apply expirationCheck_table_covers. simpl. by apply heap_covers_insert.
  - simpl. by apply heap_covers_insert.
Qed.

Lemma heap_kept_refl h : heap_kept h h.
Proof. intros p it Hp. by exists it. Qed.

Lemma heap_kept_app h (l : list CacheItem) : heap_kept h (h ++ l).
Proof.
  intros p it Hp. exists it. split; [by apply lookup_app_l_Some|done].
Qed.

Lemma heap_kept_insert h p it it' :
  h !! p = Some it -> same_fixed_fields it it' -> heap_kept h (<[p := it']> h).
Proof.
  intros Hp Hsame q x Hq. destruct (decide (q = p)) as [->|Hne].
  - exists it'. rewrite list_lookup_insert_eq by by eapply lookup_lt_Some.
    by simplify_eq.
  - exists x. by rewrite list_lookup_insert_ne.
Qed.

Lemma heap_covers_kept h h' m : heap_covers h m -> heap_kept h h' -> heap_covers h' m.
Proof.
  intros Hm Hk k p Hp. destruct (Hm k p Hp) as [it Hit].
  destruct (Hk p it Hit) as (it' & Hit' & _). by exists it'.
Qed.

(** X2. On a world whose table points into the heap every operation returns;
    the table still points into the heap afterwards, and every item made
    before is still in the heap with the key, the data, the lifespan and the
    time of creation it was made with: the fields that [Key], [Data],
    [LifeSpan] and [CreatedOn] read without a lock. *)
Theorem operations_keep_the_items (w : World) :
  ptrs_valid w ->
  (forall now1 now2 order k l d, exists item w',
     Add now1 now2 order k l d w = Some (item, w') /\
     ptrs_valid w' /\ heap_kept (heap w) (heap w'))
  /\
  (forall now1 now2 order k l d, exists b w',
     NotFoundAdd now1 now2 order k l d w = Some (b, w') /\
     ptrs_valid w' /\ heap_kept (heap w) (heap w'))
  /\
  (forall now1 now2 order k args, exists res w',
     Value now1 now2 order k args w = Some (res, w') /\
     ptrs_valid w' /\ heap_kept (heap w) (heap w'))
  /\
  (forall k, exists res w',
     Delete k w = Some (res, w') /\
     ptrs_valid w' /\ heap_kept (heap w) (heap w'))
  /\
  (forall now order, exists w',
     expirationCheck now order w = Some (tt, w') /\
     ptrs_valid w' /\ heap_kept (heap w) (heap w'))
  /\
  (exists w',
     Flush w = Some (tt, w') /\
     ptrs_valid w' /\ heap_kept (heap w) (heap w'))
  /\
  (forall now item, is_Some (heap w !! item) -> exists w',
     KeepAlive now item w = Some (tt, w') /\
     ptrs_valid w' /\ heap_kept (heap w) (heap w'))
  /\
  (forall item f, is_Some (heap w !! item) -> exists w',
     SetAboutToExpireCallback item f w = Some (tt, w') /\
     ptrs_valid w' /\ heap_kept (heap w) (heap w')).
Proof.
  destruct w as [h t tr]. unfold ptrs_valid. simpl. intros Hm.
  assert (forall it, (h ++ [it]) !! length h = Some it) as Hnew
    by (intros it; apply lookup_new).
  repeat apply conj.
  - intros now1 now2 order k l d. do 2 eexists.
    split; [by apply Add_run|]. simpl. split; [|apply heap_kept_app].
    apply addInternal_table_covers; [by apply heap_covers_app|by rewrite Hnew].
  - intros now1 now2 order k l d. destruct (items t !! k) as [p|] eqn:Hk.
    + do 2 eexists. split; [by eapply NotFoundAdd_present|]. simpl.
      split; [done|apply heap_kept_refl].
    + do 2 eexists. split; [by apply NotFoundAdd_absent|]. simpl.
      split; [|apply heap_kept_app].
      apply addInternal_table_covers; [by apply heap_covers_app|by rewrite Hnew].
  - intros now1 now2 order k args. destruct (items t !! k) as [r|] eqn:Hk.
    + destruct (Hm k r Hk) as [it Hr].
      assert (heap_kept h (<[r := kept_alive now1 it]> h)) as Hkept
        by (by apply (heap_kept_insert _ _ it)).
      do 2 eexists. split; [by eapply Value_hit|]. simpl.
      split; [by apply (heap_covers_kept h)|done].
    + destruct (loadData t) as [load|] eqn:Hl.
      * destruct (load k args) as [loaded|] eqn:Hload.
        -- do 2 eexists. split; [by eapply Value_miss_loaded|]. simpl.
           split.
           ++ apply addInternal_table_covers.
              ** by do 2 apply heap_covers_app.
              ** replace (S (length h)) with (length (h ++ [loaded]))
                   by (rewrite length_app; simpl; lia).
                 by rewrite lookup_new.
           ++ rewrite <- app_assoc. apply heap_kept_app.
        -- do 2 eexists. split; [by eapply Value_miss_not_loadable|]. simpl.
           split; [done|apply heap_kept_refl].
      * do 2 eexists. split; [by apply Value_miss_no_loader|]. simpl.
        split; [done|apply heap_kept_refl].
  - intros k. destruct (items t !! k) as [r|] eqn:Hk.
    + destruct (Hm k r Hk) as [it Hr].
      do 2 eexists. split; [by apply Delete_present|]. simpl.
      split; [by apply heap_covers_delete|apply heap_kept_refl].
    + do 2 eexists. split; [by apply Delete_absent|]. simpl.
      split; [done|apply heap_kept_refl].
  - intros now order. eexists.
    split; [by apply expirationCheck_run|]. simpl.
    split; [by apply expirationCheck_table_covers|apply heap_kept_refl].
  - eexists. split; [apply Flush_run|]. simpl.
    split; [apply map_Forall_empty|apply heap_kept_refl].
  - intros now item [it Hit].
    assert (heap_kept h (<[item := kept_alive now it]> h)) as Hkept
      by (by apply (heap_kept_insert _ _ it)).
    eexists. split; [by apply KeepAlive_run|]. simpl.
    split; [by apply (heap_covers_kept h)|done].
  - intros item f [it Hit].
    assert (heap_kept h (<[item := mkCacheItem (key it) (data it) (lifeSpan it)
                                      (createdOn it) (accessedOn it)
                                      (accessCount it) f]> h)) as Hkept
      by (by apply (heap_kept_insert _ _ it)).
    eexists. split; [by apply SetAboutToExpireCallback_run|]. simpl.
    split; [by apply (heap_covers_kept h)|done].
Qed.

(** ** Adding, looking up, deleting *)

(** X3. The item that has just been added is the one a lookup finds: unless
    the check that [Add] runs finds it due already, [Exists] answers true, and
    every [Value] of the key returns the very pointer that [Add] returned and
    counts as an access to that item. *)
Theorem Add_then_lookup (now1 now2 : Time) (order : list K) (k : K)
  (l : Duration) (d : D) (w : World) :
  ptrs_valid w ->
  check_needed l (cleanupInterval (table w)) = false
  \/ expired now2 (new_item now1 k l d) = false ->
  exists item w',
    Add now1 now2 order k l d w = Some (item, w') /\
    items (table w') !! k = Some item /\
    heap w' !! item = Some (new_item now1 k l d) /\
    (exists w'', Exists k w' = Some (true, w'')) /\
    forall now3 now4 order' args, exists w'',
      Value now3 now4 order' k args w' = Some ((Some item, None), w'') /\
      heap w'' !! item = Some (kept_alive now3 (new_item now1 k l d)).
Proof.
  destruct w as [h t tr]. unfold ptrs_valid. simpl. intros Hm He.
  set (it := new_item now1 k l d) in *.
  assert ((h ++ [it]) !! length h = Some it) as Hnew by apply lookup_new.
  assert (items (addInternal_table now2 (h ++ [it]) order (length h) it t) !! k
          = Some (length h)) as Hst.
  { rewrite addInternal_table_lookup. simpl.
    rewrite (is_expired_new _ _ _ _ _ it) by done.
    destruct He as [-> | ->]; [|rewrite !andb_false_r]; apply lookup_insert_eq. }
  subst it.
  do 2 eexists. split; [by apply Add_run|]. simpl.
  split; [done|]. split; [done|]. split.
  - eexists. rewrite Exists_run. simpl. rewrite Hst.
    by rewrite bool_decide_eq_true_2.
  - intros now3 now4 order' args. eexists.
    split; [by apply (Value_hit _ _ _ _ _ (length h) (new_item now1 k l d))|].
    simpl. apply list_lookup_insert_eq. by eapply lookup_lt_Some.
Qed.

(** X4. The accessors of the item that [Add] returns report what [Add] was
    given, the time at which the item was made, and no access, whatever the
    check that [Add] runs does to the table. After a [Value] of the key at
    [now3] they report one access, at [now3]; the key, the data, the lifespan
    and the time of creation read the same. *)
Theorem accessors_after_Add_and_Value (now1 now2 : Time) (order : list K)
  (k : K) (l : Duration) (d : D) (w : World) :
  ptrs_valid w ->
  exists item w',
    Add now1 now2 order k l d w = Some (item, w') /\
    CacheItem_Key item w' = Some (k, w') /\
    CacheItem_Data item w' = Some (d, w') /\
    CacheItem_LifeSpan item w' = Some (l, w') /\
    CacheItem_CreatedOn item w' = Some (now1, w') /\
    fst <$> CacheItem_AccessedOn item w' = Some now1 /\
    fst <$> CacheItem_AccessCount item w' = Some 0 /\
    forall now3 now4 order' args w'',
      Value now3 now4 order' k args w' = Some ((Some item, None), w'') ->
      CacheItem_Key item w'' = Some (k, w'') /\
      CacheItem_Data item w'' = Some (d, w'') /\
      CacheItem_LifeSpan item w'' = Some (l, w'') /\
      CacheItem_CreatedOn item w'' = Some (now1, w'') /\
      fst <$> CacheItem_AccessedOn item w'' = Some now3 /\
      fst <$> CacheItem_AccessCount item w'' = Some 1.
Proof.
  destruct w as [h t tr]. unfold ptrs_valid. simpl. intros Hm.
  set (it := new_item now1 k l d).
  assert ((h ++ [it]) !! length h = Some it) as Hnew by apply lookup_new.
  do 2 eexists. split; [by apply Add_run|].
  unfold CacheItem_Key, CacheItem_Data, CacheItem_LifeSpan, CacheItem_CreatedOn,
    CacheItem_AccessedOn, CacheItem_AccessCount.
  unfold bind, deref, emit, ret. simpl. fold it. rewrite Hnew. simpl.
  do 6 (split; [done|]).
  intros now3 now4 order' args w''.
  set (t' := addInternal_table now2 (h ++ [it]) order (length h) it t).
  set (tr' := (tr ++ _)%list).
  assert (heap_covers (h ++ [it]) (items t')) as Hcov.
  { apply addInternal_table_covers; [by apply heap_covers_app|by rewrite Hnew]. }
  destruct (items t' !! k) as [r|] eqn:Hk.
  - destruct (Hcov k r Hk) as [x Hx].
    rewrite (Value_hit _ _ _ _ _ r x) by done.
    intros [= -> <-]. rewrite Hnew in Hx. injection Hx as <-.
    simpl. rewrite list_lookup_insert_eq by by eapply lookup_lt_Some. done.
  - destruct (loadData t') as [load|] eqn:Hl.
    + destruct (load k args) as [loaded|] eqn:Hload.
      * rewrite (Value_miss_loaded _ _ _ _ _ load loaded) by done.
        intros [= Hlen]. rewrite length_app in Hlen. simpl in Hlen. lia.
      * by rewrite (Value_miss_not_loadable _ _ _ _ _ load).
    + by rewrite Value_miss_no_loader.
Qed.

(** *** The callbacks of a check *)

(** A callback that the loop of the check calls is one of the two callbacks
    of the deletion of an item that is due. *)
Lemma scan_step_callback_inv now h f k m d (ev : Event) :
  ev ∈ (scan_step now h f k m d).2 -> is_callback ev = true ->
  exists p it,
    m !! k = Some p /\ h !! p = Some it /\ expired now it = true /\
    ((exists c, f = Some c /\ ev = CallAboutToDeleteItem c p) \/
     (exists c, aboutToExpire it = Some c /\ ev = CallAboutToExpire c k)).
Proof.
  unfold scan_step, expired.
  destruct (m !! k) as [p|] eqn:Hk; [|by rewrite elem_of_nil].
  destruct (h !! p) as [it|] eqn:Hp; [|by rewrite elem_of_nil].
  assert (forall l : list Event,
            ev ∈ [ItemRLock p; ItemRUnlock p] ++ l -> is_callback ev = true ->
            ev ∈ l) as Hskip.
  { intros l. rewrite !elem_of_app, !elem_of_cons, elem_of_nil.
    intros [[->|[->|[]]]|Hl] Hc; simpl in Hc; done. }
  destruct (lifeSpan it =? 0) eqn:Hz.
  { intros Hev Hc. apply (Hskip []) in Hev; [|done]. by apply elem_of_nil in Hev. }
  destruct (lifeSpan it <=? Sub now (accessedOn it)) eqn:Hd.
  2:{ intros Hev Hc. apply (Hskip []) in Hev; [|done]. by apply elem_of_nil in Hev. }
  cbn [snd]. intros Hev Hc. apply Hskip in Hev; [|done].
  exists p, it. do 2 (split; [done|]). split; [by rewrite Hz, Hd|].
  unfold deleteInternal_events, opt_call in Hev.
  rewrite !elem_of_app, !elem_of_cons, elem_of_nil in Hev.
  destruct Hev as [[->|[->|[]]]|[Hev|[[->|[]]|[Hev|Hev]]]]; try done.
  - left. destruct f as [c|]; [|by apply elem_of_nil in Hev].
    apply list_elem_of_singleton in Hev. eauto.
  - right. destruct (aboutToExpire it) as [c|]; [|by apply elem_of_nil in Hev].
    apply list_elem_of_singleton in Hev. eauto.
  - destruct Hev as [->|[->|[->|[->|[->|[]]]]]]; done.
Qed.

Lemma scan_callback_inv now h f order (ev : Event) : forall m d,
  ev ∈ (scan now h f order m d).2 -> is_callback ev = true ->
  exists k p it,
    k ∈ order /\ m !! k = Some p /\ h !! p = Some it /\ expired now it = true /\
    ((exists c, f = Some c /\ ev = CallAboutToDeleteItem c p) \/
     (exists c, aboutToExpire it = Some c /\ ev = CallAboutToExpire c k)).
Proof.
  induction order as [|k order IH]; intros m d; simpl.
  { by rewrite elem_of_nil. }
  pose proof (scan_step_callback_inv now h f k m d ev) as Hs.
  assert ((scan_step now h f k m d).1.1
          = if is_expired now h m k then delete k m else m) as Hm1
    by apply scan_step_map.
  destruct (scan_step now h f k m d) as [[m1 d1] e1].
  specialize (IH m1 d1).
  destruct (scan now h f order m1 d1) as [[m2 d2] e2]. simpl in *.
  rewrite elem_of_app. intros [Hev|Hev] Hc.
  - destruct (Hs Hev Hc) as (p & it & Hrest).
    exists k, p, it. split; [apply elem_of_cons; by left|done].
  - destruct (IH Hev Hc) as (k' & p & it & Hk' & Hlook & Hrest).
    exists k', p, it. split; [apply elem_of_cons; by right|].
    split; [|done]. subst m1.
    destruct (is_expired now h m k); [|done].
    apply lookup_delete_Some in Hlook as [_ Hlook]. done.
Qed.

(** The callbacks among the events of [addInternal]: the [addedItem]
    callback for the new item, and then those of the check. *)
Lemma addInternal_events_callback_inv now h order item it t (ev : Event) :
  ev ∈ addInternal_events now h order item it t -> is_callback ev = true ->
  (exists c, addedItem t = Some c /\ ev = CallAddedItem c item) \/
  (exists k p x,
     <[key it := item]> (items t) !! k = Some p /\ h !! p = Some x /\
     expired now x = true /\
     ((exists c, aboutToDeleteItem t = Some c /\ ev = CallAboutToDeleteItem c p) \/
      (exists c, aboutToExpire x = Some c /\ ev = CallAboutToExpire c k))).
Proof.
  unfold addInternal_events.
  rewrite !elem_of_app, !elem_of_cons, elem_of_nil.
  intros [[->|[->|[]]]|[Hev|Hev]] Hc; try done.
  - left. unfold opt_call in Hev.
    destruct (addedItem t) as [c|]; [|by apply elem_of_nil in Hev].
    apply list_elem_of_singleton in Hev. eauto.
  - right. destruct (check_needed _ _); [|by apply elem_of_nil in Hev].
    unfold expirationCheck_events in Hev.
    rewrite !elem_of_app, !elem_of_cons, elem_of_nil in Hev.
    destruct Hev as [[->|[]]|[Hev|[->|[]]]]; try done.
    destruct (scan_callback_inv _ _ _ _ _ _ _ Hev Hc)
      as (k & p & x & _ & Hrest).
    exists k, p, x. done.
Qed.

(** ** Adding over an item, deleting, adding when absent *)

(** X5. [Add] of a key that is present puts the new item in the place of the
    old one and tells nobody: neither the table's [aboutToDeleteItem] callback
    is called for the old item nor any [aboutToExpire] callback for the key,
    also when [Add] runs a check. The old item stays in the heap as it was,
    for those who hold it, but the table no longer leads to it. When [Add]
    runs no check the number of items is the same as before. *)
Theorem Add_replaces_without_callbacks (now1 now2 : Time) (order : list K)
  (k : K) (l : Duration) (d : D) (w : World) (q : Ptr) :
  ptrs_valid w ->
  items (table w) !! k = Some q ->
  (forall k', items (table w) !! k' = Some q -> k' = k) ->
  exists item w' evs,
    Add now1 now2 order k l d w = Some (item, w') /\
    trace w' = trace w ++ evs /\
    item <> q /\
    heap w' !! item = Some (new_item now1 k l d) /\
    heap w' !! q = heap w !! q /\
    (forall k', items (table w') !! k' <> Some q) /\
    (items (table w') !! k = Some item \/
     (items (table w') !! k = None /\ expired now2 (new_item now1 k l d) = true)) /\
    (forall c, CallAboutToDeleteItem c q ∉ evs) /\
    (forall c, CallAboutToExpire c k ∉ evs) /\
    (check_needed l (cleanupInterval (table w)) = false ->
     fst <$> Count w' = fst <$> Count w).
Proof.
  destruct w as [h t tr]. unfold ptrs_valid. simpl. intros Hm Hq Hone.
  destruct (Hm k q Hq) as [old Hold].
  pose proof (lookup_lt_Some _ _ _ Hold) as Hlt.
  set (it := new_item now1 k l d).
  assert ((h ++ [it]) !! length h = Some it) as Hnew by apply lookup_new.
  assert (forall k', <[k := length h]> (items t) !! k' <> Some q) as Hgone.
  { intros k'. destruct (decide (k' = k)) as [->|Hne].
    - rewrite lookup_insert_eq. intros [= ?]. lia.
    - rewrite lookup_insert_ne by done. intros Hk'. by apply Hone in Hk'. }
  do 3 eexists. split; [by apply Add_run|]. simpl. fold it.
  split; [done|]. split; [lia|]. split; [done|].
  split; [by apply lookup_app_l|].
  split.
  { intros k'. rewrite addInternal_table_lookup. simpl.
    destruct (_ && _); [done|apply Hgone]. }
  split.
  { rewrite addInternal_table_lookup. simpl.
    rewrite (is_expired_new _ _ _ _ _ it) by done.
    destruct (expired now2 it).
    - destruct (check_needed _ _ && _) eqn:Hc; [by right|left; apply lookup_insert_eq].
    - left. rewrite !andb_false_r. apply lookup_insert_eq. }
  split.
  { intros c Hev. apply elem_of_cons in Hev as [?|Hev]; [done|].
    apply addInternal_events_callback_inv in Hev as [(c' & _ & ?)|Hev]; [done| |done].
    destruct Hev as (k' & p & x & Hk' & _ & _ & [(c' & _ & [= _ ->])|(c' & _ & ?)]);
      [|done].
    by apply Hgone in Hk'. }
  split.
  { intros c Hev. apply elem_of_cons in Hev as [?|Hev]; [done|].
    apply addInternal_events_callback_inv in Hev as [(c' & _ & ?)|Hev]; [done| |done].
    destruct Hev as (k' & p & x & Hk' & Hp & _ & [(c' & _ & ?)|(c' & Hc' & [= _ ->])]);
      [done|].
    simpl in Hk'. rewrite lookup_insert_eq in Hk'. injection Hk' as <-.
    rewrite Hnew in Hp. injection Hp as <-. done. }
  intros Hc. unfold addInternal_table. simpl.
  rewrite Hc. simpl. by rewrite map_size_insert_Some.
Qed.

(** X6. After [Delete] has removed a key, the key is absent: [Exists] answers
    false, [Count] is one less, and a second [Delete] fails with
    [ErrKeyNotFound] and calls no callback. The other keys are where they
    were, and the item that was removed is still in the heap, as it was. *)
Theorem Delete_then_absent (k : K) (w : World) (r : Ptr) :
  ptrs_valid w ->
  items (table w) !! k = Some r ->
  exists w',
    Delete k w = Some ((Some r, None), w') /\
    heap w' = heap w /\
    (forall k', k' <> k -> items (table w') !! k' = items (table w) !! k') /\
    fst <$> Exists k w' = Some false /\
    (exists n, fst <$> Count w = Some n /\ fst <$> Count w' = Some (n - 1)) /\
    Delete k w'
    = Some ((None, Some ErrKeyNotFound),
            mkWorld (heap w') (table w')
                    (trace w' ++ [TableLock; MapGet k; TableUnlock])).
Proof.
  destruct w as [h t tr]. unfold ptrs_valid. simpl. intros Hm Hk.
  destruct (Hm k r Hk) as [it Hr].
  eexists. split; [by apply Delete_present|]. simpl.
  split; [done|].
  split; [by intros k' Hne; rewrite lookup_delete_ne|].
  split.
  { rewrite lookup_delete_eq.
    by rewrite bool_decide_eq_false_2 by by intros [? ?]. }
  split.
  { eexists. split; [done|].
    rewrite map_size_delete_Some by done.
    assert (size (items t) <> 0%nat) as Hne.
    { intros Hz. apply map_size_empty_inv in Hz. by rewrite Hz in Hk. }
    f_equal. lia. }
  apply Delete_absent. simpl. apply lookup_delete_eq.
Qed.

(** X7. [NotFoundAdd] keeps the first item: once it has added a key, a second
    [NotFoundAdd] of the key returns false and leaves the table and the item
    as they are, whatever lifespan and data it is given. *)
Theorem NotFoundAdd_keeps_the_first (now1 now2 : Time) (order : list K)
  (k : K) (l : Duration) (d : D) (w : World) :
  ptrs_valid w ->
  items (table w) !! k = None ->
  check_needed l (cleanupInterval (table w)) = false
  \/ expired now2 (new_item now1 k l d) = false ->
  exists w',
    NotFoundAdd now1 now2 order k l d w = Some (true, w') /\
    stored w' k (new_item now1 k l d) /\
    forall now3 now4 order' l' d',
      NotFoundAdd now3 now4 order' k l' d' w'
      = Some (false, mkWorld (heap w') (table w')
                             (trace w' ++ [TableLock; MapGet k; TableUnlock])).
Proof.
  destruct w as [h t tr]. unfold ptrs_valid. simpl. intros Hm Hk He.
  set (it := new_item now1 k l d) in *.
  assert ((h ++ [it]) !! length h = Some it) as Hnew by apply lookup_new.
  assert (items (addInternal_table now2 (h ++ [it]) order (length h) it t) !! k
          = Some (length h)) as Hst.
  { rewrite addInternal_table_lookup. simpl.
    rewrite (is_expired_new _ _ _ _ _ it) by done.
    destruct He as [-> | ->]; [|rewrite !andb_false_r]; apply lookup_insert_eq. }
  subst it.
  eexists. split; [by apply NotFoundAdd_absent|]. simpl.
  split; [by exists (length h)|].
  intros now3 now4 order' l' d'.
  by apply (NotFoundAdd_present _ _ _ _ _ _ (length h)).
Qed.

(** ** The life of an item *)

(** An item with a positive lifespan is due from a full lifespan after its
    last access on; the clock may say anything. *)
Lemma expired_deadline now it :
  0 < lifeSpan it <= Int64.max_int64 ->
  expired now it = bool_decide (accessedOn it + lifeSpan it <= now).
Proof.
  intros Hl. unfold expired, Sub, Int64.min_int64, Int64.max_int64 in *.
  destruct (lifeSpan it =? 0) eqn:Hz; [lia|]. simpl.
  case_bool_decide as Hd.
  - apply Z.leb_le. lia.
  - apply Z.leb_gt. lia.
Qed.

Lemma expirationCheck_deadline now order h t tr k p it :
  heap_covers h (items t) ->
  items t !! k = Some p -> h !! p = Some it ->
  0 < lifeSpan it <= Int64.max_int64 -> k ∈ order ->
  exists w',
    expirationCheck now order (mkWorld h t tr) = Some (tt, w') /\
    (now < accessedOn it + lifeSpan it -> items (table w') !! k = Some p) /\
    (accessedOn it + lifeSpan it <= now -> items (table w') !! k = None).
Proof.
  intros Hm Hk Hp Hl Hin.
  eexists. split; [by apply expirationCheck_run|]. simpl.
  rewrite expirationCheck_table_lookup.
  unfold is_expired. rewrite Hk, Hp, (expired_deadline _ _ Hl).
  rewrite bool_decide_eq_true_2 by done. simpl.
  split; intros Hnow.
  - by rewrite bool_decide_eq_false_2 by lia.
  - by rewrite bool_decide_eq_true_2 by lia.
Qed.

(** X8. An item with a lifespan [l] stays in the table as long as the checks
    run less than [l] after its last access, and the first check that runs [l]
    or more after it deletes the item. The last access of an item that [Add]
    has just made is the time it was made; a [Value] of the key makes the time
    of the lookup the last access. *)
Theorem item_lives_a_lifespan_after_its_last_access (now1 now2 : Time)
  (order : list K) (k : K) (l : Duration) (d : D) (w : World) :
  ptrs_valid w ->
  0 < l <= Int64.max_int64 ->
  now2 < now1 + l ->
  exists item w1,
    Add now1 now2 order k l d w = Some (item, w1) /\
    items (table w1) !! k = Some item /\
    (forall now order1, k ∈ order1 ->
       exists w2,
         expirationCheck now order1 w1 = Some (tt, w2) /\
         (now < now1 + l -> items (table w2) !! k = Some item) /\
         (now1 + l <= now -> items (table w2) !! k = None)) /\
    (forall now3 now4 order3 args,
       exists w3,
         Value now3 now4 order3 k args w1 = Some ((Some item, None), w3) /\
         forall now order1, k ∈ order1 ->
           exists w4,
             expirationCheck now order1 w3 = Some (tt, w4) /\
             (now < now3 + l -> items (table w4) !! k = Some item) /\
             (now3 + l <= now -> items (table w4) !! k = None)).
Proof.
  destruct w as [h t tr]. unfold ptrs_valid. simpl. intros Hm Hl Hnow2.
  set (it := new_item now1 k l d).
  set (h1 := h ++ [it]).
  set (t1 := addInternal_table now2 h1 order (length h) it t).
  assert (h1 !! length h = Some it) as Hnew by apply lookup_new.
  assert (heap_covers h1 (items t1)) as Hm1.
  { apply addInternal_table_covers; [by apply heap_covers_app|by rewrite Hnew]. }
  assert (items t1 !! k = Some (length h)) as Hst.
  { unfold t1. rewrite addInternal_table_lookup. simpl.
    rewrite (is_expired_new _ _ _ _ _ it) by done.
    rewrite (expired_deadline now2 it) by done. simpl.
    rewrite (bool_decide_eq_false_2 (now1 + l <= now2)) by lia.
    rewrite !andb_false_r. apply lookup_insert_eq. }
  exists (length h). eexists. split; [by apply Add_run|]. simpl.
  fold it h1 t1. split; [done|]. split.
  - intros now order1 Hin.
    by apply (expirationCheck_deadline now order1 h1 t1 _ k (length h) it).
  - intros now3 now4 order3 args. eexists.
    split; [by apply (Value_hit _ _ _ _ _ (length h) it)|].
    intros now order1 Hin.
    assert (heap_kept h1 (<[length h := kept_alive now3 it]> h1)) as Hkept
      by (by apply (heap_kept_insert _ _ it)).
    apply (expirationCheck_deadline now order1 _ t1 _ k (length h)
             (kept_alive now3 it)); try done.
    + by apply (heap_covers_kept h1).
    + apply list_lookup_insert_eq. by eapply lookup_lt_Some.
Qed.

(** ** A second check at the same time *)

(** When no item that the loop reaches is due, the loop deletes nothing and
    calls nothing. *)
Lemma scan_nothing_due now h f order m d :
  (forall k, k ∈ order -> is_expired now h m k = false) ->
  (scan now h f order m d).1.1 = m /\
  filter is_callback (scan now h f order m d).2 = [].
Proof.
  intros Hno. split.
  - apply map_eq. intros k. rewrite scan_lookup.
    case_bool_decide as Hk; [|done]. by rewrite (Hno k Hk).
  - destruct (filter is_callback (scan now h f order m d).2) as [|ev l] eqn:Hf;
      [done|exfalso].
    assert (ev ∈ filter is_callback (scan now h f order m d).2) as Hev
      by (rewrite Hf; apply elem_of_cons; by left).
    apply list_elem_of_filter in Hev as [Hc Hev].
    apply Is_true_true in Hc.
    destruct (scan_callback_inv _ _ _ _ _ _ _ Hev Hc)
      as (k & p & it & Hk & Hp & Hit & He & _).
    specialize (Hno k Hk). unfold is_expired in Hno.
    rewrite Hp, Hit in Hno. congruence.
Qed.

(** The smallest duration that the loop finds depends on the items that are
    not due, not on the order, and not on the items that are due. *)
Lemma scan_smallest_unique now h f f' order order' m m' :
  clock_ok now h m -> clock_ok now h m' ->
  (forall k it, pending now h m k it -> k ∈ order) ->
  (forall k it, pending now h m' k it -> k ∈ order') ->
  (forall k it, pending now h m k it <-> pending now h m' k it) ->
  (scan now h f order m 0).1.2 = (scan now h f' order' m' 0).1.2.
Proof.
  intros Hok Hok' Hin Hin' Hsame.
  destruct (scan_smallest now h f order m 0 Hok) as (_ & _ & Hd1 & Hle1); [lia|].
  destruct (scan_smallest now h f' order' m' 0 Hok') as (_ & _ & Hd2 & Hle2); [lia|].
  destruct Hd1 as [Hd1|(k1 & it1 & Hk1 & Hp1 & Hd1)].
  - destruct Hd2 as [Hd2|(k2 & it2 & Hk2 & Hp2 & Hd2)]; [congruence|].
    apply Hsame in Hp2. specialize (Hle1 k2 it2 (Hin _ _ Hp2) Hp2). lia.
  - destruct Hd2 as [Hd2|(k2 & it2 & Hk2 & Hp2 & Hd2)].
    + apply Hsame in Hp1. specialize (Hle2 k1 it1 (Hin' _ _ Hp1) Hp1). lia.
    + pose proof Hp1 as Hp1'. apply Hsame in Hp1'.
      pose proof Hp2 as Hp2'. apply Hsame in Hp2'.
      specialize (Hle1 k2 it2 (Hin _ _ Hp2') Hp2').
      specialize (Hle2 k1 it1 (Hin' _ _ Hp1') Hp1'). lia.
Qed.

(** X9. A check that runs right after a check, at the same time, finds nothing
    to do: it deletes no item, calls no callback, and leaves the cleanup
    interval and the timer as the first check has set them. *)
Theorem expirationCheck_twice (now : Time) (order order' : list K)
  (w : World) :
  ptrs_valid w ->
  range_order (items (table w)) order ->
  timestamps_ok now w ->
  exists w' evs,
    expirationCheck now order w = Some (tt, w') /\
    (range_order (items (table w')) order' ->
     expirationCheck now order' w'
     = Some (tt, mkWorld (heap w') (table w') (trace w' ++ evs)) /\
     filter is_callback evs = []).
Proof.
  destruct w as [h t tr]. unfold ptrs_valid. simpl.
  intros Hm [Hnd Hel] Hts.
  apply timestamps_ok_clock_ok in Hts.
  set (t' := expirationCheck_table now h order t).
  assert (heap_covers h (items t')) as Hm' by by apply expirationCheck_table_covers.
  assert (forall k, items t' !! k
                    = if is_expired now h (items t) k then None else items t !! k)
    as Hlook.
  { intros k. unfold t'. rewrite expirationCheck_table_lookup.
    case_bool_decide as Hk; [done|]. simpl.
    destruct (items t !! k) eqn:Hl; [|by destruct (is_expired _ _ _ _)].
    exfalso. apply Hk, Hel. by rewrite Hl. }
  assert (forall k, is_expired now h (items t') k = false) as Hno.
  { intros k. unfold is_expired at 1. rewrite Hlook.
    destruct (is_expired now h (items t) k) eqn:Hx; [done|].
    unfold is_expired in Hx. done. }
  assert (forall k it, pending now h (items t) k it
                       <-> pending now h (items t') k it) as Hsame.
  { intros k it. split; intros (p & Hp & Hrest).
    - exists p. split; [|done]. rewrite Hlook.
      rewrite (is_expired_pending now h (items t) k it); [done|by exists p].
    - exists p. split; [|done]. rewrite Hlook in Hp.
      by destruct (is_expired now h (items t) k). }
  assert (clock_ok now h (items t')) as Hts'.
  { intros k p it Hp Hit. rewrite Hlook in Hp.
    destruct (is_expired now h (items t) k); [done|]. by apply (Hts k p). }
  exists (mkWorld h t' (tr ++ expirationCheck_events now h order t)),
         (expirationCheck_events now h order' t').
  split; [by apply expirationCheck_run|]. simpl.
  intros [Hnd' Hel'].
  assert (aboutToDeleteItem t' = aboutToDeleteItem t) as Hf
    by apply expirationCheck_table_fields.
  destruct (scan_nothing_due now h (aboutToDeleteItem t') order' (items t') 0)
    as [Hmap Hcb]; [by intros k _|].
  assert ((scan now h (aboutToDeleteItem t') order' (items t') 0).1.2
          = (scan now h (aboutToDeleteItem t) order (items t) 0).1.2) as Hd.
  { apply scan_smallest_unique; try done.
    - intros k it (p & Hp & _). apply Hel'. by rewrite Hp.
    - intros k it (p & Hp & _). apply Hel. by rewrite Hp. }
  split.
  - rewrite expirationCheck_run by done. do 3 f_equal.
    unfold expirationCheck_table at 1.
    destruct (scan now h (aboutToDeleteItem t') order' (items t') 0)
      as [[m2 d2] e2] eqn:Hscan2. simpl in Hmap, Hd. subst m2 d2.
    unfold t', expirationCheck_table.
    destruct (scan now h (aboutToDeleteItem t) order (items t) 0)
      as [[m1 d1] e1]. simpl.
    destruct (d1 >? 0) eqn:Hpos; simpl; rewrite ?Hpos; [done|].
    unfold stop_cleanupTimer, set_cleanupTimer, set_cleanupInterval, set_items.
    simpl. f_equal. by destruct (cleanupTimer t).
  - unfold expirationCheck_events.
    rewrite !filter_app, Hcb. by rewrite !filter_cons, !filter_nil.
Qed.
(** ** The timer and the first deadline *)

(** X10. The timer that a check sets runs out at the moment the first item is
    due: when the check at [now] leaves an interval [d], there is an item
    whose lifespan ends at [now + d]; a check before that moment deletes
    nothing, and a check at that moment or later deletes that item. *)
Theorem timer_waits_for_the_first_deadline (now : Time) (order : list K)
  (w : World) :
  ptrs_valid w ->
  range_order (items (table w)) order ->
  timestamps_ok now w ->
  exists w',
    expirationCheck now order w = Some (tt, w') /\
    (0 < cleanupInterval (table w') ->
     exists k it,
       stored w' k it /\
       accessedOn it + lifeSpan it = now + cleanupInterval (table w') /\
       forall now' order',
         exists w'',
           expirationCheck now' order' w' = Some (tt, w'') /\
           (now' < now + cleanupInterval (table w') ->
            items (table w'') = items (table w')) /\
           (now + cleanupInterval (table w') <= now' -> k ∈ order' ->
            items (table w'') !! k = None)).
Proof.
  destruct w as [h t tr]. unfold ptrs_valid. simpl.
  intros Hm [Hnd Hel] Hts.
  apply timestamps_ok_clock_ok in Hts.
  set (t' := expirationCheck_table now h order t).
  set (tr' := (tr ++ expirationCheck_events now h order t)%list).
  assert (heap_covers h (items t')) as Hm' by by apply expirationCheck_table_covers.
  assert (forall k, items t' !! k
                    = if is_expired now h (items t) k then None else items t !! k)
    as Hlook.
  { intros k. unfold t'. rewrite expirationCheck_table_lookup.
    case_bool_decide as Hk; [done|]. simpl.
    destruct (items t !! k) eqn:Hl; [|by destruct (is_expired _ _ _ _)].
    exfalso. apply Hk, Hel. by rewrite Hl. }
  assert (scheduler_minimal now (mkWorld h t' tr')) as Hsched.
  { apply expirationCheck_table_scheduler; [done|]. intros k. apply Hel. }
  exists (mkWorld h t' tr'). split; [by apply expirationCheck_run|]. simpl.
  intros Hpos.
  destruct Hsched as [[_ [Hz _]]|(k & it & Hst & Hl & [Hint _] & Hmin)];
    simpl in *; [lia|].
  exists k, it. split; [done|]. unfold ttl in *. split; [lia|].
  destruct Hst as (p & Hk & Hp). simpl in Hk, Hp.
  assert (Int64.in_range (lifeSpan it) /\ accessedOn it <= now) as [Hr _].
  { rewrite Hlook in Hk. destruct (is_expired now h (items t) k); [done|].
    by apply (Hts k p). }
  intros now' order'. eexists. split; [by apply expirationCheck_run|]. simpl.
  split.
  - intros Hbefore. unfold expirationCheck_table.
    destruct (scan_nothing_due now' h (aboutToDeleteItem t') order' (items t') 0)
      as [Hmap _].
    { intros k' _. unfold is_expired.
      destruct (items t' !! k') as [p'|] eqn:Hk'; [|done].
      destruct (h !! p') as [it'|] eqn:Hp'; [|done].
      rewrite Hlook in Hk'.
      destruct (is_expired now h (items t) k') eqn:Hx; [done|].
      unfold is_expired in Hx. rewrite Hk', Hp' in Hx.
      destruct (Hts k' p' it' Hk' Hp') as [Hr' Hacc'].
      destruct (decide (lifeSpan it' = 0)) as [Hz|Hnz].
      { unfold expired. rewrite Hz. done. }
      assert (0 < lifeSpan it') as Hl'.
      { destruct (Z_lt_le_dec 0 (lifeSpan it')) as [|Hneg]; [done|].
        assert (expired now it' = true) as Hy; [|congruence].
        apply expired_spec; [done|done|]. split; [done|lia]. }
      rewrite expired_deadline by (unfold Int64.in_range in Hr'; lia).
      apply bool_decide_eq_false_2.
      assert (stored (mkWorld h t' tr') k' it') as Hst'.
      { exists p'. simpl. split; [|done]. rewrite Hlook.
        unfold is_expired. by rewrite Hk', Hp', Hx. }
      specialize (Hmin k' it' Hst' Hl'). lia. }
    destruct (scan now' h (aboutToDeleteItem t') order' (items t') 0)
      as [[m2 d2] e2]. simpl in Hmap. subst m2.
    by destruct (d2 >? 0).
  - intros Hafter Hin. rewrite expirationCheck_table_lookup.
    unfold is_expired. rewrite Hk, Hp.
    rewrite expired_deadline by (unfold Int64.in_range in Hr; lia).
    rewrite bool_decide_eq_true_2 by done.
    by rewrite bool_decide_eq_true_2 by lia.
Qed.

(** ** After [Flush] *)

(** X11. [Flush] empties the table and keeps the rest of it: the name, the
    data-loader and the two callbacks of the table. Afterwards no key exists,
    [Delete] of any key fails with [ErrKeyNotFound], and an expiration check
    or a second [Flush] leaves the table as it is, with no timer running. The
    items that were in the table stay in the heap as they were. *)
Theorem Flush_then_nothing_is_left (w : World) :
  exists w',
    Flush w = Some (tt, w') /\
    heap w' = heap w /\
    (name (table w') = name (table w) /\
     loadData (table w') = loadData (table w) /\
     addedItem (table w') = addedItem (table w) /\
     aboutToDeleteItem (table w') = aboutToDeleteItem (table w)) /\
    (forall k, fst <$> Exists k w' = Some false) /\
    (forall k, fst <$> Delete k w' = Some (None, Some ErrKeyNotFound)) /\
    (forall now order, exists w'',
       expirationCheck now order w' = Some (tt, w'') /\ table w'' = table w') /\
    (exists w'', Flush w' = Some (tt, w'') /\ table w'' = table w').
Proof.
  destruct w as [h t tr].
  eexists. split; [apply Flush_run|]. simpl.
  split; [done|]. split; [done|].
  split.
  { intros k. rewrite lookup_empty.
    by rewrite bool_decide_eq_false_2 by by intros [? ?]. }
  split.
  { intros k. by rewrite Delete_absent. }
  assert (forall c : option Timer, Stop <$> (Stop <$> c) = Stop <$> c) as Hstop
    by (by intros [?|]).
  split.
  - intros now order. eexists. split.
    { apply expirationCheck_run. simpl. apply map_Forall_empty. }
    simpl. unfold expirationCheck_table. simpl.
    destruct (scan_nothing_due now h (aboutToDeleteItem t) order ∅ 0) as [Hmap _].
    { intros k _. unfold is_expired. by rewrite lookup_empty. }
    destruct (scan_smallest now h (aboutToDeleteItem t) order ∅ 0)
      as (_ & _ & Hd & _); [by intros k p it Hk; rewrite lookup_empty in Hk|lia|].
    destruct (scan now h (aboutToDeleteItem t) order ∅ 0) as [[m d] e].
    simpl in *. subst m.
    destruct Hd as [->|(k & it & _ & (p & Hp & _) & _)];
      [|by rewrite lookup_empty in Hp].
    simpl. unfold stop_cleanupTimer, set_cleanupTimer, set_cleanupInterval,
             set_items. simpl. by rewrite Hstop.
  - eexists. split; [apply Flush_run|]. simpl.
    unfold stop_cleanupTimer, set_cleanupTimer, set_cleanupInterval,
      set_items. simpl. by rewrite Hstop.
Qed.

(** ** The callbacks and the data-loader, once set *)

Lemma SetDataLoader_run f h t tr :
  SetDataLoader f (mkWorld h t tr)
  = Some (tt, mkWorld h (mkCacheTable (name t) (items t) (cleanupTimer t)
                                      (cleanupInterval t) f (addedItem t)
                                      (aboutToDeleteItem t))
                      (tr ++ [TableLock; TableUnlock])).
Proof. unfold SetDataLoader. run_M. by trace_norm. Qed.

Lemma SetAddedItemCallback_run f h t tr :
  SetAddedItemCallback f (mkWorld h t tr)
  = Some (tt, mkWorld h (mkCacheTable (name t) (items t) (cleanupTimer t)
                                      (cleanupInterval t) (loadData t) f
                                      (aboutToDeleteItem t))
                      (tr ++ [TableLock; TableUnlock])).
Proof. unfold SetAddedItemCallback. run_M. by trace_norm. Qed.

Lemma SetAboutToDeleteItemCallback_run f h t tr :
  SetAboutToDeleteItemCallback f (mkWorld h t tr)
  = Some (tt, mkWorld h (mkCacheTable (name t) (items t) (cleanupTimer t)
                                      (cleanupInterval t) (loadData t)
                                      (addedItem t) f)
                      (tr ++ [TableLock; TableUnlock])).
Proof. unfold SetAboutToDeleteItemCallback. run_M. by trace_norm. Qed.

(** X12. Once [SetAddedItemCallback] has set a callback, every [Add] calls it
    once, with the item it has just put into the map, after it has given up
    the table's mutex and before the check it may run; once the callback is
    set to nil, [Add] calls no such callback. Setting the callback changes
    nothing else of the table. *)
Theorem SetAddedItemCallback_then_Add (f : option Callback)
  (now1 now2 : Time) (order : list K) (k : K) (l : Duration) (d : D)
  (w : World) :
  ptrs_valid w ->
  exists w1 item w2 rest,
    SetAddedItemCallback f w = Some (tt, w1) /\
    heap w1 = heap w /\
    table w1 = mkCacheTable (name (table w)) (items (table w))
                 (cleanupTimer (table w)) (cleanupInterval (table w))
                 (loadData (table w)) f (aboutToDeleteItem (table w)) /\
    Add now1 now2 order k l d w1 = Some (item, w2) /\
    trace w2 = trace w1
               ++ [TableLock; MapSet k item; TableUnlock]
               ++ opt_call f (fun c => CallAddedItem c item)
               ++ rest /\
    forall c p, CallAddedItem c p ∉ rest.
Proof.
  destruct w as [h t tr]. unfold ptrs_valid. simpl. intros Hm.
  do 4 eexists. split; [apply SetAddedItemCallback_run|]. simpl.
  split; [done|]. split; [done|].
  split; [by apply Add_run|]. simpl.
  split; [unfold addInternal_events; simpl; reflexivity|].
  intros c p Hev.
  destruct (check_needed _ _); [|by apply elem_of_nil in Hev].
  unfold expirationCheck_events in Hev.
  rewrite !elem_of_app, !elem_of_cons, elem_of_nil in Hev.
  destruct Hev as [[?|[]]|[Hev|[?|[]]]]; try done.
  apply scan_callback_inv in Hev; [|done].
  destruct Hev as (? & ? & ? & _ & _ & _ & _ & [(? & _ & ?)|(? & _ & ?)]); done.
Qed.

(** X13. Once [SetAboutToDeleteItemCallback] has set the callback of the table
    and [SetAboutToExpireCallback] the callback of an item, [Delete] of the
    item's key calls the two, the table's first, and no other callback. It
    calls the item's callback also when the item has no lifespan and so never
    expires. A callback that is set to nil is not called. *)
Theorem callbacks_set_then_Delete (f g : option Callback) (k : K) (r : Ptr)
  (w : World) :
  ptrs_valid w ->
  items (table w) !! k = Some r ->
  exists w1 w2 w3,
    SetAboutToDeleteItemCallback f w = Some (tt, w1) /\
    SetAboutToExpireCallback r g w1 = Some (tt, w2) /\
    items (table w2) = items (table w) /\
    Delete k w2 = Some ((Some r, None), w3) /\
    filter is_callback (new_events (Delete k) w2)
    = opt_call f (fun c => CallAboutToDeleteItem c r)
      ++ opt_call g (fun c => CallAboutToExpire c k).
Proof.
  destruct w as [h t tr]. unfold ptrs_valid. simpl. intros Hm Hk.
  destruct (Hm k r Hk) as [it Hr].
  set (it' := mkCacheItem (key it) (data it) (lifeSpan it) (createdOn it)
                          (accessedOn it) (accessCount it) g).
  assert (<[r := it']> h !! r = Some it') as Hr'
    by (apply list_lookup_insert_eq; by eapply lookup_lt_Some).
  do 3 eexists. split; [apply SetAboutToDeleteItemCallback_run|].
  split; [by apply SetAboutToExpireCallback_run|]. simpl.
  split; [done|].
  split; [by apply (Delete_present _ _ it')|].
  erewrite new_events_run;
    [|apply (Delete_present k r it'); [exact Hk|exact Hr']].
  rewrite !filter_app, filter_deleteInternal_events.
  by rewrite !filter_cons, !filter_nil, app_nil_r.
Qed.

(** X14. Once [SetDataLoader] has set a data-loader, [Value] of a key that is
    absent calls it, once, with the key and the arguments of [Value], and
    succeeds or fails with [ErrKeyNotFoundOrLoadable] as the loader returns an
    item or nil; once the loader is set to nil, [Value] fails with
    [ErrKeyNotFound] and calls nothing. *)
Theorem SetDataLoader_then_Value (f : option (K -> list A -> option CacheItem))
  (now1 now2 : Time) (order : list K) (k : K) (args : list A) (w : World) :
  ptrs_valid w ->
  items (table w) !! k = None ->
  exists w1 res w2 evs,
    SetDataLoader f w = Some (tt, w1) /\
    Value now1 now2 order k args w1 = Some (res, w2) /\
    trace w2 = trace w1 ++ [TableRLock; MapGet k; TableRUnlock] ++ evs /\
    match f with
    | None => res = (None, Some ErrKeyNotFound) /\ evs = []
    | Some load =>
        exists rest,
          evs = CallLoadData k args :: rest /\
          (forall k' args', CallLoadData k' args' ∉ rest) /\
          match load k args with
          | None => res = (None, Some ErrKeyNotFoundOrLoadable) /\ rest = []
          | Some loaded =>
              res = (Some (length (heap w)), None) /\
              heap w2 !! length (heap w) = Some loaded
          end
    end.
Proof.
  destruct w as [h t tr]. unfold ptrs_valid. simpl. intros Hm Hk.
  destruct f as [load|].
  - destruct (load k args) as [loaded|] eqn:Hload.
    + do 4 eexists. split; [apply SetDataLoader_run|].
      split; [by eapply Value_miss_loaded|]. simpl.
      split; [reflexivity|].
      eexists. split; [reflexivity|]. split.
      * intros k' args' Hev. apply elem_of_cons in Hev as [?|Hev]; [done|].
        apply addInternal_events_callback_inv in Hev; [|done].
        destruct Hev as [(? & _ & ?)|(? & ? & ? & _ & _ & _ & [(? & _ & ?)|(? & _ & ?)])];
          done.
      * split; [done|].
        rewrite lookup_app_l by (rewrite length_app; simpl; lia).
        apply lookup_new.
    + do 4 eexists. split; [apply SetDataLoader_run|].
      split; [by eapply Value_miss_not_loadable|]. simpl.
      split; [reflexivity|].
      eexists. split; [reflexivity|].
      split; [by intros k' args' Hev; apply elem_of_nil in Hev|done].
  - do 4 eexists. split; [apply SetDataLoader_run|].
    split; [by apply Value_miss_no_loader|]. simpl.
    split; [reflexivity|done].
Qed.

(** ** [Foreach] *)

Lemma Foreach_loop_run {S : Type} (f : World -> K -> Ptr -> S -> S) order :
  forall (s : S) w,
    Foreach_loop (fun k v s w => Some (f w k v s, w)) order s w
    = Some (foldl (fun s kv => f w kv.1 kv.2 s) s
                  (entries (items (table w)) order), w).
Proof.
  induction order as [|k order IH]; intros s w; [done|].
  simpl. unfold bind at 1. unfold get_table at 1. unfold entries. simpl.
  destruct (items (table w) !! k) as [v|]; simpl.
  - unfold bind. apply IH.
  - apply IH.
Qed.

Lemma entries_Permutation m order :
  range_order m order -> entries m order ≡ₚ map_to_list m.
Proof.
  intros [Hnd Hel]. apply NoDup_Permutation.
  - unfold entries. clear Hel. induction Hnd as [|k order Hk Hnd IH]; csimpl.
    + constructor.
    + destruct (m !! k) as [v|]; simpl; [|done].
      apply NoDup_cons. split; [|done].
      intros Hin. apply list_elem_of_omap in Hin as (k' & Hk' & Heq).
      destruct (m !! k'); simplify_eq/=. done.
  - apply NoDup_map_to_list.
  - intros [k v]. rewrite elem_of_map_to_list. unfold entries.
    rewrite list_elem_of_omap. split.
    + intros (k' & _ & Heq). destruct (m !! k') eqn:Hl; simplify_eq/=. done.
    + intros Hk. exists k. split; [apply Hel; by rewrite Hk|by rewrite Hk].
Qed.

(** X15. [Foreach] calls [trans] once for every entry of the table, in the
    order of the iteration, with the key and the item, and with the table's
    mutex held for reading from before the first call until after the last.
    For a closure that reads the world and writes only the variables it has
    captured, the result is the fold of the closure over the entries, and the
    table and the items are as they were. *)
Theorem Foreach_visits_every_entry_once {S : Type}
  (f : World -> K -> Ptr -> S -> S) (order : list K) (s : S) (w : World) :
  range_order (items (table w)) order ->
  let reading := mkWorld (heap w) (table w) (trace w ++ [TableRLock]) in
  Foreach (fun k v s w0 => Some (f w0 k v s, w0)) order s w
  = Some (foldl (fun s kv => f reading kv.1 kv.2 s) s
                (entries (items (table w)) order),
          mkWorld (heap w) (table w) (trace w ++ [TableRLock; TableRUnlock])) /\
  entries (items (table w)) order ≡ₚ map_to_list (items (table w)) /\
  Z.of_nat (length (entries (items (table w)) order))
  = Z.of_nat (size (items (table w))).
Proof.
  intros Horder reading. split; [|split].
  - unfold Foreach. unfold bind at 1. unfold emit at 1. simpl.
    unfold bind at 1. rewrite Foreach_loop_run. simpl.
    unfold bind, emit, ret. simpl. by trace_norm.
  - by apply entries_Permutation.
  - rewrite (entries_Permutation _ _ Horder). by rewrite length_map_to_list.
Qed.

(** ** The registry of the tables *)

Local Abbreviation Registry := (Registry (K:=K) (D:=D) (A:=A)).

Lemma Cache_hit (table : string) (r : Registry) q :
  cache r !! table = Some q -> Cache table r = (q, r).
Proof. intros Hq. unfold Cache. by rewrite Hq. Qed.

Lemma Cache_miss (table : string) (r : Registry) :
  cache r !! table = None ->
  Cache table r
  = (length (tables r),
     mkRegistry (tables r ++ [new_table table])
                (<[table := length (tables r)]> (cache r))).
Proof. intros Hq. unfold Cache. by rewrite Hq. Qed.

Lemma Cache_registry_ok (table : string) (r : Registry) :
  registry_ok r ->
  registry_ok (Cache table r).2 /\
  cache (Cache table r).2 !! table = Some (Cache table r).1.
Proof.
  intros Hok. destruct (cache r !! table) as [q|] eqn:Hq.
  - by rewrite (Cache_hit _ _ _ Hq).
  - rewrite (Cache_miss _ _ Hq). simpl. split; [|apply lookup_insert_eq].
    intros n p Hn. simpl in *. destruct (decide (n = table)) as [->|Hne].
    + rewrite lookup_insert_eq in Hn. injection Hn as <-.
      exists (new_table table). split; [apply list_lookup_middle; done|done].
    + rewrite lookup_insert_ne in Hn by done.
      destruct (Hok n p Hn) as (t & Ht & Hname).
      exists t. split; [by apply lookup_app_l_Some|done].
Qed.

(** X16. [Cache] returns the table that is registered under the name, and
    registers a new one only when there is none: a table with that name, no
    items, no timer, no data-loader and no callbacks. The tables that were
    registered before stay registered under their names, and none of them is
    changed. *)
Theorem Cache_gets_or_creates (table : string) (r : Registry) :
  registry_ok r ->
  exists p r',
    Cache table r = (p, r') /\
    registry_ok r' /\
    cache r' !! table = Some p /\
    (forall q, cache r !! table = Some q -> p = q /\ r' = r) /\
    (cache r !! table = None ->
     tables r' !! p = Some (new_table table) /\
     forall n, n <> table -> cache r' !! n = cache r !! n) /\
    (forall q t, tables r !! q = Some t -> tables r' !! q = Some t).
Proof.
  intros Hok. destruct (Cache_registry_ok table r Hok) as [Hok' Hp].
  exists (Cache table r).1, (Cache table r).2.
  split; [by destruct (Cache table r)|]. split; [done|]. split; [done|].
  destruct (cache r !! table) as [q|] eqn:Hq.
  - rewrite (Cache_hit _ _ _ Hq). simpl.
    split; [by intros ? [= <-]|]. split; [done|done].
  - rewrite (Cache_miss _ _ Hq). simpl. split; [done|]. split.
    + intros _. split; [apply list_lookup_middle; done|].
      intros n Hne. by rewrite lookup_insert_ne.
    + intros p t Ht. by apply lookup_app_l_Some.
Qed.

(** X17. Two calls of [Cache] return the same table exactly when they are
    given the same name, whatever was registered before; and a later call with
    either name returns the same table again and changes nothing. *)
Theorem Cache_one_table_per_name (n1 n2 : string) (r : Registry) :
  registry_ok r ->
  exists p1 r1 p2 r2,
    Cache n1 r = (p1, r1) /\
    Cache n2 r1 = (p2, r2) /\
    (p1 = p2 <-> n1 = n2) /\
    Cache n1 r2 = (p1, r2) /\
    Cache n2 r2 = (p2, r2).
Proof.
  intros Hok.
  destruct (Cache_registry_ok n1 r Hok) as [Hok1 Hp1].
  destruct (Cache n1 r) as [p1 r1] eqn:Hc1. simpl in *.
  destruct (Cache_registry_ok n2 r1 Hok1) as [Hok2 Hp2].
  assert (cache (Cache n2 r1).2 !! n1 = Some p1) as Hp1'.
  { destruct (cache r1 !! n2) as [q|] eqn:Hq.
    - by rewrite (Cache_hit _ _ _ Hq).
    - rewrite (Cache_miss _ _ Hq). simpl.
      destruct (decide (n1 = n2)) as [->|Hne]; [congruence|].
      by rewrite lookup_insert_ne. }
  destruct (Cache n2 r1) as [p2 r2] eqn:Hc2. simpl in *.
  exists p1, r1, p2, r2. split; [done|]. split; [done|].
  split; [split|].
  - intros <-.
    destruct (Hok2 n1 p1 Hp1') as (t1 & Ht1 & Hn1).
    destruct (Hok2 n2 p1 Hp2) as (t2 & Ht2 & Hn2). congruence.
  - intros <-. congruence.
  - by rewrite (Cache_hit _ _ _ Hp1'), (Cache_hit _ _ _ Hp2).
Qed.

(** ** The most accessed items, and the others *)

(** X18. The items that [MostAccessed] returns are those of a first part of
    the keys, and every one of them has been accessed at least as often as
    every item of the other keys. When [count] is the number of items or more,
    there are no other keys: every item is returned. *)
Theorem MostAccessed_leaves_out_the_least_accessed (order : list K)
  (count : Z) (w : World) :
  ptrs_valid w ->
  range_order (items (table w)) order ->
  Z.of_nat (size (items (table w))) <= Int64.max_int64 ->
  exists (r : list Ptr) (top rest : list K),
    fst <$> MostAccessed order count w = Some r /\
    top ++ rest ≡ₚ order /\
    Forall2 (fun k p => items (table w) !! k = Some p) top r /\
    (forall k k' it it',
       k ∈ top -> k' ∈ rest -> stored w k it -> stored w k' it' ->
       accessCount it' <= accessCount it) /\
    (Z.of_nat (size (items (table w))) <= count -> rest = []).
Proof.
  destruct w as [h t tr]. unfold ptrs_valid. simpl.
  intros Hm Horder Hsize.
  pose proof (range_order_length _ _ Horder) as Hlen.
  destruct Horder as [Hnd Hel].
  assert (forall k, k ∈ order -> is_Some (pair_of h (items t) k)) as Hpairs.
  { intros k Hk. apply Hel in Hk as [q Hq]. destruct (Hm k q Hq) as [it Hit].
    unfold pair_of. rewrite Hq, Hit. eauto. }
  set (pairs := omap (pair_of h (items t)) order).
  set (sorted := sort_Sort pairs).
  set (n := Z.to_nat count).
  assert (sorted ≡ₚ pairs) as Hperm by apply merge_sort_Permutation.
  assert (forall v, v ∈ sorted ->
            exists it, stored (mkWorld h t tr) (Key v) it /\
                       AccessCount v = accessCount it) as Hsrc.
  { intros v Hv. rewrite Hperm in Hv.
    apply list_elem_of_omap in Hv as (k & Hk & Hv).
    unfold pair_of in Hv. destruct (items t !! k) as [q|] eqn:Hq; [|done].
    destruct (h !! q) as [it|] eqn:Hit; [|done]. injection Hv as <-.
    exists it. split; [|done]. exists q. done. }
  assert (forall v, v ∈ take n sorted -> v ∈ sorted) as Htop.
  { intros v Hv. rewrite <- (take_drop n sorted). apply elem_of_app. by left. }
  assert (forall v, v ∈ drop n sorted -> v ∈ sorted) as Hrest.
  { intros v Hv. rewrite <- (take_drop n sorted). apply elem_of_app. by right. }
  assert (forall v, v ∈ take n sorted -> is_Some (items t !! Key v)) as Htake.
  { intros v Hv. destruct (Hsrc v (Htop v Hv)) as (it & (q & Hq & _) & _). eauto. }
  assert (length sorted = size (items t)) as Hlens.
  { rewrite Hperm, <- Hlen.
    rewrite <- (length_fmap Key pairs). unfold pairs.
    by rewrite omap_pair_of_Key. }
  pose proof (omap_Forall2 (fun v => items t !! Key v) _ Htake) as Hr.
  exists (omap (fun v => items t !! Key v) (take n sorted)),
         (Key <$> take n sorted), (Key <$> drop n sorted).
  split; [by rewrite MostAccessed_run by (done || lia)|].
  split.
  { rewrite <- fmap_app, take_drop, Hperm. unfold pairs.
    by rewrite omap_pair_of_Key. }
  split; [by apply Forall2_fmap_l|].
  split.
  - intros k k' it it' Hk Hk' Hst Hst'.
    apply list_elem_of_fmap in Hk as (v & -> & Hv).
    apply list_elem_of_fmap in Hk' as (v' & -> & Hv').
    destruct (Hsrc v (Htop v Hv)) as (x & Hx & Hcx).
    destruct (Hsrc v' (Hrest v' Hv')) as (x' & Hx' & Hcx').
    rewrite (stored_functional _ _ _ _ Hst Hx).
    rewrite (stored_functional _ _ _ _ Hst' Hx').
    rewrite <- Hcx, <- Hcx'.
    assert (StronglySorted (fun a b : CacheItemPair => AccessCount b <= AccessCount a)
              (take n sorted ++ drop n sorted)) as Hss.
    { rewrite take_drop. apply Sorted_StronglySorted; [|apply sort_Sort_Sorted].
      intros a b c Hab Hbc. lia. }
    by apply (StronglySorted_app_1_elem_of _ _ _ _ _ Hss).
  - intros Hc. rewrite drop_ge; [done|]. unfold n. lia.
Qed.

(** ** The list that [MostAccessed] sorts *)

Lemma index_Some (p : list CacheItemPair) (i : Z) :
  0 <= i < CacheItemPairList_Len p -> is_Some (index p i).
Proof.
  unfold index, CacheItemPairList_Len. intros Hi.
  destruct (0 <=? i) eqn:H0; [|lia]. apply lookup_lt_is_Some. lia.
Qed.

Lemma index_None (p : list CacheItemPair) (i : Z) :
  i < 0 \/ CacheItemPairList_Len p <= i -> index p i = None.
Proof.
  unfold index, CacheItemPairList_Len. intros Hi.
  destruct (0 <=? i) eqn:H0; [|done]. apply lookup_ge_None. lia.
Qed.

(** X19. [CacheItemPairList] is what [sort.Sort] asks for. With indices in
    range, [Swap] exchanges the two elements and leaves the others, so the
    list keeps its length and its elements, and a second [Swap] undoes the
    first; [Less] is a strict weak order on the positions: nothing is less
    than itself, and both [Less] and its negation are transitive. An index out
    of range makes [Swap] and [Less] panic. *)
Theorem CacheItemPairList_implements_sort_Interface
  (p : list CacheItemPair) (i j : Z) :
  0 <= i < CacheItemPairList_Len p ->
  0 <= j < CacheItemPairList_Len p ->
  (exists p',
     CacheItemPairList_Swap p i j = Some p' /\
     CacheItemPairList_Len p' = CacheItemPairList_Len p /\
     p' ≡ₚ p /\
     index p' i = index p j /\
     index p' j = index p i /\
     (forall n, n <> i -> n <> j -> index p' n = index p n) /\
     CacheItemPairList_Swap p' i j = Some p) /\
  CacheItemPairList_Less p i i = Some false /\
  (forall n, 0 <= n < CacheItemPairList_Len p ->
     CacheItemPairList_Less p i j = Some true ->
     CacheItemPairList_Less p j n = Some true ->
     CacheItemPairList_Less p i n = Some true) /\
  (forall n, 0 <= n < CacheItemPairList_Len p ->
     CacheItemPairList_Less p i j = Some false ->
     CacheItemPairList_Less p j n = Some false ->
     CacheItemPairList_Less p i n = Some false) /\
  (forall n, n < 0 \/ CacheItemPairList_Len p <= n ->
     CacheItemPairList_Swap p n j = None /\
     CacheItemPairList_Swap p i n = None /\
     CacheItemPairList_Less p n j = None /\
     CacheItemPairList_Less p i n = None).
Proof.
  intros Hi Hj.
  destruct (index_Some p i Hi) as [a Ha], (index_Some p j Hj) as [b Hb].
  pose proof Ha as Ha'. pose proof Hb as Hb'.
  unfold index in Ha', Hb'.
  destruct (0 <=? i) eqn:Hi0; [|lia]. destruct (0 <=? j) eqn:Hj0; [|lia].
  unfold CacheItemPairList_Len in *.
  set (p' := <[Z.to_nat j := a]> (<[Z.to_nat i := b]> p)).
  assert (forall n, p' !! n
                    = if decide (n = Z.to_nat j) then Some a
                      else if decide (n = Z.to_nat i) then Some b
                      else p !! n) as Hlook.
  { intros n. unfold p'. destruct (decide (n = Z.to_nat j)) as [->|Hnj].
    - apply list_lookup_insert_eq. rewrite length_insert. lia.
    - rewrite list_lookup_insert_ne by done.
      destruct (decide (n = Z.to_nat i)) as [->|Hni].
      + apply list_lookup_insert_eq. lia.
      + by rewrite list_lookup_insert_ne. }
  assert (length p' = length p) as Hlen by (unfold p'; by rewrite !length_insert).
  split.
  - exists p'. split; [unfold CacheItemPairList_Swap; by rewrite Ha, Hb|].
    split; [by rewrite Hlen|].
    split.
    { apply Permutation_inj. split; [done|].
      exists (fun n => if decide (n = Z.to_nat j) then Z.to_nat i
                       else if decide (n = Z.to_nat i) then Z.to_nat j else n).
      split.
      - intros x y. repeat case_decide; lia.
      - intros n. rewrite Hlook. repeat case_decide; subst; try done; congruence. }
    split.
    { unfold index. rewrite Hi0, Hj0, Hlook.
      repeat case_decide; try done; congruence. }
    split.
    { unfold index. rewrite Hi0, Hj0, Hlook. by rewrite decide_True. }
    split.
    { intros n Hni Hnj. unfold index. destruct (0 <=? n) eqn:Hn0; [|done].
      rewrite Hlook. rewrite !decide_False by lia. done. }
    unfold CacheItemPairList_Swap, index. rewrite Hi0, Hj0, !Hlook.
    rewrite decide_True by done.
    assert (forall x, x = b ->
              <[Z.to_nat j := x]> (<[Z.to_nat i := a]> p') = p) as Hback.
    { intros x ->. apply list_eq. intros n.
      destruct (decide (n = Z.to_nat j)) as [->|Hnj].
      - rewrite list_lookup_insert_eq by (rewrite length_insert; lia). done.
      - rewrite list_lookup_insert_ne by done.
        destruct (decide (n = Z.to_nat i)) as [->|Hni].
        + rewrite list_lookup_insert_eq by lia. done.
        + rewrite list_lookup_insert_ne by done. rewrite Hlook.
          by rewrite !decide_False by done. }
    destruct (decide (Z.to_nat i = Z.to_nat j)) as [Hij|Hij].
    + rewrite Hback; [done|]. rewrite Hij in Ha'. congruence.
    + rewrite decide_True by done. by rewrite Hback.
  - unfold CacheItemPairList_Less. rewrite Ha, Hb.
    split; [f_equal; unfold Less; rewrite Z.gtb_ltb; apply Z.ltb_irrefl|]. split; [|split].
    + intros n Hn. destruct (index_Some p n Hn) as [c ->].
      unfold Less. rewrite !Z.gtb_ltb. intros [= H1] [= H2]. f_equal. lia.
    + intros n Hn. destruct (index_Some p n Hn) as [c ->].
      unfold Less. rewrite !Z.gtb_ltb. intros [= H1] [= H2]. f_equal. lia.
    + intros n Hn. unfold CacheItemPairList_Swap.
      rewrite (index_None p n) by done. rewrite ?Ha, ?Hb. done.
Qed.

(** ** The locks *)

Local Abbreviation table_step := (table_step (K:=K) (A:=A)).
Local Abbreviation item_step := (item_step (K:=K) (A:=A)).
Local Abbreviation lock_discipline := (lock_discipline (K:=K) (A:=A)).

Implicit Types (step : Mutex -> Event -> option Mutex).

Lemma mutex_run_app step (s s' : Mutex) evs1 evs2 :
  mutex_run step s evs1 = Some s' ->
  mutex_run step s (evs1 ++ evs2) = mutex_run step s' evs2.
Proof.
  revert s. induction evs1 as [|e evs1 IH]; intros s; simpl.
  - by intros [= ->].
  - destruct (step s e); [apply IH|done].
Qed.

Lemma table_opt_call f e :
  (forall c, is_callback (e c) = true) ->
  mutex_run table_step Free (opt_call f e) = Some Free.
Proof.
  intros He. destruct f as [c|]; [|done]. simpl.
  specialize (He c). by destruct (e c).
Qed.

Lemma item_opt_call p (s : Mutex) f e :
  (forall c, is_callback (e c) = true) ->
  mutex_run (item_step p) s (opt_call f e) = Some s.
Proof.
  intros He. destruct f as [c|]; [|done]. simpl.
  specialize (He c). by destruct (e c).
Qed.

Lemma table_deleteInternal_events f k r it :
  mutex_run table_step Writer (deleteInternal_events f k r it) = Some Writer.
Proof.
  unfold deleteInternal_events. simpl.
  rewrite (mutex_run_app _ _ Free); [|by apply table_opt_call]. simpl.
  rewrite (mutex_run_app _ _ Free); [|by apply table_opt_call]. done.
Qed.

Lemma item_deleteInternal_events p f k r it :
  mutex_run (item_step p) Free (deleteInternal_events f k r it) = Some Free.
Proof.
  unfold deleteInternal_events. simpl.
  rewrite (mutex_run_app _ _ Free); [|by apply item_opt_call]. simpl.
  destruct (decide (r = p)); simpl.
  - rewrite (mutex_run_app _ _ (Readers 0)); [|by apply item_opt_call]. simpl.
    repeat (case_decide; try done; simpl).
  - rewrite (mutex_run_app _ _ Free); [|by apply item_opt_call]. simpl.
    repeat (case_decide; try done; simpl).
Qed.

Lemma table_scan_step now h f k m d :
  mutex_run table_step Writer (scan_step now h f k m d).2 = Some Writer.
Proof.
  unfold scan_step.
  destruct (m !! k) as [p|]; [|done]. destruct (h !! p) as [it|]; [|done].
  destruct (lifeSpan it =? 0); [done|].
  destruct (lifeSpan it <=? Sub now (accessedOn it)); [|done].
  simpl. apply table_deleteInternal_events.
Qed.

Lemma item_scan_step p now h f k m d :
  mutex_run (item_step p) Free (scan_step now h f k m d).2 = Some Free.
Proof.
  unfold scan_step.
  destruct (m !! k) as [q|]; [|done]. destruct (h !! q) as [it|]; [|done].
  assert (mutex_run (item_step p) Free [ItemRLock q; ItemRUnlock q] = Some Free)
    as Hq by (simpl; destruct (decide (q = p)); done).
  destruct (lifeSpan it =? 0); [done|].
  destruct (lifeSpan it <=? Sub now (accessedOn it)); [|done].
  cbn [snd]. rewrite (mutex_run_app _ _ _ _ _ Hq).
  apply item_deleteInternal_events.
Qed.

Lemma table_scan now h f order : forall m d,
  mutex_run table_step Writer (scan now h f order m d).2 = Some Writer.
Proof.
  induction order as [|k order IH]; intros m d; [done|]. simpl.
  pose proof (table_scan_step now h f k m d) as Hs.
  destruct (scan_step now h f k m d) as [[m1 d1] e1].
  specialize (IH m1 d1).
  destruct (scan now h f order m1 d1) as [[m2 d2] e2]. simpl in *.
  by rewrite (mutex_run_app _ _ _ _ _ Hs).
Qed.

Lemma item_scan p now h f order : forall m d,
  mutex_run (item_step p) Free (scan now h f order m d).2 = Some Free.
Proof.
  induction order as [|k order IH]; intros m d; [done|]. simpl.
  pose proof (item_scan_step p now h f k m d) as Hs.
  destruct (scan_step now h f k m d) as [[m1 d1] e1].
  specialize (IH m1 d1).
  destruct (scan now h f order m1 d1) as [[m2 d2] e2]. simpl in *.
  by rewrite (mutex_run_app _ _ _ _ _ Hs).
Qed.

Lemma expirationCheck_events_discipline now h order t :
  lock_discipline (expirationCheck_events now h order t).
Proof.
  unfold expirationCheck_events. split; [|intros p]; simpl.
  - rewrite (mutex_run_app _ _ Writer); [done|apply table_scan].
  - rewrite (mutex_run_app _ _ Free); [done|apply item_scan].
Qed.

Lemma table_addInternal_events now h order item it t :
  mutex_run table_step Writer (addInternal_events now h order item it t)
  = Some Free.
Proof.
  unfold addInternal_events. simpl.
  rewrite (mutex_run_app _ _ Free); [|by apply table_opt_call].
  destruct (check_needed _ _); [|done].
  apply expirationCheck_events_discipline.
Qed.

Lemma item_addInternal_events p now h order item it t :
  mutex_run (item_step p) Free (addInternal_events now h order item it t)
  = Some Free.
Proof.
  unfold addInternal_events. simpl.
  rewrite (mutex_run_app _ _ Free); [|by apply item_opt_call].
  destruct (check_needed _ _); [|done].
  apply expirationCheck_events_discipline.
Qed.

(** X20. [Delete] takes the table's mutex and gives it back; in between it
    gives it up for the two callbacks and takes it again for the removal. The
    lookup and the removal happen with the mutex held for writing, the
    callbacks run with the mutex free, and the read lock of the item, taken
    twice, is given back twice. *)
Theorem Delete_lock_discipline (k : K) (w : World) :
  ptrs_valid w ->
  exists res w' evs,
    Delete k w = Some (res, w') /\
    trace w' = trace w ++ evs /\
    lock_discipline evs.
Proof.
  destruct w as [h t tr]. unfold ptrs_valid. simpl. intros Hm.
  destruct (items t !! k) as [r|] eqn:Hk.
  - destruct (Hm k r Hk) as [it Hr].
    do 3 eexists. split; [by apply Delete_present|]. split; [done|].
    split; [|intros p]; simpl.
    + rewrite (mutex_run_app _ _ Writer); [done|apply table_deleteInternal_events].
    + rewrite (mutex_run_app _ _ Free); [done|apply item_deleteInternal_events].
  - do 3 eexists. split; [by apply Delete_absent|]. split; [done|].
    split; [done|by intros p].
Qed.

(** X21. [expirationCheck] takes the table's mutex once and gives it back at
    the end; around the callbacks of every deletion it gives it up and takes
    it again. No callback runs with the mutex held, and no item is left
    locked. *)
Theorem expirationCheck_lock_discipline (now : Time) (order : list K)
  (w : World) :
  ptrs_valid w ->
  exists w' evs,
    expirationCheck now order w = Some (tt, w') /\
    trace w' = trace w ++ evs /\
    lock_discipline evs.
Proof.
  destruct w as [h t tr]. unfold ptrs_valid. simpl. intros Hm.
  do 2 eexists. split; [by apply expirationCheck_run|]. split; [done|].
  apply expirationCheck_events_discipline.
Qed.

(** X22. [Add] and [NotFoundAdd] put the item into the map with the table's
    mutex held for writing, give the mutex up before they call the [addedItem]
    callback, and leave it to the expiration check, when they run one, to take
    the mutex again; in the end the mutex is free, also when [NotFoundAdd]
    finds the key. *)
Theorem Add_lock_discipline (now1 now2 : Time) (order : list K) (k : K)
  (l : Duration) (d : D) (w : World) :
  ptrs_valid w ->
  (exists item w' evs,
     Add now1 now2 order k l d w = Some (item, w') /\
     trace w' = trace w ++ evs /\
     lock_discipline evs) /\
  (exists b w' evs,
     NotFoundAdd now1 now2 order k l d w = Some (b, w') /\
     trace w' = trace w ++ evs /\
     lock_discipline evs).
Proof.
  destruct w as [h t tr]. unfold ptrs_valid. simpl. intros Hm. split.
  - do 3 eexists. split; [by apply Add_run|]. split; [done|].
    split; [|intros p].
    + rewrite (mutex_run_app _ _ Writer) by done. apply table_addInternal_events.
    + rewrite (mutex_run_app _ _ Free) by done. apply item_addInternal_events.
  - destruct (items t !! k) as [r|] eqn:Hk.
    + do 3 eexists. split; [by eapply NotFoundAdd_present|]. split; [done|].
      split; [done|by intros p].
    + do 3 eexists. split; [by apply NotFoundAdd_absent|]. split; [done|].
      split; [|intros p].
      * rewrite (mutex_run_app _ _ Writer) by done. apply table_addInternal_events.
      * rewrite (mutex_run_app _ _ Free) by done. apply item_addInternal_events.
Qed.


(** ** The locks of the other operations *)





(** *** Checking the side conditions on a given world *)

Lemma range_order_check (m : gmap K Ptr) (order : list K) :
  NoDup order ->
  Forall (fun k => is_Some (m !! k)) order ->
  length order = size m ->
  range_order m order.
Proof.
  intros Hnd Hall Hlen. split; [done|].
  assert (order ≡ₚ (map_to_list m).*1) as Hperm.
  { apply submseteq_length_Permutation.
    - apply NoDup_submseteq; [done|]. intros k Hk.
      rewrite Forall_forall in Hall. destruct (Hall k Hk) as [p Hp].
      apply list_elem_of_fmap. exists (k, p). split; [done|].
      by apply elem_of_map_to_list.
    - rewrite length_fmap, length_map_to_list. lia. }
  intros k. rewrite Hperm, list_elem_of_fmap. split.
  - intros ([k' p] & -> & Hp). exists p. by apply elem_of_map_to_list.
  - intros [p Hp]. exists (k, p). split; [done|]. by apply elem_of_map_to_list.
Qed.

Lemma ptrs_validb_ok w : ptrs_validb w = true -> ptrs_valid w.
Proof. unfold ptrs_validb. intros Hb. by apply bool_decide_eq_true in Hb. Qed.

Lemma range_orderb_ok m order : range_orderb m order = true -> range_order m order.
Proof.
  unfold range_orderb. rewrite !andb_true_iff, !bool_decide_eq_true.
  intros [[Hnd Hall] Hlen]. by apply range_order_check.
Qed.

Lemma timestamps_okb_ok now w : timestamps_okb now w = true -> timestamps_ok now w.
Proof.
  unfold timestamps_okb. rewrite bool_decide_eq_true.
  intros Hall k it (p & Hk & Hp). specialize (Hall k p Hk). simpl in Hall.
  unfold item_times_okb in Hall. rewrite Hp in Hall.
  rewrite !andb_true_iff, !Z.leb_le in Hall. unfold Int64.in_range. lia.
Qed.

End properties.

(** ** Worked examples *)

Section examples.

Local Open Scope string_scope.

Lemma ex_world_valid : ptrs_valid ex_world.
Proof. apply ptrs_validb_ok. vm_compute. reflexivity. Defined.

Lemma ex_order_ok : range_order (items (table ex_world)) ex_order.
Proof. apply range_orderb_ok. vm_compute. reflexivity. Defined.

Lemma ex_times_ok : timestamps_ok 6 ex_world.
Proof. apply timestamps_okb_ok. vm_compute. reflexivity. Defined.

Lemma ex_stored_a : stored ex_world "a" ex_a.
Proof. exists 0%nat. split; reflexivity. Defined.

Lemma ex_stored_b : stored ex_world "b" ex_b.
Proof. exists 1%nat. split; reflexivity. Defined.

Lemma ex_stored_c : stored ex_world "c" ex_c.
Proof. exists 2%nat. split; reflexivity. Defined.

(** At time 6 the check deletes ["a"] (idle for 6, lifespan 5), keeps ["b"]
    (no lifespan) and ["c"] (idle for 5, lifespan 8), and waits 3 more. *)
Example expirationCheck_example :
  exists w',
    expirationCheck 6 ex_order ex_world = Some (tt, w') /\
    items (table w') = <["b" := 1%nat]> (<["c" := 2%nat]> ∅) /\
    cleanupInterval (table w') = 3 /\
    cleanupTimer (table w') = Some (AfterFunc 3) /\
    filter is_callback (trace w')
    = [CallAboutToDeleteItem 1%nat 0%nat; CallAboutToExpire 2%nat "a"].
Proof.
  eexists. split; [vm_compute; reflexivity|].
  vm_compute. repeat split; reflexivity.
Qed.

Lemma expirationCheck_deletes_due_items_witness :
  ptrs_valid ex_world /\
  range_order (items (table ex_world)) ex_order /\
  timestamps_ok 6 ex_world /\
  exists w',
    expirationCheck 6 ex_order ex_world = Some (tt, w') /\
    items (table w') !! "a" = None /\
    items (table w') !! "b" = Some 1%nat /\
    items (table w') !! "c" = Some 2%nat /\
    scheduler_minimal 6 w'.
Proof.
  split; [exact ex_world_valid|]. split; [exact ex_order_ok|].
  split; [exact ex_times_ok|].
  destruct (expirationCheck_deletes_due_items 6 ex_order ex_world
              ex_world_valid ex_order_ok ex_times_ok)
    as (w' & Hrun & _ & Hdel & Hkeep & _ & _ & Hsched).
  exists w'. split; [exact Hrun|].
  split; [apply (Hdel "a" ex_a ex_stored_a); simpl; lia|].
  split; [rewrite (Hkeep "b" ex_b ex_stored_b); [reflexivity|simpl; lia]|].
  split; [rewrite (Hkeep "c" ex_c ex_stored_c); [reflexivity|simpl; lia]|].
  exact Hsched.
Defined.

Lemma Delete_callbacks_then_removal_witness :
  ptrs_valid ex_world /\
  exists w',
    Delete "a" ex_world = Some ((Some 0%nat, None), w') /\
    w' = mkWorld [ex_a; ex_b; ex_c]
                 (set_items (delete "a" (items ex_table)) ex_table)
                 [TableLock; MapGet "a"; TableUnlock;
                  CallAboutToDeleteItem 1%nat 0%nat; ItemRLock 0%nat;
                  CallAboutToExpire 2%nat "a";
                  TableLock; ItemRLock 0%nat; ItemRUnlock 0%nat;
                  MapDelete "a"; ItemRUnlock 0%nat; TableUnlock] /\
    items (table w') !! "a" = None /\
    items (table w') !! "b" = Some 1%nat /\
    items (table w') !! "c" = Some 2%nat /\
    size (items (table w')) = 2%nat.
Proof.
  split; [exact ex_world_valid|].
  destruct (Delete_callbacks_then_removal "a" ex_world ex_world_valid) as [_ Hp].
  destruct (Hp 0%nat eq_refl)
    as (it & w' & Hit & Hrun & Hw & Ha & Hother & Hsize & _).
  injection Hit as <-. exists w'. split; [exact Hrun|]. split; [exact Hw|].
  split; [exact Ha|].
  split; [rewrite (Hother "b"); [reflexivity|discriminate]|].
  split; [rewrite (Hother "c"); [reflexivity|discriminate]|].
  rewrite Hsize. reflexivity.
Defined.

Lemma Value_outcomes_witness :
  ptrs_valid ex_world /\
  (exists res w',
     Value 7 7 ("x" :: ex_order) "x" [] ex_world = Some (res, w') /\
     exists item, res = (Some item, None)) /\
  (exists res w',
     Value 7 7 ex_order "y" [] ex_world = Some (res, w') /\
     res = (None, Some ErrKeyNotFoundOrLoadable)) /\
  (exists res w',
     Value 7 7 ex_order "a" [] ex_world = Some (res, w') /\
     res = (Some 0%nat, None)).
Proof.
  split; [exact ex_world_valid|]. split; [|split].
  - destruct (Value_outcomes 7 7 ("x" :: ex_order) "x" [] ex_world ex_world_valid)
      as (res & w' & Hrun & Hres).
    exists res, w'. split; [exact Hrun|exact Hres].
  - destruct (Value_outcomes 7 7 ex_order "y" [] ex_world ex_world_valid)
      as (res & w' & Hrun & Hres).
    exists res, w'. split; [exact Hrun|exact Hres].
  - destruct (Value_outcomes 7 7 ex_order "a" [] ex_world ex_world_valid)
      as (res & w' & Hrun & Hres).
    exists res, w'. split; [exact Hrun|exact Hres].
Defined.

(** [Value] of ["a"] at time 4: one more access, and the clock starts again. *)
Lemma Value_hit_keeps_alive_witness :
  items (table ex_world) !! "a" = Some 0%nat /\
  heap ex_world !! 0%nat = Some ex_a /\
  exists w',
    Value 4 4 ex_order "a" [] ex_world = Some ((Some 0%nat, None), w') /\
    heap w' !! 0%nat
    = Some {| key := "a"; data := "alpha"; lifeSpan := 5;
              createdOn := 0; accessedOn := 4; accessCount := 6;
              aboutToExpire := Some 2%nat |} /\
    (forall now, expired now (kept_alive 4 ex_a) = true <-> 4 + 5 <= now).
Proof.
  split; [reflexivity|]. split; [reflexivity|].
  destruct (Value_hit_keeps_alive 4 4 ex_order "a" [] ex_world 0%nat ex_a
              eq_refl eq_refl)
    as (w' & Hrun & _ & _ & Hheap & _ & _ & _ & _ & Hdue).
  exists w'. split; [exact Hrun|]. split; [exact Hheap|].
  apply Hdue. vm_compute. split; [reflexivity|discriminate].
Defined.

Lemma NotFoundAdd_check_then_insert_witness :
  ptrs_valid ex_world /\
  NotFoundAdd 7 7 ex_order "a" 9 "other" ex_world
  = Some (false, mkWorld (heap ex_world) (table ex_world)
                         [TableLock; MapGet "a"; TableUnlock]) /\
  exists w' evs,
    NotFoundAdd 7 7 ("z" :: ex_order) "z" 9 "omega" ex_world = Some (true, w') /\
    heap w' = [ex_a; ex_b; ex_c; new_item 7 "z" 9 "omega"] /\
    trace w' = ([TableLock; MapGet "z"; MapSet "z" 3%nat; TableUnlock] ++ evs)%list /\
    items (table w') !! "z" = Some 3%nat.
Proof.
  split; [exact ex_world_valid|].
  split.
  - destruct (NotFoundAdd_check_then_insert 7 7 ex_order "a" 9 "other" ex_world
                ex_world_valid) as [Hp _].
    exact (Hp 0%nat eq_refl).
  - destruct (NotFoundAdd_check_then_insert 7 7 ("z" :: ex_order) "z" 9 "omega"
                ex_world ex_world_valid) as [_ Ha].
    destruct (Ha eq_refl) as (w' & evs & Hrun & Hheap & Htrace & Hin & _).
    exists w', evs. split; [exact Hrun|]. split; [exact Hheap|].
    split; [exact Htrace|]. apply Hin. reflexivity.
Defined.

Lemma Value_loaded_is_cached_witness :
  ptrs_valid ex_world /\
  items (table ex_world) !! "x" = None /\
  loadData (table ex_world) = Some ex_loader /\
  ex_loader "x" [] = Some ex_loaded /\
  expired 7 (new_item 7 "x" 3 "loaded") = false /\
  exists w',
    Value 7 7 ("x" :: ex_order) "x" [] ex_world = Some ((Some 3%nat, None), w') /\
    stored w' "x" (new_item 7 "x" 3 "loaded") /\
    exists w'',
      Value 8 8 ("x" :: ex_order) "x" [] w' = Some ((Some 4%nat, None), w'') /\
      filter is_callback (new_events (Value 8 8 ("x" :: ex_order) "x" []) w') = [].
Proof.
  split; [exact ex_world_valid|]. do 4 (split; [reflexivity|]).
  destruct (Value_loaded_is_cached 7 7 ("x" :: ex_order) "x" [] ex_world
              ex_loader ex_loaded ex_world_valid eq_refl eq_refl eq_refl
              (or_intror eq_refl))
    as (w' & Hrun & _ & Hst & Hnext).
  exists w'. split; [exact Hrun|]. split; [exact Hst|].
  exact (Hnext 8 8 ("x" :: ex_order) []).
Defined.

Lemma Value_returns_the_loaders_item_witness :
  ptrs_valid ex_world /\
  items (table ex_world) !! "x" = None /\
  loadData (table ex_world) = Some ex_loader /\
  ex_loader "x" [] = Some ex_loaded /\
  exists w',
    Value 7 7 ("x" :: ex_order) "x" [] ex_world = Some ((Some 3%nat, None), w') /\
    heap w' = [ex_a; ex_b; ex_c; ex_loaded; new_item 7 "x" 3 "loaded"] /\
    (forall k', items (table w') !! k' <> Some 3%nat) /\
    items (table w') !! "x" = Some 4%nat.
Proof.
  split; [exact ex_world_valid|]. do 3 (split; [reflexivity|]).
  destruct (Value_returns_the_loaders_item 7 7 ("x" :: ex_order) "x" [] ex_world
              ex_loader ex_loaded ex_world_valid eq_refl eq_refl eq_refl)
    as (w' & Hrun & Hheap & _ & _ & Hnot & Hin & _).
  exists w'. split; [exact Hrun|]. split; [exact Hheap|]. split; [exact Hnot|].
  destruct Hin as [Hin|[_ Hexp]]; [exact Hin|discriminate Hexp].
Defined.

Lemma ex_keys k : is_Some (items (table ex_world) !! k) -> k = "a" \/ k = "b" \/ k = "c".
Proof.
  intros [p Hp]. simpl in Hp.
  rewrite !lookup_insert_Some, lookup_empty in Hp.
  destruct Hp as [[<- _]|[_ [[<- _]|[_ [[<- _]|[_ [=]]]]]]]; auto.
Qed.

(** The three items were accessed 5, 1 and 3 times. *)
Lemma MostAccessed_sorted_top_witness :
  ptrs_valid ex_world /\
  range_order (items (table ex_world)) ex_order /\
  Z.of_nat (size (items (table ex_world))) <= Int64.max_int64 /\
  exists w', MostAccessed ex_order 2 ex_world = Some ([0%nat; 2%nat], w').
Proof.
  assert (Z.of_nat (size (items (table ex_world))) <= Int64.max_int64) as Hsize.
  { vm_compute. discriminate. }
  split; [exact ex_world_valid|]. split; [exact ex_order_ok|].
  split; [exact Hsize|].
  destruct (MostAccessed_sorted_top ex_order 2 ex_world
              ex_world_valid ex_order_ok Hsize)
    as (r & sorted & Hrun & _ & _ & _ & _ & _ & _ & Hex).
  destruct (Hex "a" "b" "c" ex_a ex_b ex_c eq_refl
              ex_stored_a ex_stored_b ex_stored_c eq_refl eq_refl eq_refl ex_keys)
    as (p5 & p3 & H5 & H3 & Hr).
  injection H5 as <-. injection H3 as <-. subst r.
  eexists. exact Hrun.
Defined.

(** The same, computed: the trace shows the two lookups of the second
    loop. *)
Example MostAccessed_example :
  MostAccessed ex_order 2 ex_world
  = Some ([0%nat; 2%nat],
          mkWorld (heap ex_world) (table ex_world)
                  [TableRLock; MapGet "a"; MapGet "c"; TableRUnlock]).
Proof. vm_compute. reflexivity. Qed.

(** Among items with the same count the iteration order of the map
    decides which ones are returned. *)
Example MostAccessed_ties_follow_the_iteration :
  fst <$> MostAccessed ["a"; "b"] 1 tie_world = Some [0%nat] /\
  fst <$> MostAccessed ["b"; "a"] 1 tie_world = Some [1%nat].
Proof. split; vm_compute; reflexivity. Qed.

Lemma scheduler_set_by_check_and_Flush_witness :
  ptrs_valid ex_world /\
  (exists w', expirationCheck 6 ex_order ex_world = Some (tt, w') /\
              scheduler_minimal 6 w') /\
  (exists w', Flush ex_world = Some (tt, w') /\ scheduler_minimal 6 w') /\
  (exists res w', Delete "a" ex_world = Some (res, w') /\
                  cleanupInterval (table w') = 5 /\
                  cleanupTimer (table w') = Some (AfterFunc 5)).
Proof.
  split; [exact ex_world_valid|].
  destruct (scheduler_set_by_check_and_Flush ex_world ex_world_valid)
    as (Hcheck & Hflush & _ & _ & _ & Hdelete).
  split; [exact (Hcheck 6 ex_order ex_order_ok ex_times_ok)|].
  split; [exact (Hflush 6)|]. exact (Hdelete "a").
Defined.

(** A lifespan of 20: the item is added at 0 and looked up at 10 and at
    25.  The checks at 20 and at 30 find it alive and wait for the rest of
    its lifespan; the lookup at 35 finds it still, since the lookup at 25
    has started the clock again; the check at 45 deletes it, and the lookup
    at 50 fails. *)
Example keep_alive_scenario :
  exists w1 w2 w3 w4 w5 w6 w7 w8,
    Add 0 0 ["a"] "a" 20 "d" empty_world = Some (0%nat, w1) /\
    cleanupInterval (table w1) = 20 /\
    Value 10 10 ["a"] "a" [] w1 = Some ((Some 0%nat, None), w2) /\
    expirationCheck 20 ["a"] w2 = Some (tt, w3) /\
    items (table w3) !! "a" = Some 0%nat /\
    cleanupInterval (table w3) = 10 /\
    Value 25 25 ["a"] "a" [] w3 = Some ((Some 0%nat, None), w4) /\
    expirationCheck 30 ["a"] w4 = Some (tt, w5) /\
    items (table w5) !! "a" = Some 0%nat /\
    cleanupInterval (table w5) = 15 /\
    Value 35 35 ["a"] "a" [] w5 = Some ((Some 0%nat, None), w6) /\
    expirationCheck 55 ["a"] w6 = Some (tt, w7) /\
    items (table w7) !! "a" = None /\
    disarmed (table w7) /\
    Value 60 60 [] "a" [] w7 = Some ((None, Some ErrKeyNotFound), w8).
Proof.
  do 8 eexists.
  split; [vm_compute; reflexivity|]. split; [reflexivity|].
  split; [vm_compute; reflexivity|].
  split; [vm_compute; reflexivity|].
  split; [reflexivity|]. split; [reflexivity|].
  split; [vm_compute; reflexivity|].
  split; [vm_compute; reflexivity|].
  split; [reflexivity|]. split; [reflexivity|].
  split; [vm_compute; reflexivity|].
  split; [vm_compute; reflexivity|].
  split; [reflexivity|]. split; [split; reflexivity|].
  vm_compute. reflexivity.
Qed.

(** *** Where the code and the specification part ways *)

(** C1 fails for an item with a negative lifespan: its lifespan is not
    positive, and the expiration check deletes it all the same. *)
Lemma expirationCheck_deletes_negative_lifespan :
  Add 0 0 ["n"] "n" (-1) "d" empty_world = Some (0%nat, negative_world) /\
  ptrs_valid negative_world /\
  range_order (items (table negative_world)) ["n"] /\
  timestamps_ok 1 negative_world /\
  stored negative_world "n" (new_item 0 "n" (-1) "d") /\
  lifeSpan (new_item 0 "n" (-1) "d" : @CacheItem string string) <= 0 /\
  exists w',
    expirationCheck 1 ["n"] negative_world = Some (tt, w') /\
    items (table w') !! "n" = None.
Proof.
  split; [vm_compute; reflexivity|].
  split; [apply ptrs_validb_ok; vm_compute; reflexivity|].
  split; [apply range_orderb_ok; vm_compute; reflexivity|].
  split; [apply timestamps_okb_ok; vm_compute; reflexivity|].
  split; [exists 0%nat; split; reflexivity|].
  split; [simpl; lia|].
  eexists. split; [vm_compute; reflexivity|]. vm_compute. reflexivity.
Qed.

(** C3 fails for [Delete]: the scheduler waits for the least remaining
    lifespan before the deletion of the only item, and stays armed for it
    after, when no item with a lifespan is left. *)
Lemma Delete_leaves_the_scheduler_armed :
  Add 0 0 ["a"] "a" 5 "d" empty_world = Some (0%nat, armed_world) /\
  scheduler_minimal 0 armed_world /\
  exists res w',
    Delete "a" armed_world = Some (res, w') /\
    items (table w') = ∅ /\
    cleanupInterval (table w') = 5 /\
    cleanupTimer (table w') = Some (AfterFunc 5) /\
    ~ scheduler_minimal 0 w'.
Proof.
  split; [vm_compute; reflexivity|]. split.
  - right. exists "a", (new_item 0 "a" 5 "d").
    split; [exists 0%nat; split; reflexivity|].
    split; [simpl; lia|]. split; [split; reflexivity|].
    intros k' it' (p & Hk & Hp) _. simpl in Hk, Hp.
    apply lookup_insert_Some in Hk as [[<- <-]|[_ Hk]].
    + injection Hp as <-. lia.
    + by rewrite lookup_empty in Hk.
  - do 2 eexists.
    split; [by apply (Delete_present "a" 0%nat (new_item 0 "a" 5 "d"))|].
    simpl. split; [by rewrite delete_insert_eq, delete_empty|].
    split; [reflexivity|]. split; [reflexivity|].
    intros [[_ [Hint _]]|(k & it & (p & Hk & _) & _)].
    + discriminate Hint.
    + simpl in Hk. rewrite delete_insert_eq, delete_empty in Hk.
      by rewrite lookup_empty in Hk.
Qed.

(** C5 fails for the key of the loaded item: [Value] adds the key that was
    asked for, and the key of the item the data-loader returned is not
    added. *)
Lemma Value_adds_the_requested_key :
  items (table other_world) !! "k" = None /\
  loadData (table other_world) = Some other_loader /\
  other_loader "k" [] = Some other_loaded /\
  key other_loaded = "other" /\
  exists w',
    Value 0 0 ["k"] "k" [] other_world = Some ((Some 0%nat, None), w') /\
    heap w' !! 0%nat = Some other_loaded /\
    items (table w') !! "other" = None /\
    items (table w') !! "k" = Some 1%nat /\
    heap w' !! 1%nat = Some (new_item 0 "k" 0 "loaded").
Proof.
  do 4 (split; [reflexivity|]).
  eexists. split; [vm_compute; reflexivity|].
  repeat split; vm_compute; reflexivity.
Qed.

(** C10 fails for the key of the new item: it is the key that was asked
    for, not the key of the item the data-loader returned; the lifespan and
    the data are those of the loaded item. *)
Lemma Value_new_item_has_the_requested_key :
  exists w' it,
    Value 0 0 ["k"] "k" [] other_world = Some ((Some 0%nat, None), w') /\
    heap w' !! 0%nat = Some other_loaded /\
    stored w' "k" it /\
    key it = "k" /\
    key other_loaded = "other" /\
    key it <> key other_loaded /\
    lifeSpan it = lifeSpan other_loaded /\
    data it = data other_loaded.
Proof.
  exists (mkWorld [other_loaded; new_item 0 "k" 0 "loaded"]
                  (mkCacheTable "myCache" (<["k" := 1%nat]> ∅) None 0
                                (Some other_loader) None None)
                  [TableRLock; MapGet "k"; TableRUnlock; CallLoadData "k" [];
                   TableLock; MapSet "k" 1%nat; TableUnlock]),
         (new_item 0 "k" 0 "loaded").
  split; [vm_compute; reflexivity|]. split; [reflexivity|].
  split; [exists 1%nat; split; reflexivity|].
  split; [reflexivity|]. split; [reflexivity|].
  split; [discriminate|]. split; reflexivity.
Qed.

(** *** More of the table of the examples *)

Lemma ex_only_a k : items (table ex_world) !! k = Some 0%nat -> k = "a".
Proof.
  intros Hk. simpl in Hk.
  rewrite !lookup_insert_Some, lookup_empty in Hk.
  destruct Hk as [[<- _]|[_ [[_ [=]]|[_ [[_ [=]]|[_ [=]]]]]]]. reflexivity.
Qed.


Lemma empty_registry_ok : registry_ok empty_registry.
Proof. intros n p Hn. simpl in Hn. by rewrite lookup_empty in Hn. Defined.

Lemma Delete_lock_discipline_witness :
  ptrs_valid ex_world /\
  exists res w' evs,
    Delete "a" ex_world = Some (res, w') /\
    trace w' = (trace ex_world ++ evs)%list /\
    lock_discipline evs.
Proof.
  split; [exact ex_world_valid|].
  exact (Delete_lock_discipline "a" ex_world ex_world_valid).
Defined.

Lemma expirationCheck_lock_discipline_witness :
  ptrs_valid ex_world /\
  exists w' evs,
    expirationCheck 6 ex_order ex_world = Some (tt, w') /\
    trace w' = (trace ex_world ++ evs)%list /\
    lock_discipline evs.
Proof.
  split; [exact ex_world_valid|].
  exact (expirationCheck_lock_discipline 6 ex_order ex_world ex_world_valid).
Defined.

Lemma Add_lock_discipline_witness :
  ptrs_valid ex_world /\
  (exists item w' evs,
     Add 7 7 ("n" :: ex_order) "n" 4 "d" ex_world = Some (item, w') /\
     trace w' = (trace ex_world ++ evs)%list /\
     lock_discipline evs) /\
  (exists b w' evs,
     NotFoundAdd 7 7 ("n" :: ex_order) "n" 4 "d" ex_world = Some (b, w') /\
     trace w' = (trace ex_world ++ evs)%list /\
     lock_discipline evs).
Proof.
  split; [exact ex_world_valid|].
  exact (Add_lock_discipline 7 7 ("n" :: ex_order) "n" 4 "d" ex_world
           ex_world_valid).
Defined.



Lemma operations_keep_the_items_witness :
  ptrs_valid ex_world /\
  (exists item w',
     Add 7 7 ("n" :: ex_order) "n" 4 "d" ex_world = Some (item, w') /\
     ptrs_valid w' /\ heap_kept (heap ex_world) (heap w')) /\
  (exists res w',
     Value 7 7 ex_order "a" [] ex_world = Some (res, w') /\
     ptrs_valid w' /\ heap_kept (heap ex_world) (heap w')).
Proof.
  split; [exact ex_world_valid|].
  destruct (operations_keep_the_items ex_world ex_world_valid)
    as (HAdd & _ & HValue & _).
  split; [exact (HAdd 7 7 ("n" :: ex_order) "n" 4 "d")|].
  exact (HValue 7 7 ex_order "a" []).
Defined.

Lemma Add_then_lookup_witness :
  ptrs_valid ex_world /\
  expired 7 (new_item 7 "n" 4 "d") = false /\
  exists item w',
    Add 7 7 ("n" :: ex_order) "n" 4 "d" ex_world = Some (item, w') /\
    items (table w') !! "n" = Some item /\
    (exists w'', Exists "n" w' = Some (true, w'')) /\
    exists w'',
      Value 8 8 ("n" :: ex_order) "n" [] w' = Some ((Some item, None), w'').
Proof.
  split; [exact ex_world_valid|]. split; [reflexivity|].
  destruct (Add_then_lookup 7 7 ("n" :: ex_order) "n" 4 "d" ex_world
              ex_world_valid (or_intror eq_refl))
    as (item & w' & Hadd & Hk & _ & Hex & Hval).
  exists item, w'. split; [exact Hadd|]. split; [exact Hk|].
  split; [exact Hex|].
  destruct (Hval 8 8 ("n" :: ex_order) []) as (w'' & Hv & _).
  exists w''. exact Hv.
Defined.

Lemma accessors_after_Add_and_Value_witness :
  ptrs_valid ex_world /\
  exists item w',
    Add 7 7 ("n" :: ex_order) "n" 4 "d" ex_world = Some (item, w') /\
    CacheItem_Key item w' = Some ("n", w') /\
    CacheItem_Data item w' = Some ("d", w') /\
    CacheItem_LifeSpan item w' = Some (4, w') /\
    CacheItem_CreatedOn item w' = Some (7, w') /\
    fst <$> CacheItem_AccessedOn item w' = Some 7 /\
    fst <$> CacheItem_AccessCount item w' = Some 0.
Proof.
  split; [exact ex_world_valid|].
  destruct (accessors_after_Add_and_Value 7 7 ("n" :: ex_order) "n" 4 "d"
              ex_world ex_world_valid)
    as (item & w' & Hadd & Hk & Hd & Hl & Hc & Ha & Hn & _).
  exists item, w'. repeat (split; [assumption|]). exact Hn.
Defined.

Lemma Add_replaces_without_callbacks_witness :
  ptrs_valid ex_world /\
  items (table ex_world) !! "a" = Some 0%nat /\
  (forall k', items (table ex_world) !! k' = Some 0%nat -> k' = "a") /\
  exists item w' evs,
    Add 7 7 ex_order "a" 0 "new" ex_world = Some (item, w') /\
    trace w' = (trace ex_world ++ evs)%list /\
    item <> 0%nat /\
    heap w' !! 0%nat = heap ex_world !! 0%nat /\
    (forall c, CallAboutToDeleteItem c 0%nat ∉ evs) /\
    (forall c, CallAboutToExpire c "a" ∉ evs) /\
    fst <$> Count w' = fst <$> Count ex_world.
Proof.
  split; [exact ex_world_valid|]. split; [reflexivity|].
  split; [exact ex_only_a|].
  destruct (Add_replaces_without_callbacks 7 7 ex_order "a" 0 "new" ex_world
              0%nat ex_world_valid eq_refl ex_only_a)
    as (item & w' & evs & Hadd & Htr & Hne & _ & Hold & _ & _ & Hd & He & Hc).
  exists item, w', evs. do 6 (split; [assumption|]). exact (Hc eq_refl).
Defined.

Lemma Delete_then_absent_witness :
  ptrs_valid ex_world /\
  items (table ex_world) !! "a" = Some 0%nat /\
  exists w',
    Delete "a" ex_world = Some ((Some 0%nat, None), w') /\
    fst <$> Exists "a" w' = Some false /\
    fst <$> Count w' = Some 2 /\
    fst <$> Delete "a" w' = Some (None, Some ErrKeyNotFound).
Proof.
  split; [exact ex_world_valid|]. split; [reflexivity|].
  destruct (Delete_then_absent "a" ex_world 0%nat ex_world_valid eq_refl)
    as (w' & Hdel & _ & _ & Hex & (n & Hn & Hn') & Hagain).
  exists w'. split; [exact Hdel|]. split; [exact Hex|].
  split; [|by rewrite Hagain].
  vm_compute in Hn. injection Hn as <-. exact Hn'.
Defined.

Lemma NotFoundAdd_keeps_the_first_witness :
  ptrs_valid ex_world /\
  items (table ex_world) !! "n" = None /\
  expired 7 (new_item 7 "n" 4 "d") = false /\
  exists w',
    NotFoundAdd 7 7 ("n" :: ex_order) "n" 4 "d" ex_world = Some (true, w') /\
    stored w' "n" (new_item 7 "n" 4 "d") /\
    exists w'',
      NotFoundAdd 8 8 ("n" :: ex_order) "n" 9 "other" w' = Some (false, w'') /\
      stored w'' "n" (new_item 7 "n" 4 "d").
Proof.
  split; [exact ex_world_valid|]. split; [reflexivity|]. split; [reflexivity|].
  destruct (NotFoundAdd_keeps_the_first 7 7 ("n" :: ex_order) "n" 4 "d"
              ex_world ex_world_valid eq_refl (or_intror eq_refl))
    as (w' & Hadd & Hst & Hagain).
  exists w'. split; [exact Hadd|]. split; [exact Hst|].
  eexists. split; [exact (Hagain 8 8 ("n" :: ex_order) 9 "other")|].
  exact Hst.
Defined.

Lemma item_lives_a_lifespan_after_its_last_access_witness :
  ptrs_valid ex_world /\
  0 < 4 <= Int64.max_int64 /\
  7 < 7 + 4 /\
  exists item w1,
    Add 7 7 ("n" :: ex_order) "n" 4 "d" ex_world = Some (item, w1) /\
    (exists w2, expirationCheck 10 ["n"] w1 = Some (tt, w2) /\
                items (table w2) !! "n" = Some item) /\
    (exists w2, expirationCheck 11 ["n"] w1 = Some (tt, w2) /\
                items (table w2) !! "n" = None) /\
    exists w3,
      Value 9 9 ["n"] "n" [] w1 = Some ((Some item, None), w3) /\
      (exists w4, expirationCheck 12 ["n"] w3 = Some (tt, w4) /\
                  items (table w4) !! "n" = Some item) /\
      (exists w4, expirationCheck 13 ["n"] w3 = Some (tt, w4) /\
                  items (table w4) !! "n" = None).
Proof.
  assert (0 < 4 <= Int64.max_int64) as Hl by (unfold Int64.max_int64; lia).
  assert (7 < 7 + 4) as Hnow by lia.
  assert ("n" ∈ ["n"]) as Hin by (apply elem_of_cons; by left).
  split; [exact ex_world_valid|]. split; [exact Hl|]. split; [exact Hnow|].
  destruct (item_lives_a_lifespan_after_its_last_access 7 7 ("n" :: ex_order)
              "n" 4 "d" ex_world ex_world_valid Hl Hnow)
    as (item & w1 & Hadd & _ & Hcheck & Hvalue).
  exists item, w1. split; [exact Hadd|].
  split.
  { destruct (Hcheck 10 ["n"] Hin) as (w2 & Hrun & Hkeep & _).
    exists w2. split; [exact Hrun|]. apply Hkeep. lia. }
  split.
  { destruct (Hcheck 11 ["n"] Hin) as (w2 & Hrun & _ & Hgone).
    exists w2. split; [exact Hrun|]. apply Hgone. lia. }
  destruct (Hvalue 9 9 ["n"] []) as (w3 & Hval & Hcheck3).
  exists w3. split; [exact Hval|]. split.
  - destruct (Hcheck3 12 ["n"] Hin) as (w4 & Hrun & Hkeep & _).
    exists w4. split; [exact Hrun|]. apply Hkeep. lia.
  - destruct (Hcheck3 13 ["n"] Hin) as (w4 & Hrun & _ & Hgone).
    exists w4. split; [exact Hrun|]. apply Hgone. lia.
Defined.

Lemma expirationCheck_twice_witness :
  ptrs_valid ex_world /\
  range_order (items (table ex_world)) ex_order /\
  timestamps_ok 6 ex_world /\
  exists w' evs,
    expirationCheck 6 ex_order ex_world = Some (tt, w') /\
    range_order (items (table w')) ["b"; "c"] /\
    expirationCheck 6 ["b"; "c"] w'
    = Some (tt, mkWorld (heap w') (table w') (trace w' ++ evs)%list) /\
    filter is_callback evs = [].
Proof.
  split; [exact ex_world_valid|]. split; [exact ex_order_ok|].
  split; [exact ex_times_ok|].
  destruct (expirationCheck_twice 6 ex_order ["b"; "c"] ex_world
              ex_world_valid ex_order_ok ex_times_ok)
    as (w' & evs & Hrun & Hsecond).
  assert (range_order (items (table w')) ["b"; "c"]) as Horder.
  { vm_compute in Hrun. injection Hrun as <-.
    apply range_orderb_ok. vm_compute. reflexivity. }
  exists w', evs. split; [exact Hrun|]. split; [exact Horder|].
  exact (Hsecond Horder).
Defined.

Lemma timer_waits_for_the_first_deadline_witness :
  ptrs_valid ex_world /\
  range_order (items (table ex_world)) ex_order /\
  timestamps_ok 6 ex_world /\
  exists w',
    expirationCheck 6 ex_order ex_world = Some (tt, w') /\
    cleanupInterval (table w') = 3 /\
    exists k it,
      stored w' k it /\
      accessedOn it + lifeSpan it = 6 + 3 /\
      (exists w'', expirationCheck 8 ["b"; "c"] w' = Some (tt, w'') /\
                   items (table w'') = items (table w')) /\
      (exists w'', expirationCheck 9 ["b"; "c"] w' = Some (tt, w'') /\
                   items (table w'') !! k = None).
Proof.
  split; [exact ex_world_valid|]. split; [exact ex_order_ok|].
  split; [exact ex_times_ok|].
  destruct (timer_waits_for_the_first_deadline 6 ex_order ex_world
              ex_world_valid ex_order_ok ex_times_ok)
    as (w' & Hrun & Hnext).
  assert (cleanupInterval (table w') = 3) as Hint.
  { vm_compute in Hrun. injection Hrun as <-. reflexivity. }
  exists w'. split; [exact Hrun|]. split; [exact Hint|].
  rewrite Hint in Hnext.
  destruct Hnext as (k & it & Hst & Hdead & Hlater); [lia|].
  exists k, it. split; [exact Hst|]. split; [exact Hdead|].
  assert (range_order (items (table w')) ["b"; "c"]) as Horder.
  { vm_compute in Hrun. injection Hrun as <-.
    apply range_orderb_ok. vm_compute. reflexivity. }
  assert (k ∈ ["b"; "c"]) as Hin.
  { destruct Hst as (p & Hk & _). apply Horder. rewrite Hk. eauto. }
  split.
  - destruct (Hlater 8 ["b"; "c"]) as (w'' & Hrun' & Hsame & _).
    exists w''. split; [exact Hrun'|]. apply Hsame. lia.
  - destruct (Hlater 9 ["b"; "c"]) as (w'' & Hrun' & _ & Hgone).
    exists w''. split; [exact Hrun'|]. apply Hgone; [lia|exact Hin].
Defined.

Lemma SetAddedItemCallback_then_Add_witness :
  ptrs_valid ex_world /\
  exists w1 item w2 rest,
    SetAddedItemCallback (Some 9%nat) ex_world = Some (tt, w1) /\
    Add 7 7 ("n" :: ex_order) "n" 4 "d" w1 = Some (item, w2) /\
    trace w2 = (trace w1
                ++ [TableLock; MapSet "n" item; TableUnlock]
                ++ [CallAddedItem 9%nat item]
                ++ rest)%list /\
    forall c p, CallAddedItem c p ∉ rest.
Proof.
  split; [exact ex_world_valid|].
  destruct (SetAddedItemCallback_then_Add (Some 9%nat) 7 7 ("n" :: ex_order)
              "n" 4 "d" ex_world ex_world_valid)
    as (w1 & item & w2 & rest & Hset & _ & _ & Hadd & Htr & Hno).
  exists w1, item, w2, rest. split; [exact Hset|]. split; [exact Hadd|].
  split; [exact Htr|exact Hno].
Defined.

Lemma callbacks_set_then_Delete_witness :
  ptrs_valid ex_world /\
  items (table ex_world) !! "b" = Some 1%nat /\
  lifeSpan ex_b = 0 /\
  exists w1 w2 w3,
    SetAboutToDeleteItemCallback (Some 8%nat) ex_world = Some (tt, w1) /\
    SetAboutToExpireCallback 1%nat (Some 9%nat) w1 = Some (tt, w2) /\
    Delete "b" w2 = Some ((Some 1%nat, None), w3) /\
    filter is_callback (new_events (Delete "b") w2)
    = [CallAboutToDeleteItem 8%nat 1%nat; CallAboutToExpire 9%nat "b"].
Proof.
  split; [exact ex_world_valid|]. split; [reflexivity|]. split; [reflexivity|].
  destruct (callbacks_set_then_Delete (Some 8%nat) (Some 9%nat) "b" 1%nat
              ex_world ex_world_valid eq_refl)
    as (w1 & w2 & w3 & H1 & H2 & _ & H3 & H4).
  exists w1, w2, w3. split; [exact H1|]. split; [exact H2|].
  split; [exact H3|exact H4].
Defined.

Lemma SetDataLoader_then_Value_witness :
  ptrs_valid ex_world /\
  items (table ex_world) !! "y" = None /\
  exists w1 res w2 evs,
    SetDataLoader None ex_world = Some (tt, w1) /\
    Value 7 7 ex_order "y" [] w1 = Some (res, w2) /\
    trace w2 = (trace w1 ++ [TableRLock; MapGet "y"; TableRUnlock] ++ evs)%list /\
    res = (None, Some ErrKeyNotFound) /\ evs = [].
Proof.
  split; [exact ex_world_valid|]. split; [reflexivity|].
  destruct (SetDataLoader_then_Value None 7 7 ex_order "y" [] ex_world
              ex_world_valid eq_refl)
    as (w1 & res & w2 & evs & H1 & H2 & Htr & H3 & H4).
  exists w1, res, w2, evs. split; [exact H1|]. split; [exact H2|].
  split; [exact Htr|]. split; [exact H3|exact H4].
Defined.

Lemma Foreach_visits_every_entry_once_witness :
  range_order (items (table ex_world)) ex_order /\
  fst <$> Foreach (fun k v s w0 => Some ((s ++ [(k, v)])%list, w0)) ex_order [] ex_world
  = Some [("c", 2%nat); ("a", 0%nat); ("b", 1%nat)].
Proof.
  split; [exact ex_order_ok|].
  destruct (Foreach_visits_every_entry_once
              (fun _ k v s => (s ++ [(k, v)])%list) ex_order [] ex_world ex_order_ok)
    as (Hrun & _).
  rewrite Hrun. reflexivity.
Defined.

Lemma Cache_gets_or_creates_witness :
  registry_ok empty_registry /\
  exists p r',
    Cache "myCache" empty_registry = (p, r') /\
    registry_ok r' /\
    cache r' !! "myCache" = Some p /\
    tables r' !! p = Some (new_table "myCache").
Proof.
  split; [exact empty_registry_ok|].
  destruct (Cache_gets_or_creates "myCache" empty_registry empty_registry_ok)
    as (p & r' & Hc & Hok & Hp & _ & Hnew & _).
  exists p, r'. split; [exact Hc|]. split; [exact Hok|]. split; [exact Hp|].
  exact (proj1 (Hnew eq_refl)).
Defined.

Lemma Cache_one_table_per_name_witness :
  registry_ok empty_registry /\
  exists p1 r1 p2 r2,
    Cache "myCache" empty_registry = (p1, r1) /\
    Cache "xyz" r1 = (p2, r2) /\
    p1 <> p2 /\
    Cache "myCache" r2 = (p1, r2) /\
    Cache "xyz" r2 = (p2, r2).
Proof.
  split; [exact empty_registry_ok|].
  destruct (Cache_one_table_per_name "myCache" "xyz" empty_registry
              empty_registry_ok)
    as (p1 & r1 & p2 & r2 & H1 & H2 & Hiff & H3 & H4).
  exists p1, r1, p2, r2. split; [exact H1|]. split; [exact H2|].
  split; [|split; [exact H3|exact H4]].
  intros Heq. apply Hiff in Heq. discriminate Heq.
Defined.

Lemma MostAccessed_leaves_out_the_least_accessed_witness :
  ptrs_valid ex_world /\
  range_order (items (table ex_world)) ex_order /\
  Z.of_nat (size (items (table ex_world))) <= Int64.max_int64 /\
  exists r top rest,
    fst <$> MostAccessed ex_order 2 ex_world = Some r /\
    (top ++ rest)%list ≡ₚ ex_order /\
    Forall2 (fun k p => items (table ex_world) !! k = Some p) top r.
Proof.
  assert (Z.of_nat (size (items (table ex_world))) <= Int64.max_int64) as Hsize
    by (vm_compute; discriminate).
  split; [exact ex_world_valid|]. split; [exact ex_order_ok|].
  split; [exact Hsize|].
  destruct (MostAccessed_leaves_out_the_least_accessed ex_order 2 ex_world
              ex_world_valid ex_order_ok Hsize)
    as (r & top & rest & Hrun & Hperm & Hall & _).
  exists r, top, rest. split; [exact Hrun|]. split; [exact Hperm|exact Hall].
Defined.

Lemma expirationCheck_keeps_zero_lifespan_witness :
  ptrs_valid ex_world /\
  stored ex_world "b" ex_b /\
  lifeSpan ex_b = 0 /\
  exists w', expirationCheck 1000 ex_order ex_world = Some (tt, w') /\
             stored w' "b" ex_b.
Proof.
  split; [exact ex_world_valid|]. split; [exact ex_stored_b|].
  split; [reflexivity|].
  exact (expirationCheck_keeps_zero_lifespan 1000 ex_order ex_world "b" ex_b
           ex_world_valid ex_stored_b eq_refl).
Defined.

Lemma CacheItemPairList_implements_sort_Interface_witness :
  0 <= 0 < CacheItemPairList_Len ex_pairs /\
  0 <= 1 < CacheItemPairList_Len ex_pairs /\
  (exists p',
     CacheItemPairList_Swap ex_pairs 0 1 = Some p' /\
     index p' 0 = Some (mkCacheItemPair "a" 5) /\
     index p' 1 = Some (mkCacheItemPair "c" 3) /\
     CacheItemPairList_Swap p' 0 1 = Some ex_pairs) /\
  CacheItemPairList_Less ex_pairs 0 0 = Some false.
Proof.
  assert (0 <= 0 < CacheItemPairList_Len ex_pairs) as H0 by (vm_compute; split; discriminate || reflexivity).
  assert (0 <= 1 < CacheItemPairList_Len ex_pairs) as H1 by (vm_compute; split; discriminate || reflexivity).
  split; [exact H0|]. split; [exact H1|].
  destruct (CacheItemPairList_implements_sort_Interface ex_pairs 0 1 H0 H1)
    as ((p' & Hswap & _ & _ & Hi & Hj & _ & Hback) & Hirr & _).
  split; [|exact Hirr].
  exists p'. split; [exact Hswap|]. split; [exact Hi|]. split; [exact Hj|].
  exact Hback.
Defined.

End examples.

End cpcache2go.

